(** * shared::map — an open-addressing hash map (include/containers/map.hpp)

    A shallow embedding of the hash map of [include/containers/map.hpp]:
    the slot table is a list of entries, the 32-bit counters and the
    [size_t] indices are integers with their wrap-around written out, the
    [float] load-factor test is evaluated with the IEEE-754 binary32
    operations of the standard library's [SpecFloat], and the two loops
    that the source leaves unbounded (the probe loop of [find_slot] and
    the recursion between [operator[]] and [grow]) take fuel.

    The iterator of the map, the vector of
    [include/containers/vector.hpp] and the loops of the benchmarks that
    call the two containers follow the model of the map.

    Target assumed: [size_t] of 64 bits, [uint32_t] of 32 bits, [float]
    IEEE-754 binary32 evaluated in that format, [int] of 4 bytes stored
    least significant byte first. An access to a slot outside the table
    (undefined behaviour in the source) is the result [Fault].

    The capacity is a [uint32_t]: at 2^31 slots [capacity *= 2] wraps to
    0, and a call of [operator[]] on which the growth check fires there
    does not return. The check fires there once 3 * 2^29 + 64 keys are
    stored. The [int] counters of the benchmark loops overflow past
    2^31 - 1, which is the result [Fault] as well. *)

From Stdlib Require Import ZArith Lia Bool List Permutation.
From Stdlib Require Import Floats.SpecFloat.
From stdpp Require Import base list numbers.

Local Open Scope Z_scope.

(** ** Machine integers *)

(** [uint32_t] arithmetic ([capacity], [m_size]). *)
Definition wrap32 (z : Z) : Z := z mod 2 ^ 32.

(** [size_t] arithmetic on a 64-bit target ([hash], [index], [i]). *)
Definition wrap_size (z : Z) : Z := z mod 2 ^ 64.

(** ** The load-factor test, in binary32 *)

Definition prec : Z := 24.
Definition emax : Z := 128.

(** [static_cast<float>(n)] for an unsigned 32-bit [n]: round to nearest,
    ties to even. *)
Definition float_of_uint32 (n : Z) : spec_float :=
  binary_normalize prec emax n 0 false.

(** [max_load_factor = 0.75f], that is 12582912 * 2^-24. *)
Definition max_load_factor : spec_float := S754_finite false 12582912 (-24).

(** [static_cast<float>(m_size + 1) / capacity > max_load_factor]:
    [m_size + 1] is computed in [uint32_t], [capacity] is converted to
    [float] by the usual arithmetic conversions. *)
Definition load_exceeded (m_size capacity : Z) : bool :=
  SFltb max_load_factor
        (SFdiv prec emax (float_of_uint32 (wrap32 (m_size + 1)))
               (float_of_uint32 capacity)).

(** What [shr_1] of [SpecFloat] keeps while it shifts [N] to the right by
    [k] digits: the mantissa is the quotient, and the two flags are clear
    when no digit was lost. *)
Definition shifted (mrs : shr_record) (N k : Z) : Prop :=
  shr_m mrs = N / 2 ^ k /\
  (N mod 2 ^ k = 0 -> shr_r mrs = false /\ shr_s mrs = false).

(** ** Results of running the code *)

Inductive outcome (A : Type) : Type :=
| Done (a : A)   (* the call returns *)
| Fault          (* a slot outside the allocated table is accessed:
                    undefined behaviour in the source *)
| OutOfFuel.     (* the fuel of the embedding ran out *)

Arguments Done {A} a.
Arguments Fault {A}.
Arguments OutOfFuel {A}.

Definition bind {A B : Type} (x : outcome A) (f : A -> outcome B) : outcome B :=
  match x with
  | Done a => f a
  | Fault => Fault
  | OutOfFuel => OutOfFuel
  end.

Notation "'let*' x ':=' e1 'in' e2" := (bind e1 (fun x => e2))
  (at level 10, x name, e1 at level 100, e2 at level 200).
Notation "'let*' ' p ':=' e1 'in' e2" := (bind e1 (fun p => e2))
  (at level 10, p pattern, e1 at level 100, e2 at level 200).

Module shared.

(** What the template asks of a key type [k]: [operator==], an object
    representation of [sizeof(k)] bytes (read by [hash_fn]) and a default
    constructor. *)
Class KeyType (k : Type) := {
  key_eqb : k -> k -> bool;
  object_bytes : k -> list Z;
  key_default : k
}.

(** What it asks of a value type [v]: the default constructor [v()]. *)
Class ValueType (v : Type) := {
  value_default : v
}.

(** Keys whose [operator==] is equality of the values; the hash, a function
    of the key, then agrees on equal keys (the keys the header calls
    efficiently hashable). *)
Class KeyLaws (k : Type) `{KeyType k} : Prop := {
  key_eqb_eq : forall a b : k, key_eqb a b = true <-> a = b
}.

(** [hash_fn]: [hash = ((hash << 5) + hash) + data[i]] over the bytes of the
    value, in [size_t]. *)
Definition hash_step (hash byte : Z) : Z :=
  wrap_size (wrap_size (wrap_size (Z.shiftl hash 5) + hash) + byte).

Definition hash_fn {k} `{KeyType k} (value : k) : Z :=
  fold_left hash_step (object_bytes value) 0.

Section Map.
Context {k v : Type} `{KeyType k} `{ValueType v}.

(** [shared::pair<k, v>] *)
Record pair : Type := { first : k; second : v }.

(** [map::Entry]; [state] is 0 (empty), 1 (occupied) or 2 (deleted). *)
Record Entry : Type := { state : Z; data : pair }.

(** [Entry() : state(0) {}], the pair default-constructed. *)
Definition Entry_new : Entry :=
  {| state := 0; data := {| first := key_default; second := value_default |} |}.

(** [Entry::insert(key, value)] *)
Definition Entry_insert (key : k) (value : v) : Entry :=
  {| state := 1; data := {| first := key; second := value |} |}.

(** The fields of [map]. A null [entries] pointer is the table without
    slots, as is the result of [new Entry[0]]: every access is outside
    it. *)
Record map : Type := { entries : list Entry; capacity : Z; m_size : Z }.

(** [entries[index]] *)
Definition entry_at (m : map) (index : Z) : outcome Entry :=
  match entries m !! Z.to_nat index with
  | Some e => Done e
  | None => Fault
  end.

(** [new Entry[capacity]()] *)
Definition new_entries (capacity : Z) : list Entry :=
  replicate (Z.to_nat capacity) Entry_new.

(** The test that ends the probe loop:
    [entries[index].state != 1 || entries[index].data.first == key]. *)
Definition stops (e : Entry) (key : k) : bool :=
  negb (state e =? 1) || key_eqb (first (data e)) key.

(** [index = (index + i) & (capacity - 1)] *)
Definition advance (capacity index i : Z) : Z :=
  Z.land (wrap_size (index + i)) (wrap32 (capacity - 1)).

(** The loop of [find_slot], [for (size_t i = 0; ; i++)], entered with the
    current [index] and [i]. *)
Fixpoint find_slot_loop (fuel : nat) (m : map) (key : k) (index i : Z)
  : outcome Z :=
  match fuel with
  | O => OutOfFuel
  | S fuel' =>
      let* e := entry_at m index in
      if stops e key then Done index
      else find_slot_loop fuel' m key
             (advance (capacity m) index i) (wrap_size (i + 1))
  end.

(** [hash & (capacity - 1)] *)
Definition home_slot (m : map) (key : k) : Z :=
  Z.land (hash_fn key) (wrap32 (capacity m - 1)).

(** [map::find_slot] *)
Definition find_slot (fuel : nat) (m : map) (key : k) : outcome Z :=
  find_slot_loop fuel m key (home_slot m key) 0.

(** The indices [find_slot]'s loop examines, in order, up to and
    including the slot that ends it. *)
Fixpoint examined_loop (fuel : nat) (m : map) (key : k) (index i : Z)
  : list Z :=
  match fuel with
  | O => []
  | S fuel' =>
      match entries m !! Z.to_nat index with
      | None => [index]
      | Some e =>
          if stops e key then [index]
          else index :: examined_loop fuel' m key
                          (advance (capacity m) index i) (wrap_size (i + 1))
      end
  end.

Definition examined (fuel : nat) (m : map) (key : k) : list Z :=
  examined_loop fuel m key (home_slot m key) 0.

(** The first [n] indices of the probe sequence of [find_slot] from
    [index] with loop counter [i], when no slot ends the loop. *)
Fixpoint probe_indices (n : nat) (capacity index i : Z) : list Z :=
  match n with
  | O => []
  | S n' =>
      index :: probe_indices n' capacity (advance capacity index i)
                 (wrap_size (i + 1))
  end.

(** Writing through the reference [operator[]] or [find] returned:
    [entries[index].data.second = value]. *)
Definition store_value (m : map) (index : Z) (value : v) : outcome map :=
  let* e := entry_at m index in
  Done {| entries :=
            <[Z.to_nat index :=
                {| state := state e;
                   data := {| first := first (data e); second := value |} |}]>
              (entries m);
          capacity := capacity m;
          m_size := m_size m |}.

(** The loop of [grow] over the old table,
    [for (uint32_t i = 0; i < old_cap; i++)]; [count] is the number of
    iterations left and [index_rec] is [operator[]]. *)
Fixpoint rehash (index_rec : map -> k -> outcome (map * Z))
         (old_entries : list Entry) (count : nat) (i : Z) (m : map)
  : outcome map :=
  match count with
  | O => Done m
  | S count' =>
      match old_entries !! Z.to_nat i with
      | None => Fault
      | Some e =>
          if state e =? 1 then
            let* '(m1, index) := index_rec m (first (data e)) in
            let* m2 := store_value m1 index (second (data e)) in
            rehash index_rec old_entries count' (wrap32 (i + 1)) m2
          else rehash index_rec old_entries count' (wrap32 (i + 1)) m
      end
  end.

(** [map::grow], given [operator[]]. *)
Definition grow_with (index_rec : map -> k -> outcome (map * Z)) (m : map)
  : outcome map :=
  let old_cap := capacity m in
  let old_entries := entries m in
  let new_cap := wrap32 (capacity m * 2) in
  rehash index_rec old_entries (Z.to_nat old_cap) 0
         {| entries := new_entries new_cap; capacity := new_cap; m_size := 0 |}.

(** [map::operator[]], the spec's [index_or_insert]. The reference it
    returns is the index of the slot whose value it designates, in the
    table of the map returned with it. *)
Fixpoint index_or_insert (fuel : nat) (m : map) (key : k)
  : outcome (map * Z) :=
  match fuel with
  | O => OutOfFuel
  | S fuel' =>
      let* m1 := (if load_exceeded (m_size m) (capacity m)
             then grow_with (index_or_insert fuel') m
             else Done m) in
      let* index := find_slot fuel' m1 key in
      let* e := entry_at m1 index in
      if negb (state e =? 1) then
        Done ({| entries :=
                   <[Z.to_nat index := Entry_insert key value_default]>
                     (entries m1);
                 capacity := capacity m1;
                 m_size := wrap32 (m_size m1 + 1) |}, index)
      else Done (m1, index)
  end.

(** [map::grow] *)
Definition grow (fuel : nat) (m : map) : outcome map :=
  grow_with (index_or_insert fuel) m.

(** [map::find] (both overloads have this body); the pointer returned is
    the index of the slot it points into, [nullptr] is [None]. *)
Definition find (fuel : nat) (m : map) (key : k) : outcome (option Z) :=
  let* index := find_slot fuel m key in
  let* e := entry_at m index in
  if (state e =? 1) && key_eqb (first (data e)) key
  then Done (Some index) else Done None.

(** The value a pointer returned by [find] points to. *)
Definition lookup (fuel : nat) (m : map) (key : k) : outcome (option v) :=
  let* r := find fuel m key in
  match r with
  | None => Done None
  | Some index => let* e := entry_at m index in Done (Some (second (data e)))
  end.

(** [map::map()]; the member [capacity] is a [uint32_t]. *)
Definition map_new (InitialSize : Z) : map :=
  {| entries := new_entries (wrap32 InitialSize);
     capacity := wrap32 InitialSize;
     m_size := 0 |}.

(** [map::clear] *)
Definition clear (InitialSize : Z) (m : map) : map :=
  {| entries := new_entries (wrap32 InitialSize);
     capacity := wrap32 InitialSize;
     m_size := 0 |}.

(** [map::size], [map::empty] *)
Definition size (m : map) : Z := m_size m.
Definition empty (m : map) : bool := m_size m =? 0.

(** The state [map(map&&)] and [operator=(map&&)] leave in [other]. *)
Definition moved_from : map :=
  {| entries := []; capacity := 0; m_size := 0 |}.

(** [map(map&& other)]: the new object and [other] afterwards. *)
Definition move_construct (other : map) : map * map :=
  ({| entries := entries other; capacity := capacity other;
      m_size := m_size other |}, moved_from).

(** [operator=(map&& other)] on two distinct objects ([this != &other]):
    [*this] and [other] afterwards. *)
Definition move_assign (this other : map) : map * map :=
  ({| entries := entries other; capacity := capacity other;
      m_size := m_size other |}, moved_from).

(** [m[key] = value] *)
Definition assign (fuel : nat) (m : map) (key : k) (value : v) : outcome map :=
  let* '(m1, index) := index_or_insert fuel m key in
  store_value m1 index value.

(** [m[key] = value] for each pair of the list, in order. *)
Fixpoint assign_all (fuel : nat) (kvs : list (k * v)) (m : map) : outcome map :=
  match kvs with
  | [] => Done m
  | (key, value) :: rest =>
      let* m1 := assign fuel m key value in
      assign_all fuel rest m1
  end.

(** *** Sequences of calls and what they return *)

Inductive call : Type :=
| CallIndex (key : k)               (* m[key] *)
| CallAssign (key : k) (value : v)  (* m[key] = value *)
| CallFind (key : k)                (* m.find(key) *)
| CallSize                          (* m.size() *)
| CallEmpty                         (* m.empty() *)
| CallClear.                        (* m.clear() *)

Inductive answer : Type :=
| AnsRef (index : Z) (value : v)    (* the slot referred to and its value *)
| AnsFind (r : option (Z * v))      (* the slot pointed to and its value *)
| AnsSize (n : Z)
| AnsEmpty (b : bool)
| AnsUnit.

Definition run_call (InitialSize : Z) (fuel : nat) (c : call) (m : map)
  : outcome (map * answer) :=
  match c with
  | CallIndex key =>
      let* '(m1, index) := index_or_insert fuel m key in
      let* e := entry_at m1 index in
      Done (m1, AnsRef index (second (data e)))
  | CallAssign key value =>
      let* '(m1, index) := index_or_insert fuel m key in
      let* m2 := store_value m1 index value in
      Done (m2, AnsRef index value)
  | CallFind key =>
      let* r := find fuel m key in
      match r with
      | None => Done (m, AnsFind None)
      | Some index =>
          let* e := entry_at m index in
          Done (m, AnsFind (Some (index, second (data e))))
      end
  | CallSize => Done (m, AnsSize (size m))
  | CallEmpty => Done (m, AnsEmpty (empty m))
  | CallClear => Done (clear InitialSize m, AnsUnit)
  end.

Fixpoint run (InitialSize : Z) (fuel : nat) (cs : list call) (m : map)
  : outcome (map * list answer) :=
  match cs with
  | [] => Done (m, [])
  | c :: rest =>
      let* '(m1, a) := run_call InitialSize fuel c m in
      let* '(m2, answers) := run InitialSize fuel rest m1 in
      Done (m2, a :: answers)
  end.

(** *** The probe sequence as the specification words it (section 4.2)

    Examine [home]; otherwise advance by
    [index = (index + attempt) & (capacity - 1)] for attempt = 1, 2, 3, ... *)
Fixpoint spec_probe (fuel : nat) (m : map) (key : k) (index attempt : Z)
  : outcome Z :=
  match fuel with
  | O => OutOfFuel
  | S fuel' =>
      match entries m !! Z.to_nat index with
      | None => Fault
      | Some e =>
          if negb (state e =? 1) || key_eqb (first (data e)) key
          then Done index
          else spec_probe fuel' m key
                 (Z.land (wrap_size (index + attempt)) (wrap32 (capacity m - 1)))
                 (wrap_size (attempt + 1))
      end
  end.

Definition spec_find_slot (fuel : nat) (m : map) (key : k) : outcome Z :=
  spec_probe fuel m key (Z.land (hash_fn key) (wrap32 (capacity m - 1))) 1.

Fixpoint spec_examined_loop (fuel : nat) (m : map) (key : k) (index attempt : Z)
  : list Z :=
  match fuel with
  | O => []
  | S fuel' =>
      match entries m !! Z.to_nat index with
      | None => [index]
      | Some e =>
          if negb (state e =? 1) || key_eqb (first (data e)) key
          then [index]
          else index :: spec_examined_loop fuel' m key
                 (Z.land (wrap_size (index + attempt)) (wrap32 (capacity m - 1)))
                 (wrap_size (attempt + 1))
      end
  end.

Definition spec_examined (fuel : nat) (m : map) (key : k) : list Z :=
  spec_examined_loop fuel m key
    (Z.land (hash_fn key) (wrap32 (capacity m - 1))) 1.

(** *** What a table holds, and the representation invariant *)

(** Some occupied slot holds [key] with [value]. *)
Definition holds (m : map) (key : k) (value : v) : Prop :=
  exists p e, entries m !! p = Some e /\ state e = 1 /\
              first (data e) = key /\ second (data e) = value.

(** Some occupied slot holds [key]. *)
Definition present (m : map) (key : k) : Prop :=
  exists value, holds m key value.

(** The pairs of the occupied slots, in slot order. *)
Definition contents_of (es : list Entry) : list (k * v) :=
  (fun e => (first (data e), second (data e)))
    <$> List.filter (fun e => state e =? 1) es.

Definition contents (m : map) : list (k * v) := contents_of (entries m).

(** The invariant of the tables the operations build: capacity a power of
    two that fits [uint32_t], as many slots as the capacity, [m_size] the
    number of occupied slots, at least one slot not occupied, and every
    stored key resolved by [find_slot] to the slot that stores it. *)
Record wf (m : map) : Prop := {
  wf_capacity : exists j, 0 <= j <= 31 /\ capacity m = 2 ^ j;
  wf_length : Z.of_nat (length (entries m)) = capacity m;
  wf_size : m_size m = Z.of_nat (length (contents m));
  wf_load : m_size m < capacity m;
  wf_probe : forall p e, entries m !! p = Some e -> state e = 1 ->
             exists fuel, find_slot fuel m (first (data e)) = Done (Z.of_nat p)
}.

(** What [operator[]] establishes: the map returned is well formed, the
    reference designates an occupied slot that stores [key], and the table
    holds what it held, with [key] added under the default value when it
    was not stored. *)
Definition index_post (m : map) (key : k) (m' : map) (index : Z) : Prop :=
  wf m' /\ 0 <= index /\
  (exists e, entries m' !! Z.to_nat index = Some e /\ state e = 1 /\
             first (data e) = key) /\
  (forall key' value',
      holds m' key' value' <->
      holds m key' value' \/
      (~ present m key /\ key' = key /\ value' = value_default)) /\
  m_size m <= m_size m' <= m_size m + 1.

(** The part of [operator[]] that follows the growth check. *)
Definition settle (fuel : nat) (m1 : map) (key : k) : outcome (map * Z) :=
  let* index := find_slot fuel m1 key in
  let* e := entry_at m1 index in
  if negb (state e =? 1) then
    Done ({| entries :=
               <[Z.to_nat index := Entry_insert key value_default]>
                 (entries m1);
             capacity := capacity m1;
             m_size := wrap32 (m_size m1 + 1) |}, index)
  else Done (m1, index).

(** The loop of [grow] after the first [i] slots of the old table: the new
    table is well formed and holds the pairs of those slots. *)
Definition rehashed (old : list Entry) (new_cap : Z) (i : nat) (m : map)
  : Prop :=
  wf m /\ capacity m = new_cap /\
  m_size m <= Z.of_nat (length (contents_of (take i old))) /\
  (forall key value,
      holds m key value <-> (key, value) ∈ contents_of (take i old)).

(** The maps reached from construction by the operations of the class,
    with the keys passed to [operator[]] on the way: every call of
    [operator[]] that returns, every write through a reference it returned,
    [clear], and the targets of the moves. The source of a move is not
    among them. *)
Inductive reachable (InitialSize : Z) : list k -> map -> Prop :=
| reach_new : reachable InitialSize [] (map_new InitialSize)
| reach_index keys m fuel key m' index :
    reachable InitialSize keys m ->
    index_or_insert fuel m key = Done (m', index) ->
    reachable InitialSize (key :: keys) m'
| reach_store keys m index e value m' :
    reachable InitialSize keys m ->
    0 <= index -> entries m !! Z.to_nat index = Some e -> state e = 1 ->
    store_value m index value = Done m' ->
    reachable InitialSize keys m'
| reach_clear keys m :
    reachable InitialSize keys m ->
    reachable InitialSize keys (clear InitialSize m)
| reach_move_construct keys m :
    reachable InitialSize keys m ->
    reachable InitialSize keys (fst (move_construct m))
| reach_move_assign keys this m :
    reachable InitialSize keys m ->
    reachable InitialSize keys (fst (move_assign this m)).

(** The value last assigned to [key] by the assignments [kvs]. *)
Fixpoint last_assigned (kvs : list (k * v)) (key : k) : option v :=
  match kvs with
  | [] => None
  | (key', value) :: rest =>
      match last_assigned rest key with
      | Some value' => Some value'
      | None => if key_eqb key' key then Some value else None
      end
  end.

End Map.

(** The offset of the [t]-th examined slot from the home slot:
    0, 0, 1, 3, 6, ... *)
Definition offset (t : Z) : Z := t * (t - 1) / 2.

(** The slot examined at iteration [t] of the loop of [find_slot], in closed
    form. *)
Definition probe_at (capacity hash t : Z) : Z := (hash + offset t) mod capacity.

(** ** Keys and values of type [int] *)

Module ints.

(** The object representation of a 32-bit [int], least significant byte
    first. *)
Definition int_bytes (x : Z) : list Z :=
  let u := wrap32 x in
  [Z.land u 255; Z.land (Z.shiftr u 8) 255;
   Z.land (Z.shiftr u 16) 255; Z.land (Z.shiftr u 24) 255].

#[export] Instance int_key : KeyType Z :=
  {| key_eqb := Z.eqb; object_bytes := int_bytes; key_default := 0 |}.

#[export] Instance int_value : ValueType Z := {| value_default := 0 |}.

(** [shared::map<int, int>] and [shared::map<int, int, 8>]'s constructor. *)
Definition int_map : Type := @map Z Z.
Definition int_map_new : int_map := map_new 8.

(** [for (int i = 0; i < n; ++i) m[i] = value_of(i);] as the list of
    assignments; the benchmarks assign [i] itself. *)
Definition numbered (value_of : Z -> Z) (n : Z) : list (Z * Z) :=
  (fun i => (i, value_of i)) <$> seqZ 0 n.

(** For each assignment of the list, in order: whether the growth check of
    [operator[]] fired, and the capacity once the assignment is done. *)
Fixpoint growth_trace (fuel : nat) (kvs : list (Z * Z)) (m : int_map)
  : list (bool * Z) :=
  match kvs with
  | [] => []
  | (key, value) :: rest =>
      match assign fuel m key value with
      | Done m1 =>
          (load_exceeded (m_size m) (capacity m), capacity m1)
            :: growth_trace fuel rest m1
      | _ => []
      end
  end.

End ints.

(** ** Iteration over the occupied slots: [map::iterator] *)

Module iterator.
Section Iterator.
Context {k v : Type} `{KeyType k} `{ValueType v}.

(** The fields of [map::iterator]. [it_entries] is the table the pointer
    [entries] designates, as it is while the map is not modified. *)
Record iterator : Type := {
  it_entries : list (@Entry k v);
  it_capacity : Z;
  it_index : Z
}.

(** [iterator::advance]:
    [while (index < capacity && entries[index].state != 1) ++index;] *)
Fixpoint advance (fuel : nat) (it : iterator) : outcome iterator :=
  match fuel with
  | O => OutOfFuel
  | S fuel' =>
      if it_index it <? it_capacity it then
        match it_entries it !! Z.to_nat (it_index it) with
        | None => Fault
        | Some e =>
            if negb (state e =? 1) then
              advance fuel' {| it_entries := it_entries it;
                               it_capacity := it_capacity it;
                               it_index := wrap32 (it_index it + 1) |}
            else Done it
        end
      else Done it
  end.

(** [iterator(e, cap, i)] *)
Definition iterator_new (fuel : nat) (e : list (@Entry k v)) (cap i : Z)
  : outcome iterator :=
  advance fuel {| it_entries := e; it_capacity := cap; it_index := i |}.

(** [operator*]: [entries[index].data] *)
Definition deref (it : iterator) : outcome (@pair k v) :=
  match it_entries it !! Z.to_nat (it_index it) with
  | Some e => Done (data e)
  | None => Fault
  end.

(** [operator++]: [++index; advance();] *)
Definition increment (fuel : nat) (it : iterator) : outcome iterator :=
  advance fuel {| it_entries := it_entries it;
                  it_capacity := it_capacity it;
                  it_index := wrap32 (it_index it + 1) |}.

(** [operator!=]: [index != other.index] *)
Definition neq (it other : iterator) : bool :=
  negb (it_index it =? it_index other).

(** [map::begin], [map::end] *)
Definition begin (fuel : nat) (m : @map k v) : outcome iterator :=
  iterator_new fuel (entries m) (capacity m) 0.

Definition end_ (fuel : nat) (m : @map k v) : outcome iterator :=
  iterator_new fuel (entries m) (capacity m) (capacity m).

(** The loop [for (; it != last; ++it)] reading [*it] in its body: the
    pairs read, in order. *)
Fixpoint visit_loop (fuel : nat) (it last : iterator)
  : outcome (list (@pair k v)) :=
  match fuel with
  | O => OutOfFuel
  | S fuel' =>
      if neq it last then
        let* p := deref it in
        let* it' := increment fuel' it in
        let* rest := visit_loop fuel' it' last in
        Done (p :: rest)
      else Done []
  end.

(** [for (auto& p : m)], that is the loop above from [m.begin()] to
    [m.end()]. *)
Definition visited (fuel : nat) (m : @map k v) : outcome (list (@pair k v)) :=
  let* it := begin fuel m in
  let* last := end_ fuel m in
  visit_loop fuel it last.

(** The slot an iterator that is neither past a gap nor at the end stands
    on: an occupied slot, or [capacity]. *)
Definition settled (it : iterator) : Prop :=
  it_index it = it_capacity it \/
  exists e, it_entries it !! Z.to_nat (it_index it) = Some e /\ state e = 1.

End Iterator.
End iterator.

(** ** [shared::vector] (include/containers/vector.hpp)

    The storage [_elements] is an array of [_space] slots obtained from
    [::operator new], each holding a constructed element or nothing yet; a
    null pointer has no array. The destructor calls and the calls of the
    custom deleter are recorded as events. Allocations are assumed to
    succeed, with [n * sizeof(T)] within [size_t], and the argument of
    [push_back] and [resize] not to be an element of the vector itself. *)

Module vector.
Section Vector.
Context {T D : Type} `{ValueType T}.

(** What is done to the elements that leave the vector. *)
Inductive event : Type :=
| Deleted (d : D) (x : T)   (* _deleter(std::move(x)) *)
| Destroyed (x : T)         (* x.~T() on an element *)
| DestroyedMoved.           (* .~T() on an element that was moved from *)

(** The fields of [vector<T>]; [D] is the type of the function pointers
    [deleter_fn<T>], [None] the null pointer. *)
Record vector : Type := {
  _size : Z;
  _elements : option (list (option T));
  _space : Z;
  _deleter : option D
}.

(** [_elements[i]], read as an element. *)
Definition element_at (vec : vector) (i : Z) : outcome T :=
  match _elements vec with
  | Some slots =>
      match slots !! Z.to_nat i with
      | Some (Some x) => Done x
      | _ => Fault
      end
  | None => Fault
  end.

(** [new (elements + i) T(x)] *)
Definition construct_at (elements : option (list (option T))) (i : Z) (x : T)
  : outcome (option (list (option T))) :=
  match elements with
  | Some slots =>
      match slots !! Z.to_nat i with
      | Some _ => Done (Some (<[Z.to_nat i := Some x]> slots))
      | None => Fault
      end
  | None => Fault
  end.

(** [elements[i].~T()]: the slot holds nothing afterwards. *)
Definition destroy_at (elements : option (list (option T))) (i : Z)
  : option (list (option T)) :=
  match elements with
  | Some slots => Some (<[Z.to_nat i := None]> slots)
  | None => None
  end.

(** [static_cast<T*>(::operator new(n * sizeof(T)))] *)
Definition allocate (n : Z) : option (list (option T)) :=
  Some (replicate (Z.to_nat n) None).

(** [vector(deleter_fn<T> custom_deleter = nullptr)] *)
Definition vector_new (custom_deleter : option D) : vector :=
  {| _size := 0; _elements := None; _space := 0; _deleter := custom_deleter |}.

(** The loop [for (size_t i = 0; i < s; i++) new (_elements + i) T();] of
    [vector(size_t s, ...)]. *)
Fixpoint default_loop (count : nat) (i : Z) (elements : option (list (option T)))
  : outcome (option (list (option T))) :=
  match count with
  | O => Done elements
  | S count' =>
      let* elements1 := construct_at elements i value_default in
      default_loop count' (wrap_size (i + 1)) elements1
  end.

(** [explicit vector(size_t s, deleter_fn<T> custom_deleter = nullptr)] *)
Definition vector_sized (s : Z) (custom_deleter : option D) : outcome vector :=
  if 0 <? s then
    let* elements := default_loop (Z.to_nat s) 0 (allocate s) in
    Done {| _size := s; _elements := elements; _space := s;
            _deleter := custom_deleter |}
  else Done (vector_new custom_deleter).

(** The loop [for (size_t i = 0; i < _size; i++)
    new (_elements + i) T(other._elements[i]);] of the copy operations. *)
Fixpoint copy_loop (count : nat) (i : Z) (other : vector)
         (elements : option (list (option T)))
  : outcome (option (list (option T))) :=
  match count with
  | O => Done elements
  | S count' =>
      let* x := element_at other i in
      let* elements1 := construct_at elements i x in
      copy_loop count' (wrap_size (i + 1)) other elements1
  end.

(** [vector(const vector& other)] *)
Definition copy_construct (other : vector) : outcome vector :=
  if 0 <? _size other then
    let* elements :=
      copy_loop (Z.to_nat (_size other)) 0 other (allocate (_size other)) in
    Done {| _size := _size other; _elements := elements;
            _space := _size other; _deleter := _deleter other |}
  else Done (vector_new (_deleter other)).

(** [vector(vector&& other)]: the new object and [other] afterwards. *)
Definition move_construct (other : vector) : vector * vector :=
  ({| _size := _size other; _elements := _elements other;
      _space := _space other; _deleter := _deleter other |},
   {| _size := 0; _elements := None; _space := 0;
      _deleter := _deleter other |}).

(** The loop of [clean_up] over the elements. *)
Fixpoint clean_up_loop (count : nat) (i : Z) (vec : vector)
  : outcome (list event) :=
  match count with
  | O => Done []
  | S count' =>
      let* x := element_at vec i in
      let* events := clean_up_loop count' (wrap_size (i + 1)) vec in
      Done (match _deleter vec with
            | Some d => Deleted d x
            | None => Destroyed x
            end :: events)
  end.

(** [vector::clean_up] *)
Definition clean_up (vec : vector) : outcome (vector * list event) :=
  let* events :=
    match _elements vec with
    | Some _ => clean_up_loop (Z.to_nat (_size vec)) 0 vec
    | None => Done []
    end in
  Done ({| _size := 0; _elements := None; _space := 0;
           _deleter := _deleter vec |}, events).

(** [~vector()] *)
Definition destructor (vec : vector) : outcome (list event) :=
  let* '(_, events) := clean_up vec in Done events.

(** [operator=(const vector& other)] on two distinct objects. *)
Definition copy_assign (this other : vector) : outcome (vector * list event) :=
  let* '(this1, events) := clean_up this in
  let* this2 :=
    (if 0 <? _size other then
       let* elements :=
         copy_loop (Z.to_nat (_size other)) 0 other (allocate (_size other)) in
       Done {| _size := _size other; _elements := elements;
               _space := _size other; _deleter := _deleter this1 |}
     else Done this1) in
  Done ({| _size := _size this2; _elements := _elements this2;
           _space := _space this2; _deleter := _deleter other |}, events).

(** [operator=(vector&& other)] on two distinct objects: [*this], [other]
    and the events. *)
Definition move_assign (this other : vector)
  : outcome (vector * vector * list event) :=
  let* '(_, events) := clean_up this in
  Done ({| _size := _size other; _elements := _elements other;
           _space := _space other; _deleter := _deleter other |},
        {| _size := 0; _elements := None; _space := 0;
           _deleter := _deleter other |},
        events).

(** The loop of [reserve]:
    [new (new_elements + i) T(std::move(_elements[i])); _elements[i].~T();] *)
Fixpoint reserve_loop (count : nat) (i : Z) (vec : vector)
         (new_elements : option (list (option T)))
  : outcome (option (list (option T)) * list event) :=
  match count with
  | O => Done (new_elements, [])
  | S count' =>
      let* x := element_at vec i in
      let* new1 := construct_at new_elements i x in
      let* '(new2, events) :=
        reserve_loop count' (wrap_size (i + 1)) vec new1 in
      Done (new2, DestroyedMoved :: events)
  end.

(** [vector::reserve] *)
Definition reserve (vec : vector) (new_alloc : Z)
  : outcome (vector * list event) :=
  if new_alloc <=? _space vec then Done (vec, [])
  else
    let* '(new_elements, events) :=
      reserve_loop (Z.to_nat (_size vec)) 0 vec (allocate new_alloc) in
    Done ({| _size := _size vec; _elements := new_elements;
             _space := new_alloc; _deleter := _deleter vec |}, events).

(** The loop [while (_size > new_size) _elements[--_size].~T();] of
    [resize], for the [count] iterations it makes. *)
Fixpoint shrink_loop (count : nat) (vec : vector)
  : outcome (vector * list event) :=
  match count with
  | O => Done (vec, [])
  | S count' =>
      let i := wrap_size (_size vec - 1) in
      let* x := element_at vec i in
      let* '(vec1, events) :=
        shrink_loop count'
          {| _size := i; _elements := destroy_at (_elements vec) i;
             _space := _space vec; _deleter := _deleter vec |} in
      Done (vec1, Destroyed x :: events)
  end.

(** The loop [while (_size < new_size) new (_elements + _size++) T(val);]
    of [resize], for the [count] iterations it makes. *)
Fixpoint fill_loop (count : nat) (vec : vector) (val : T) : outcome vector :=
  match count with
  | O => Done vec
  | S count' =>
      let* elements := construct_at (_elements vec) (_size vec) val in
      fill_loop count'
        {| _size := wrap_size (_size vec + 1); _elements := elements;
           _space := _space vec; _deleter := _deleter vec |} val
  end.

(** [vector::resize(new_size, val)] *)
Definition resize (vec : vector) (new_size : Z) (val : T)
  : outcome (vector * list event) :=
  if new_size <=? _size vec then
    shrink_loop (Z.to_nat (_size vec - new_size)) vec
  else
    let* '(vec1, events) :=
      (if _space vec <? new_size then reserve vec new_size
       else Done (vec, [])) in
    let* vec2 := fill_loop (Z.to_nat (new_size - _size vec1)) vec1 val in
    Done (vec2, events).

(** [vector::push_back], both overloads: the element is constructed from
    the value passed. *)
Definition push_back (vec : vector) (val : T) : outcome (vector * list event) :=
  let* '(vec1, events) :=
    (if _space vec =? 0 then reserve vec 8
     else if _size vec =? _space vec
          then reserve vec (wrap_size (2 * _space vec))
          else Done (vec, [])) in
  let* elements := construct_at (_elements vec1) (_size vec1) val in
  Done ({| _size := wrap_size (_size vec1 + 1); _elements := elements;
           _space := _space vec1; _deleter := _deleter vec1 |}, events).

(** [push_back] of the values of a list, in order. *)
Fixpoint push_back_all (vals : list T) (vec : vector)
  : outcome (vector * list event) :=
  match vals with
  | [] => Done (vec, [])
  | val :: rest =>
      let* '(vec1, events1) := push_back vec val in
      let* '(vec2, events2) := push_back_all rest vec1 in
      Done (vec2, events1 ++ events2)
  end.

(** [vector(std::initializer_list<U> init, deleter_fn<T> custom_deleter)] *)
Definition vector_of_list (init : list T) (custom_deleter : option D)
  : outcome (vector * list event) :=
  let* '(vec1, events1) :=
    reserve (vector_new custom_deleter) (Z.of_nat (length init)) in
  let* '(vec2, events2) := push_back_all init vec1 in
  Done (vec2, events1 ++ events2).

(** [operator[]] *)
Definition index (vec : vector) (i : Z) : outcome T := element_at vec i.

(** [vector::at]: out of range it returns [_elements[0]]. *)
Definition at_ (vec : vector) (i : Z) : outcome T :=
  if _size vec <=? i then element_at vec 0 else element_at vec i.

(** [clear], [empty], [size], [capacity], [front], [back] *)
Definition clear (vec : vector) : outcome (vector * list event) := clean_up vec.
Definition empty (vec : vector) : bool := _size vec =? 0.
Definition size (vec : vector) : Z := _size vec.
Definition capacity (vec : vector) : Z := _space vec.
Definition front (vec : vector) : outcome T := element_at vec 0.
Definition back (vec : vector) : outcome T :=
  element_at vec (wrap_size (_size vec - 1)).

(** [vector::iterator]: the pointer [_curr], as its offset in the array
    [_elements] points to; [begin()] is [iterator(_elements)] and [end()]
    is [iterator(_elements + _size)]. *)
Definition begin (vec : vector) : Z := 0.
Definition end_ (vec : vector) : Z := _size vec.

(** [iterator::operator++], [operator--], [operator*], [operator!=] *)
Definition increment (it : Z) : Z := it + 1.
Definition decrement (it : Z) : Z := it - 1.
Definition deref (vec : vector) (it : Z) : outcome T := element_at vec it.
Definition neq (it other : Z) : bool := negb (it =? other).

(** The loop [for (; it != last; ++it)] reading [*it] in its body: the
    elements read, in order. *)
Fixpoint visit_loop (fuel : nat) (vec : vector) (it last : Z)
  : outcome (list T) :=
  match fuel with
  | O => OutOfFuel
  | S fuel' =>
      if neq it last then
        let* x := deref vec it in
        let* rest := visit_loop fuel' vec (increment it) last in
        Done (x :: rest)
      else Done []
  end.

(** [for (auto& x : vec)] *)
Definition visited (fuel : nat) (vec : vector) : outcome (list T) :=
  visit_loop fuel vec (begin vec) (end_ vec).

(** *** The vectors the operations build *)

(** The array of [space] slots of which the first hold the elements
    [xs], and the pointer to it; without slots the pointer is null. *)
Definition slots_of (xs : list T) (space : Z) : list (option T) :=
  (Some <$> xs) ++ replicate (Z.to_nat space - length xs) None.

Definition storage (xs : list T) (space : Z) : option (list (option T)) :=
  if space =? 0 then None else Some (slots_of xs space).

(** [vec] holds the elements [xs], in this order. *)
Definition stores (vec : vector) (xs : list T) : Prop :=
  _size vec = Z.of_nat (length xs) /\
  _size vec <= _space vec < 2 ^ 64 /\
  _elements vec = storage xs (_space vec).

End Vector.
End vector.

(** ** The callers: [benchmarks/map_benchmarks.hpp] and
    [benchmarks/vector_benchmarks.hpp] *)

Module benchy.
Import ints.

(** The loop of [BM_CustomMapInsertion] and the set-up of
    [BM_CustomMapLookup] for [state.range(0) = n]:
    [shared::map<int, int> m; for (int i = 0; i < n; ++i) m[i] = i;] *)
Definition BM_CustomMapInsertion (fuel : nat) (n : Z) : outcome int_map :=
  assign_all fuel (numbered (fun i => i) n) int_map_new.

(** [for (int i = 0; i < n; ++i) m.find(i);]: for each pointer returned, the
    value it points to. *)
Fixpoint find_each (fuel : nat) (m : int_map) (keys : list Z)
  : outcome (list (option Z)) :=
  match keys with
  | [] => Done []
  | key :: rest =>
      let* r := lookup fuel m key in
      let* rs := find_each fuel m rest in
      Done (r :: rs)
  end.

(** One round of [BM_CustomMapLookup] after its set-up. *)
Definition BM_CustomMapLookup (fuel : nat) (n : Z)
  : outcome (list (option Z)) :=
  let* m := BM_CustomMapInsertion fuel n in
  find_each fuel m (seqZ 0 n).

(** The largest value of the [int] counter of the vector benchmarks. *)
Definition INT_MAX : Z := 2 ^ 31 - 1.

(** [++i] on the [int] counter [i]: at [INT_MAX] the increment overflows,
    which the language leaves undefined. *)
Definition int_increment (i : Z) : outcome Z :=
  if i <? INT_MAX then Done (i + 1) else Fault.

(** [for (int i = ...; i < n; ++i) v.push_back(i);] from the counter value
    [i] on, [n] being the [int64_t] [state.range(0)] to which [i] is
    converted for the test. The elements of the [vector<int>] are the
    values of the counter. *)
Fixpoint push_back_loop {D : Type} (fuel : nat) (n i : Z)
         (vec : @vector.vector Z D)
  : outcome (@vector.vector Z D * list (@vector.event Z D)) :=
  match fuel with
  | O => OutOfFuel
  | S fuel' =>
      if i <? n then
        let* '(vec1, events1) := vector.push_back vec i in
        let* i1 := int_increment i in
        let* '(vec2, events2) := push_back_loop fuel' n i1 vec1 in
        Done (vec2, events1 ++ events2)
      else Done (vec, [])
  end.

(** [for (int i = ...; i < n; ++i) v[i];] from the counter value [i] on:
    the values read. *)
Fixpoint access_loop {D : Type} (fuel : nat) (n i : Z)
         (vec : @vector.vector Z D) : outcome (list Z) :=
  match fuel with
  | O => OutOfFuel
  | S fuel' =>
      if i <? n then
        let* x := vector.index vec i in
        let* i1 := int_increment i in
        let* xs := access_loop fuel' n i1 vec in
        Done (x :: xs)
      else Done []
  end.

(** The loop of [BM_CustomVectorPushBack] and the set-up of
    [BM_CustomVectorAccess] for [state.range(0) = n]:
    [shared::vector<int> v; for (int i = 0; i < n; ++i) v.push_back(i);] *)
Definition BM_CustomVectorPushBack {D : Type} (fuel : nat) (n : Z)
  : outcome (@vector.vector Z D * list (@vector.event Z D)) :=
  push_back_loop fuel n 0 (vector.vector_new None).

(** One round of [BM_CustomVectorAccess] after its set-up:
    [for (int i = 0; i < n; ++i) v[i];] *)
Definition BM_CustomVectorAccess {D : Type} (fuel : nat) (n : Z)
  : outcome (list Z) :=
  let* '(vec, _) := BM_CustomVectorPushBack (D := D) fuel n in
  access_loop fuel n 0 vec.

End benchy.

(** ** The load-factor test on exactly representable counts *)

Section LoadTest.

Lemma wrap32_small z : 0 <= z < 2 ^ 32 -> wrap32 z = z.
Proof. intros Hz. unfold wrap32. apply Z.mod_small. exact Hz. Qed.

Lemma wrap_size_small z : 0 <= z < 2 ^ 64 -> wrap_size z = z.
Proof. intros Hz. unfold wrap_size. apply Z.mod_small. exact Hz. Qed.

Lemma pow2_range j : 0 <= j <= 31 -> 1 <= 2 ^ j <= 2 ^ 31.
Proof.
  intros Hj. split.
  - pose proof (Z.pow_pos_nonneg 2 j). lia.
  - apply Z.pow_le_mono_r; lia.
Qed.

Lemma digits2_pos_bounds p :
  2 ^ (Z.pos (digits2_pos p) - 1) <= Z.pos p < 2 ^ Z.pos (digits2_pos p).
Proof.
  induction p as [p IH|p IH|]; cbn [digits2_pos].
  - rewrite Pos2Z.inj_succ, Z.pow_succ_r by lia.
    replace (Z.succ (Z.pos (digits2_pos p)) - 1)
      with (Z.succ (Z.pos (digits2_pos p) - 1)) by lia.
    rewrite Z.pow_succ_r by lia. lia.
  - rewrite Pos2Z.inj_succ, Z.pow_succ_r by lia.
    replace (Z.succ (Z.pos (digits2_pos p)) - 1)
      with (Z.succ (Z.pos (digits2_pos p) - 1)) by lia.
    rewrite Z.pow_succ_r by lia. lia.
  - simpl. lia.
Qed.

Lemma digits2_pos_shift p n :
  digits2_pos (Pos.iter xO p n) = (digits2_pos p + n)%positive.
Proof.
  induction n as [|n IH] using Pos.peano_ind.
  - simpl. lia.
  - rewrite Pos.iter_succ. cbn [digits2_pos]. rewrite IH. lia.
Qed.

Lemma pos_iter_xO_val p n : Z.pos (Pos.iter xO p n) = Z.pos p * 2 ^ Z.pos n.
Proof.
  induction n as [|n IH] using Pos.peano_ind.
  - simpl. lia.
  - rewrite Pos.iter_succ, Pos2Z.inj_succ, Z.pow_succ_r by lia.
    rewrite Pos2Z.inj_xO, IH. lia.
Qed.

(** A mantissa of exactly 24 digits with an exponent in range is left
    alone by the final rounding. *)
Lemma binary_round_aux_exact m e :
  Z.pos (digits2_pos m) = 24 -> -149 <= e <= 104 ->
  binary_round_aux 24 128 false (Z.pos m) e loc_Exact = S754_finite false m e.
Proof.
  intros Hd He. unfold binary_round_aux, shr_fexp, fexp, emin.
  cbn [Zdigits2 shr_record_of_loc]. rewrite Hd.
  replace (Z.max (24 + e - 24) (3 - 128 - 24) - e) with 0 by lia.
  cbn [shr shr_m loc_of_shr_record round_nearest_even Zdigits2 shr_record_of_loc].
  rewrite Hd.
  replace (Z.max (24 + e - 24) (3 - 128 - 24) - e) with 0 by lia.
  cbn [shr shr_m].
  destruct (Z.leb_spec e (128 - 24)); [reflexivity|lia].
Qed.

(** Below 2^24 the conversion to [float] is exact: the mantissa is the
    number shifted to 24 digits. *)
Lemma float_of_uint32_small p :
  Z.pos (digits2_pos p) <= 24 ->
  exists m,
    float_of_uint32 (Z.pos p) = S754_finite false m (Z.pos (digits2_pos p) - 24)
    /\ Z.pos (digits2_pos m) = 24
    /\ Z.pos m = Z.pos p * 2 ^ (24 - Z.pos (digits2_pos p)).
Proof.
  intros Hd.
  unfold float_of_uint32, prec, emax, binary_normalize, binary_round,
    shl_align, fexp, emin.
  replace (Z.max (Z.pos (digits2_pos p) + 0 - 24) (3 - 128 - 24))
    with (Z.pos (digits2_pos p) - 24) by lia.
  replace (Z.pos (digits2_pos p) - 24 - 0) with (Z.pos (digits2_pos p) - 24) by lia.
  destruct (Z.pos (digits2_pos p) - 24) as [|q|q] eqn:E; try lia.
  - exists p. rewrite binary_round_aux_exact by lia.
    split; [reflexivity|]. split; [lia|].
    replace (24 - Z.pos (digits2_pos p)) with 0 by lia. lia.
  - exists (Pos.iter xO p q). rewrite binary_round_aux_exact.
    + split; [reflexivity|]. split.
      * rewrite digits2_pos_shift. lia.
      * rewrite pos_iter_xO_val. f_equal. f_equal. lia.
    + rewrite digits2_pos_shift. lia.
    + lia.
Qed.

Lemma float_of_uint32_pow2 j :
  0 <= j <= 31 -> float_of_uint32 (2 ^ j) = S754_finite false 8388608 (j - 23).
Proof.
  intros Hj.
  assert (Hn : exists n : nat, j = Z.of_nat n /\ (n <= 31)%nat)
    by (exists (Z.to_nat j); lia).
  destruct Hn as (n & -> & Hn).
  do 32 (destruct n as [|n]; [vm_compute; reflexivity|]). lia.
Qed.

(** Dividing by a power of two only moves the exponent. *)
Lemma SFdiv_by_pow2 m e j :
  Z.pos (digits2_pos m) = 24 -> -23 <= e <= 9 -> 0 <= j <= 31 ->
  SFdiv prec emax (S754_finite false m e) (S754_finite false 8388608 (j - 23))
  = S754_finite false m (e - j).
Proof.
  intros Hd He Hj. unfold prec, emax, SFdiv, SFdiv_core_binary, fexp, emin.
  cbn [Zdigits2 xorb]. rewrite Hd. change (Z.pos (digits2_pos 8388608)) with 24.
  replace (Z.min (Z.max (24 + e - (24 + (j - 23)) - 24) (3 - 128 - 24)) (e - (j - 23)))
    with (e - j - 1) by lia.
  replace (e - (j - 23) - (e - j - 1)) with 24 by lia.
  cbv beta iota.
  assert (Hdiv : Z.div_eucl (Z.shiftl (Z.pos m) 24) 8388608 = (Z.pos m~0, 0)).
  { rewrite Z.shiftl_mul_pow2 by lia.
    pose proof (Z.div_eucl_eq (Z.pos m * 2 ^ 24) 8388608 ltac:(lia)) as Heq.
    pose proof (Z.mod_pos_bound (Z.pos m * 2 ^ 24) 8388608 ltac:(lia)) as Hb.
    unfold Z.modulo in Hb.
    destruct (Z.div_eucl (Z.pos m * 2 ^ 24) 8388608) as [q r].
    f_equal; lia. }
  rewrite Hdiv. change (new_location 8388608 0) with loc_Exact.
  unfold binary_round_aux, shr_fexp, fexp, emin.
  cbn [Zdigits2 digits2_pos shr_record_of_loc].
  replace (Z.pos (Pos.succ (digits2_pos m))) with 25 by lia.
  replace (Z.max (25 + (e - j - 1) - 24) (3 - 128 - 24) - (e - j - 1)) with 1 by lia.
  cbn [shr SpecFloat.iter_pos shr_1 shr_m loc_of_shr_record orb
       round_nearest_even Zdigits2 shr_record_of_loc].
  rewrite Hd.
  replace (Z.max (24 + (e - j - 1 + 1) - 24) (3 - 128 - 24) - (e - j - 1 + 1))
    with 0 by lia.
  cbn [shr shr_m].
  destruct (Z.leb_spec (e - j - 1 + 1) (128 - 24)); [|lia].
  f_equal. lia.
Qed.

(** On a power-of-two capacity and a count below 2^24 the [float] test is
    the exact comparison of [(m_size + 1) / capacity] with 3/4. *)
Lemma load_exceeded_exact n j :
  0 <= n -> n + 1 < 2 ^ 24 -> 0 <= j <= 31 ->
  load_exceeded n (2 ^ j) = (3 * 2 ^ j <? 4 * (n + 1)).
Proof.
  intros Hn Hlt Hj. unfold load_exceeded, wrap32.
  rewrite Z.mod_small by lia.
  destruct (n + 1) as [|p|p] eqn:Ep; try lia.
  pose proof (digits2_pos_bounds p) as Hb.
  assert (Hd : Z.pos (digits2_pos p) <= 24).
  { destruct (Z.le_gt_cases (Z.pos (digits2_pos p)) 24) as [|Hgt]; [assumption|].
    assert (2 ^ 24 <= 2 ^ (Z.pos (digits2_pos p) - 1))
      by (apply Z.pow_le_mono_r; lia).
    lia. }
  destruct (float_of_uint32_small p Hd) as (m & -> & Hm & Hv).
  rewrite float_of_uint32_pow2 by assumption.
  rewrite SFdiv_by_pow2 by (try assumption; lia).
  set (d := Z.pos (digits2_pos p)) in *.
  unfold SFltb, max_load_factor, SFcompare.
  assert (Hp2 : forall z, 0 <= z -> 2 ^ (z + 1) = 2 * 2 ^ z)
    by (intros z Hz; rewrite Z.pow_add_r by lia; lia).
  destruct (Z.compare_spec (-24) (d - 24 - j)) as [Heq|Hl|Hg].
  - assert (d = j) by lia. subst j.
    change (Pos.compare_cont Eq 12582912 m) with (Z.pos 12582912 ?= Z.pos m).
    rewrite Hv.
    assert (Hs : 2 ^ 24 = 2 ^ (24 - d) * 2 ^ d)
      by (rewrite <- Z.pow_add_r by lia; f_equal; lia).
    assert (0 < 2 ^ (24 - d)) by (apply Z.pow_pos_nonneg; lia).
    destruct (Z.compare_spec 12582912 (Z.pos p * 2 ^ (24 - d))) as [E|E|E];
      symmetry; [apply Z.ltb_ge|apply Z.ltb_lt|apply Z.ltb_ge]; nia.
  - symmetry. apply Z.ltb_lt.
    assert (2 ^ j <= 2 ^ (d - 1)) by (apply Z.pow_le_mono_r; lia). lia.
  - symmetry. apply Z.ltb_ge.
    assert (2 ^ (d + 1) <= 2 ^ j) by (apply Z.pow_le_mono_r; lia).
    rewrite Hp2 in * by lia. lia.
Qed.

(** *** Counts of 2^24 and more *)

Lemma digits2_pos_unique p n :
  2 ^ (n - 1) <= Z.pos p < 2 ^ n -> Z.pos (digits2_pos p) = n.
Proof.
  intros [Hlo Hhi]. pose proof (digits2_pos_bounds p) as [Hlo' Hhi'].
  set (d := Z.pos (digits2_pos p)) in *.
  assert (Hn : 0 < n).
  { destruct (Z.lt_ge_cases 0 n) as [|Hle]; [assumption|].
    assert (2 ^ n <= 1).
    { destruct (Z.eq_dec n 0) as [->|]; [simpl; lia|].
      rewrite Z.pow_neg_r by lia. lia. }
    lia. }
  destruct (Z.lt_trichotomy d n) as [Hlt|[Heq|Hgt]]; [|assumption|].
  - assert (2 ^ d <= 2 ^ (n - 1)) by (apply Z.pow_le_mono_r; lia). lia.
  - assert (2 ^ n <= 2 ^ (d - 1)) by (apply Z.pow_le_mono_r; lia). lia.
Qed.

Lemma shifted_shr_1 mrs N k :
  0 <= N -> 0 <= k -> shifted mrs N k -> shifted (shr_1 mrs) N (k + 1).
Proof.
  intros HN Hk [Hm Hflags].
  assert (Hpk : 0 < 2 ^ k) by (apply Z.pow_pos_nonneg; lia).
  assert (Hp : 2 ^ (k + 1) = 2 ^ k * 2) by (rewrite Z.pow_add_r by lia; lia).
  assert (Hq : N / 2 ^ (k + 1) = N / 2 ^ k / 2)
    by (rewrite Hp, Z.div_div by lia; reflexivity).
  assert (Hq0 : 0 <= N / 2 ^ k) by (apply Z.div_pos; lia).
  assert (Hrem : N mod 2 ^ (k + 1) = 0 -> N mod 2 ^ k = 0 /\ (N / 2 ^ k) mod 2 = 0).
  { intros H0. rewrite Hp in H0. rewrite Z.rem_mul_r in H0 by lia.
    pose proof (Z.mod_pos_bound N (2 ^ k) ltac:(lia)).
    pose proof (Z.mod_pos_bound (N / 2 ^ k) 2 ltac:(lia)). nia. }
  destruct mrs as [m r s]. cbn [shr_m shr_r shr_s] in *. subst m.
  unfold shifted. rewrite Hq.
  destruct (N / 2 ^ k) as [|p|p] eqn:E; [| |lia].
  - cbn [shr_1 shr_m shr_r shr_s]. split; [reflexivity|].
    intros H0. apply Hrem in H0. destruct H0 as [H0 _].
    destruct (Hflags H0) as [-> ->]. auto.
  - destruct p as [p|p|]; cbn [shr_1 shr_m shr_r shr_s].
    + split; [rewrite Pos2Z.inj_xI; apply Z.div_unique with 1; lia|].
      intros H0. apply Hrem in H0. destruct H0 as [_ H0].
      rewrite Pos2Z.inj_xI in H0.
      replace (2 * Z.pos p + 1) with (1 + Z.pos p * 2) in H0 by lia.
      rewrite Z.mod_add in H0 by lia. discriminate.
    + split; [rewrite Pos2Z.inj_xO; apply Z.div_unique with 0; lia|].
      intros H0. apply Hrem in H0. destruct H0 as [H0 _].
      destruct (Hflags H0) as [-> ->]. auto.
    + split; [reflexivity|].
      intros H0. apply Hrem in H0. destruct H0 as [_ H0]. discriminate.
Qed.

Lemma shifted_iter p : forall mrs N k,
  0 <= N -> 0 <= k -> shifted mrs N k ->
  shifted (SpecFloat.iter_pos shr_1 p mrs) N (k + Z.pos p).
Proof.
  induction p as [p IH|p IH|]; intros mrs N k HN Hk Hs; cbn [SpecFloat.iter_pos].
  - replace (k + Z.pos p~1) with (k + 1 + Z.pos p + Z.pos p) by lia.
    apply IH; [lia|lia|]. apply IH; [lia|lia|]. apply shifted_shr_1; assumption.
  - replace (k + Z.pos p~0) with (k + Z.pos p + Z.pos p) by lia.
    apply IH; [lia|lia|]. apply IH; assumption.
  - apply shifted_shr_1; assumption.
Qed.

(** From 2^24 on the conversion to [float] rounds: the result lies between
    the two neighbours of the number with 24 significant digits, and is the
    number itself when that has no more digits. *)
Lemma float_of_uint32_large p :
  25 <= Z.pos (digits2_pos p) <= 32 ->
  exists m e,
    float_of_uint32 (Z.pos p) = S754_finite false m e /\
    Z.pos (digits2_pos m) = 24 /\ 1 <= e <= 9 /\
    let s := Z.pos (digits2_pos p) - 24 in
    Z.pos p / 2 ^ s * 2 ^ s <= Z.pos m * 2 ^ e <= (Z.pos p / 2 ^ s + 1) * 2 ^ s /\
    (Z.pos p mod 2 ^ s = 0 -> Z.pos m * 2 ^ e = Z.pos p).
Proof.
  intros Hd. pose proof (digits2_pos_bounds p) as Hb.
  set (d := Z.pos (digits2_pos p)) in *. cbv zeta.
  unfold float_of_uint32, prec, emax, binary_normalize, binary_round,
    shl_align, fexp, emin. fold d.
  replace (Z.max (d + 0 - 24) (3 - 128 - 24)) with (d - 24) by lia.
  replace (d - 24 - 0) with (d - 24) by lia.
  destruct (d - 24) as [|ps|ps] eqn:Es; [lia| |lia].
  unfold binary_round_aux, shr_fexp, fexp, emin.
  cbn [Zdigits2 shr_record_of_loc]. fold d.
  replace (Z.max (d + 0 - 24) (3 - 128 - 24) - 0) with (Z.pos ps) by lia.
  cbn [shr].
  pose proof (shifted_iter ps {| shr_m := Z.pos p; shr_r := false; shr_s := false |}
                (Z.pos p) 0 ltac:(lia) ltac:(lia)) as Hsh.
  rewrite Z.add_0_l in Hsh.
  destruct Hsh as [Hm Hflags].
  { split; cbn [shr_m shr_r shr_s]; [rewrite Z.pow_0_r, Z.div_1_r; reflexivity|auto]. }
  set (s := Z.pos ps) in *.
  assert (Hps : 0 < 2 ^ s) by (apply Z.pow_pos_nonneg; lia).
  assert (Hsplit : 2 ^ (d - 1) = 2 ^ 23 * 2 ^ s)
    by (rewrite <- Z.pow_add_r by lia; f_equal; lia).
  assert (Hsplit' : 2 ^ d = 2 ^ 24 * 2 ^ s)
    by (rewrite <- Z.pow_add_r by lia; f_equal; lia).
  pose proof (Z.div_mod (Z.pos p) (2 ^ s) ltac:(lia)) as Hdm.
  pose proof (Z.mod_pos_bound (Z.pos p) (2 ^ s) ltac:(lia)) as Hmb.
  set (q := Z.pos p / 2 ^ s) in *. set (rem := Z.pos p mod 2 ^ s) in *.
  assert (Hq : 2 ^ 23 <= q < 2 ^ 24) by nia.
  destruct (SpecFloat.iter_pos shr_1 ps
              {| shr_m := Z.pos p; shr_r := false; shr_s := false |})
    as [m0 r0 s0] eqn:Eit.
  cbn [shr_m shr_r shr_s] in Hm, Hflags. subst m0.
  set (m1 := round_nearest_even q (loc_of_shr_record
                {| shr_m := q; shr_r := r0; shr_s := s0 |})).
  assert (Hm1 : (m1 = q \/ m1 = q + 1) /\ (rem = 0 -> m1 = q)).
  { unfold m1. split.
    - destruct r0, s0; cbn [loc_of_shr_record round_nearest_even];
        try destruct (Z.even q); auto.
    - intros H0. destruct (Hflags H0) as [-> ->]. reflexivity. }
  cbn [shr_m]. fold m1. destruct Hm1 as [Hm1 Hexact].
  assert (Hcase : m1 < 2 ^ 24 \/ m1 = 2 ^ 24) by lia.
  destruct Hcase as [Hlt|Hcarry].
  - destruct m1 as [|pm|pm] eqn:Em1; [lia| |lia].
    assert (Hdm1 : Z.pos (digits2_pos pm) = 24) by (apply digits2_pos_unique; lia).
    cbn [Zdigits2]. rewrite Hdm1.
    replace (Z.max (24 + (0 + s) - 24) (3 - 128 - 24) - (0 + s)) with 0 by lia.
    cbn [shr shr_m].
    destruct (Z.leb_spec (0 + s) (128 - 24)); [|lia].
    exists pm, (0 + s). split; [reflexivity|]. split; [assumption|].
    split; [lia|]. rewrite Z.add_0_l. split; [nia|].
    intros H0. rewrite (Hexact H0). lia.
  - rewrite Hcarry. change (2 ^ 24) with (Z.pos 16777216).
    cbn [Zdigits2]. change (Z.pos (digits2_pos 16777216)) with 25.
    replace (Z.max (25 + (0 + s) - 24) (3 - 128 - 24) - (0 + s)) with 1 by lia.
    cbn [shr SpecFloat.iter_pos shr_1 shr_m shr_record_of_loc].
    destruct (Z.leb_spec (0 + s + 1) (128 - 24)); [|lia].
    exists 8388608%positive, (0 + s + 1). split; [reflexivity|].
    split; [reflexivity|]. split; [lia|]. change (Z.pos 16777216) with (2 ^ 24) in Hcarry.
    replace (0 + s + 1) with (s + 1) by lia.
    replace (2 ^ (s + 1)) with (2 * 2 ^ s) by (rewrite Z.pow_add_r by lia; lia).
    split; [nia|]. intros H0. rewrite (Hexact H0) in Hcarry. lia.
Qed.

(** The comparison with 0.75 of a positive [float] with a full mantissa. *)
Lemma SFltb_max_load_factor m e :
  SFltb max_load_factor (S754_finite false m e)
  = (-24 <? e) || ((e =? -24) && (12582912 <? Z.pos m)).
Proof.
  unfold SFltb, max_load_factor, SFcompare.
  destruct (Z.compare_spec (-24) e) as [Heq|Hlt|Hgt].
  - subst e. rewrite Z.ltb_irrefl, Z.eqb_refl. reflexivity.
  - symmetry. apply orb_true_iff. left. apply Z.ltb_lt. assumption.
  - symmetry. apply orb_false_iff. split.
    + apply Z.ltb_ge. lia.
    + apply andb_false_iff. left. apply Z.eqb_neq. lia.
Qed.

(** The test on a rounded count: the quotient of a [float] of mantissa [m]
    and exponent [e >= 1] by the capacity [2 ^ j]. *)
Lemma load_test_large m e j :
  Z.pos (digits2_pos m) = 24 -> 1 <= e <= 9 -> 0 <= j <= 31 ->
  SFltb max_load_factor
        (SFdiv prec emax (S754_finite false m e) (float_of_uint32 (2 ^ j)))
  = (3 * 2 ^ j <? 4 * (Z.pos m * 2 ^ e)).
Proof.
  intros Hd He Hj.
  rewrite float_of_uint32_pow2, SFdiv_by_pow2, SFltb_max_load_factor by lia.
  pose proof (digits2_pos_bounds m) as Hb. rewrite Hd in Hb.
  change (2 ^ (24 - 1)) with 8388608 in Hb. change (2 ^ 24) with 16777216 in Hb.
  assert (Hpe : 0 < 2 ^ e) by (apply Z.pow_pos_nonneg; lia).
  destruct (Z.ltb_spec (-24) (e - j)) as [Hlt|Hge]; simpl.
  - symmetry. apply Z.ltb_lt.
    assert (2 ^ j <= 2 ^ (e + 23)) by (apply Z.pow_le_mono_r; lia).
    replace (2 ^ (e + 23)) with (2 ^ e * 8388608) in *
      by (rewrite Z.pow_add_r by lia; reflexivity).
    nia.
  - destruct (Z.eqb_spec (e - j) (-24)) as [Heq|Hne]; simpl.
    + replace j with (e + 24) by lia.
      replace (2 ^ (e + 24)) with (2 ^ e * 16777216)
        by (rewrite Z.pow_add_r by lia; reflexivity).
      destruct (Z.ltb_spec 12582912 (Z.pos m)); symmetry;
        [apply Z.ltb_lt|apply Z.ltb_ge]; nia.
    + symmetry. apply Z.ltb_ge.
      assert (2 ^ (e + 25) <= 2 ^ j) by (apply Z.pow_le_mono_r; lia).
      replace (2 ^ (e + 25)) with (2 ^ e * 33554432) in *
        by (rewrite Z.pow_add_r by lia; reflexivity).
      nia.
Qed.

Lemma digits_le_24_lt p : Z.pos (digits2_pos p) <= 24 -> Z.pos p < 2 ^ 24.
Proof.
  intros Hd. pose proof (digits2_pos_bounds p) as [_ Hhi].
  assert (2 ^ Z.pos (digits2_pos p) <= 2 ^ 24) by (apply Z.pow_le_mono_r; lia). lia.
Qed.

Lemma digits_range p :
  Z.pos p < 2 ^ 32 -> Z.pos (digits2_pos p) <= 32.
Proof.
  intros Hlt. pose proof (digits2_pos_bounds p) as [Hlo _].
  destruct (Z.le_gt_cases (Z.pos (digits2_pos p)) 32) as [|Hgt]; [assumption|].
  assert (2 ^ 32 <= 2 ^ (Z.pos (digits2_pos p) - 1)) by (apply Z.pow_le_mono_r; lia).
  lia.
Qed.

(** The growth check does not fire while [(m_size + 1) / capacity] is at
    most 0.75, whatever the rounding. *)
Lemma load_exceeded_low n j :
  0 <= j <= 31 -> 0 <= n -> n + 1 < 2 ^ 32 ->
  4 * (n + 1) <= 3 * 2 ^ j ->
  load_exceeded n (2 ^ j) = false.
Proof.
  intros Hj Hn Hfit Hle.
  destruct (n + 1) as [|p|p] eqn:Ep; try lia.
  destruct (Z.le_gt_cases (Z.pos (digits2_pos p)) 24) as [Hsmall|Hlarge].
  - rewrite load_exceeded_exact; [apply Z.ltb_ge; lia|lia| |lia].
    rewrite Ep. apply digits_le_24_lt. assumption.
  - unfold load_exceeded. rewrite wrap32_small, Ep by lia.
    destruct (float_of_uint32_large p) as (m & e & -> & Hdm & He & Hval & Hexact).
    { pose proof (digits_range p). lia. }
    rewrite load_test_large by assumption. apply Z.ltb_ge.
    pose proof (digits2_pos_bounds p) as [Hlo Hhi].
    set (d := Z.pos (digits2_pos p)) in *. cbv zeta in Hval, Hexact.
    set (s := d - 24) in *.
    assert (Hdj : d <= j).
    { destruct (Z.le_gt_cases d j) as [|Hgt]; [assumption|].
      assert (2 ^ j <= 2 ^ (d - 1)) by (apply Z.pow_le_mono_r; lia). lia. }
    assert (Hps : 0 < 2 ^ s) by (apply Z.pow_pos_nonneg; lia).
    assert (Hpy : 0 < 2 ^ (j - 2 - s)) by (apply Z.pow_pos_nonneg; lia).
    assert (Hj2 : 2 ^ j = 2 ^ (j - 2 - s) * 2 ^ s * 4).
    { rewrite <- Z.pow_add_r by lia. change 4 with (2 ^ 2).
      rewrite <- Z.pow_add_r by lia. f_equal. lia. }
    pose proof (Z.div_mod (Z.pos p) (2 ^ s) ltac:(lia)) as Hdm'.
    pose proof (Z.mod_pos_bound (Z.pos p) (2 ^ s) ltac:(lia)) as Hmb.
    set (q := Z.pos p / 2 ^ s) in *. set (rem := Z.pos p mod 2 ^ s) in *.
    set (Y := 3 * 2 ^ (j - 2 - s)).
    assert (HxY : Z.pos p <= Y * 2 ^ s) by (unfold Y; nia).
    assert (HqY : q <= Y) by nia.
    destruct (Z.eq_dec q Y) as [Heq|Hne].
    + assert (rem = 0) by nia. rewrite Hexact by assumption. lia.
    + assert (q + 1 <= Y) by lia. unfold Y in *. nia.
Qed.

(** The growth check fires when [m_size + 1] reaches the capacity, whatever
    the rounding. *)
Lemma load_exceeded_high n j :
  0 <= j <= 31 -> 0 <= n -> n + 1 < 2 ^ 32 ->
  2 ^ j <= n + 1 ->
  load_exceeded n (2 ^ j) = true.
Proof.
  intros Hj Hn Hfit Hge. pose proof (pow2_range j Hj) as Hr.
  destruct (n + 1) as [|p|p] eqn:Ep; try lia.
  destruct (Z.le_gt_cases (Z.pos (digits2_pos p)) 24) as [Hsmall|Hlarge].
  - rewrite load_exceeded_exact; [apply Z.ltb_lt; lia|lia| |lia].
    rewrite Ep. apply digits_le_24_lt. assumption.
  - unfold load_exceeded. rewrite wrap32_small, Ep by lia.
    destruct (float_of_uint32_large p) as (m & e & -> & Hdm & He & Hval & Hexact).
    { pose proof (digits_range p). lia. }
    rewrite load_test_large by assumption. apply Z.ltb_lt.
    pose proof (digits2_pos_bounds p) as [Hlo Hhi].
    set (d := Z.pos (digits2_pos p)) in *. cbv zeta in Hval, Hexact.
    set (s := d - 24) in *.
    assert (Hjd : j <= d - 1).
    { destruct (Z.le_gt_cases j (d - 1)) as [|Hgt]; [assumption|].
      assert (2 ^ d <= 2 ^ j) by (apply Z.pow_le_mono_r; lia). lia. }
    assert (Hps : 0 < 2 ^ s) by (apply Z.pow_pos_nonneg; lia).
    assert (Hsplit : 2 ^ (d - 1) = 2 ^ 23 * 2 ^ s)
      by (rewrite <- Z.pow_add_r by lia; f_equal; lia).
    assert (2 ^ j <= 2 ^ (d - 1)) by (apply Z.pow_le_mono_r; lia).
    pose proof (Z.div_mod (Z.pos p) (2 ^ s) ltac:(lia)) as Hdm'.
    pose proof (Z.mod_pos_bound (Z.pos p) (2 ^ s) ltac:(lia)) as Hmb.
    set (q := Z.pos p / 2 ^ s) in *. set (rem := Z.pos p mod 2 ^ s) in *.
    assert (Hq : 2 ^ 23 <= q) by nia.
    nia.
Qed.

(** When the check does not fire, a free slot remains after the
    insertion. *)
Lemma load_calm_room n j :
  0 <= j <= 31 -> 0 <= n -> n + 1 < 2 ^ 32 ->
  load_exceeded n (2 ^ j) = false -> n + 1 < 2 ^ j.
Proof.
  intros Hj Hn Hfit Hcalm.
  destruct (Z.lt_ge_cases (n + 1) (2 ^ j)) as [|Hge]; [assumption|].
  rewrite load_exceeded_high in Hcalm by lia. discriminate.
Qed.

(** From 2^24 keys on the test works on a rounded count: with 3 * 2^23
    keys in 2^25 slots the count 3 * 2^23 + 1 is rounded to 3 * 2^23, the
    check stays calm, and the insertion takes the load above three
    quarters. *)
Lemma load_exceeded_rounds :
  load_exceeded 25165824 (2 ^ 25) = false /\ 3 * 2 ^ 25 < 4 * (25165824 + 1).
Proof. split; [vm_compute; reflexivity|lia]. Qed.

(** On 2^31 slots the check stays calm as long as the count with the key to
    insert is at most 3 * 2^29 + 64: the counts from 3 * 2^29 + 1 on are
    rounded to 3 * 2^29 up to there. *)
Lemma load_calm_at_largest n :
  0 <= n -> n + 1 <= 3 * 2 ^ 29 + 64 -> load_exceeded n (2 ^ 31) = false.
Proof.
  intros Hn Hle.
  destruct (Z.le_gt_cases (n + 1) (3 * 2 ^ 29)) as [Hlow|Hhigh].
  - apply load_exceeded_low; lia.
  - assert (Hall : forallb (fun d => negb (load_exceeded (3 * 2 ^ 29 + d) (2 ^ 31)))
                           (seqZ 0 64) = true) by (vm_compute; reflexivity).
    rewrite forallb_forall in Hall.
    specialize (Hall (n - 3 * 2 ^ 29)).
    replace (3 * 2 ^ 29 + (n - 3 * 2 ^ 29)) with n in Hall by lia.
    apply negb_true_iff, Hall, list_elem_of_In, elem_of_seqZ. lia.
Qed.

(** Where the count is rounded, a calm check leaves the load below three
    quarters and one unit in the last place of the [float]. *)
Lemma load_calm_slack n j :
  0 <= j <= 31 -> 0 <= n -> n + 1 < 2 ^ 32 ->
  load_exceeded n (2 ^ j) = false ->
  4 * (n + 1) <= 3 * 2 ^ j + 2 ^ j / 2 ^ 22.
Proof.
  intros Hj Hn Hfit Hcalm. pose proof (pow2_range j Hj) as Hr.
  assert (Hdiv : 0 <= 2 ^ j / 2 ^ 22) by (apply Z.div_pos; lia).
  destruct (Z.lt_ge_cases (n + 1) (2 ^ 24)) as [Hsmall|Hbig].
  - rewrite load_exceeded_exact in Hcalm by lia. apply Z.ltb_ge in Hcalm. lia.
  - destruct (Z.lt_ge_cases (n + 1) (2 ^ j)) as [Hlt|Hge];
      [|rewrite load_exceeded_high in Hcalm by lia; discriminate].
    assert (Hj25 : 25 <= j).
    { destruct (Z.lt_ge_cases j 25) as [Hjlt|]; [|assumption].
      assert (2 ^ j <= 2 ^ 24) by (apply Z.pow_le_mono_r; lia). lia. }
    assert (Hslack : 2 ^ j / 2 ^ 22 = 4 * 2 ^ (j - 24)).
    { replace (2 ^ j) with (2 ^ (j - 22) * 2 ^ 22)
        by (rewrite <- Z.pow_add_r by lia; f_equal; lia).
      rewrite Z.div_mul by lia.
      replace (j - 22) with (2 + (j - 24)) by lia.
      rewrite Z.pow_add_r by lia. reflexivity. }
    rewrite Hslack.
    destruct (n + 1) as [|p|p] eqn:Ep; try lia.
    unfold load_exceeded in Hcalm. rewrite wrap32_small, Ep in Hcalm by lia.
    pose proof (digits2_pos_bounds p) as [Hlo Hhi].
    assert (Hd25 : 25 <= Z.pos (digits2_pos p)).
    { destruct (Z.lt_ge_cases (Z.pos (digits2_pos p)) 25) as [Hdlt|]; [|assumption].
      assert (2 ^ Z.pos (digits2_pos p) <= 2 ^ 24) by (apply Z.pow_le_mono_r; lia).
      lia. }
    destruct (float_of_uint32_large p) as (m & e & Hfl & Hdm & He & Hval & Hexact).
    { pose proof (digits_range p). lia. }
    rewrite Hfl, load_test_large in Hcalm by assumption. apply Z.ltb_ge in Hcalm.
    set (d := Z.pos (digits2_pos p)) in *. cbv zeta in Hval, Hexact.
    set (s := d - 24) in *.
    assert (Hdj : d <= j).
    { destruct (Z.le_gt_cases d j) as [|Hgt]; [assumption|].
      assert (2 ^ j <= 2 ^ (d - 1)) by (apply Z.pow_le_mono_r; lia). lia. }
    assert (Hps : 0 < 2 ^ s) by (apply Z.pow_pos_nonneg; lia).
    assert (Hsj : 2 ^ s <= 2 ^ (j - 24)) by (apply Z.pow_le_mono_r; lia).
    pose proof (Z.div_mod (Z.pos p) (2 ^ s) ltac:(lia)) as Hdm'.
    pose proof (Z.mod_pos_bound (Z.pos p) (2 ^ s) ltac:(lia)) as Hmb.
    set (q := Z.pos p / 2 ^ s) in *. set (rem := Z.pos p mod 2 ^ s) in *.
    nia.
Qed.

End LoadTest.

(** ** Arithmetic of the probe sequence *)

Section Probe.

(** [x & (capacity - 1)] is [x mod capacity] on a power-of-two capacity. *)
Lemma mask_mod j x :
  0 <= j <= 31 -> Z.land x (wrap32 (2 ^ j - 1)) = x mod 2 ^ j.
Proof.
  intros Hj. pose proof (pow2_range j Hj).
  rewrite wrap32_small by lia.
  replace (2 ^ j - 1) with (Z.ones j) by (rewrite Z.ones_equiv; lia).
  apply Z.land_ones. lia.
Qed.

Lemma offset_succ t : offset (t + 1) = offset t + t.
Proof.
  unfold offset.
  replace ((t + 1) * (t + 1 - 1)) with (t * (t - 1) + t * 2) by lia.
  apply Z.div_add. lia.
Qed.

Lemma offset_double t : 2 * offset t = t * (t - 1).
Proof.
  unfold offset.
  assert (Hev : (t * (t - 1)) mod 2 = 0).
  { rewrite Zmod_even, Z.even_mul, Z.even_sub.
    destruct (Z.even t); reflexivity. }
  pose proof (Z.div_mod (t * (t - 1)) 2 ltac:(lia)). lia.
Qed.

Lemma offset_nonneg t : 0 <= t -> 0 <= offset t.
Proof.
  intros Ht. pose proof (offset_double t).
  destruct (Z.eq_dec t 0) as [->|]; [reflexivity|]. nia.
Qed.

Lemma advance_probe_at j hash t :
  0 <= j <= 31 -> 0 <= t < 2 ^ 33 ->
  advance (2 ^ j) (probe_at (2 ^ j) hash t) t = probe_at (2 ^ j) hash (t + 1).
Proof.
  intros Hj Ht. pose proof (pow2_range j Hj). unfold advance, probe_at.
  pose proof (Z.mod_pos_bound (hash + offset t) (2 ^ j) ltac:(lia)).
  rewrite mask_mod by assumption.
  rewrite wrap_size_small by lia.
  rewrite offset_succ, Z.add_assoc.
  rewrite Zplus_mod_idemp_l. reflexivity.
Qed.

Lemma home_probe_at j hash :
  0 <= j <= 31 -> Z.land hash (wrap32 (2 ^ j - 1)) = probe_at (2 ^ j) hash 0.
Proof.
  intros Hj. rewrite mask_mod by assumption. unfold probe_at, offset.
  change (0 * (0 - 1) / 2) with 0. rewrite Z.add_0_r. reflexivity.
Qed.

(** An odd factor does not help a product to be divisible by [2 ^ n]. *)
Lemma pow2_divide_odd n x y :
  0 <= n -> Z.odd x = true -> (2 ^ n | x * y) -> (2 ^ n | y).
Proof.
  intros Hn Hodd. revert y. pattern n. apply natlike_ind; [| |exact Hn].
  - intros y _. rewrite Z.pow_0_r. apply Z.divide_1_l.
  - clear n Hn. intros n Hn IH y Hdiv.
    rewrite Z.pow_succ_r in * by assumption.
    assert (Hy : (2 ^ n | y)).
    { apply IH. destruct Hdiv as [q Hq]. exists (q * 2). lia. }
    destruct Hy as [y' ->]. destruct Hdiv as [q Hq].
    assert (Hpos : 0 < 2 ^ n) by (apply Z.pow_pos_nonneg; lia).
    assert (Hxy : x * y' = 2 * q) by nia.
    assert (Hev : Z.even (x * y') = true)
      by (rewrite Hxy, Z.even_mul; reflexivity).
    rewrite Z.even_mul in Hev. rewrite <- Z.negb_odd, Hodd in Hev.
    simpl in Hev. apply Z.even_spec in Hev. destruct Hev as [y'' ->].
    exists y''. lia.
Qed.

(** Two iterations between 1 and the capacity examine different slots. *)
Lemma probe_at_inj j hash a b :
  0 <= j <= 31 -> 1 <= a -> a < b -> b <= 2 ^ j ->
  probe_at (2 ^ j) hash a <> probe_at (2 ^ j) hash b.
Proof.
  intros Hj Ha Hab Hb Heq. pose proof (pow2_range j Hj) as Hr.
  unfold probe_at in Heq.
  assert (Hdiv : (2 ^ j | offset b - offset a)).
  { apply Z.mod_divide; [lia|].
    replace (offset b - offset a) with ((hash + offset b) - (hash + offset a)) by lia.
    rewrite Zminus_mod, Heq, Z.sub_diag. apply Z.mod_0_l. lia. }
  assert (Hdiv2 : (2 ^ (j + 1) | (b - a) * (a + b - 1))).
  { destruct Hdiv as [q Hq]. exists q.
    pose proof (offset_double a). pose proof (offset_double b).
    rewrite Z.pow_add_r by lia. nia. }
  assert (Hp : 2 ^ (j + 1) = 2 * 2 ^ j) by (rewrite Z.pow_add_r by lia; lia).
  destruct (Z.odd (b - a)) eqn:Hodd.
  - apply pow2_divide_odd in Hdiv2; [|lia|assumption].
    apply Z.divide_pos_le in Hdiv2; lia.
  - assert (Hodd' : Z.odd (a + b - 1) = true).
    { replace (a + b - 1) with ((b - a) + (2 * a - 1)) by lia.
      rewrite Z.odd_add, Hodd.
      replace (2 * a - 1) with (1 + 2 * (a - 1)) by lia.
      rewrite Z.odd_add_mul_2. reflexivity. }
    rewrite Z.mul_comm in Hdiv2.
    apply pow2_divide_odd in Hdiv2; [|lia|assumption].
    apply Z.divide_pos_le in Hdiv2; lia.
Qed.

(** The slots examined at iterations [1 .. capacity]. *)
Lemma probe_round_NoDup j hash :
  0 <= j <= 31 -> NoDup (probe_at (2 ^ j) hash <$> seqZ 1 (2 ^ j)).
Proof.
  intros Hj. apply NoDup_fmap_2_strong; [|apply NoDup_seqZ].
  intros a b Ha Hb Heq. apply elem_of_seqZ in Ha, Hb.
  destruct (Z.lt_trichotomy a b) as [Hlt|[Heq'|Hgt]]; [|assumption|].
  - exfalso. apply (probe_at_inj j hash a b); lia.
  - exfalso. symmetry in Heq. apply (probe_at_inj j hash b a); lia.
Qed.

(** Every slot of the table is examined at one of the iterations
    [1 .. capacity]. *)
Lemma probe_round_covers j hash s :
  0 <= j <= 31 -> 0 <= s < 2 ^ j ->
  exists t, 1 <= t <= 2 ^ j /\ probe_at (2 ^ j) hash t = s.
Proof.
  intros Hj Hs. pose proof (pow2_range j Hj) as Hr.
  assert (Hin : s ∈ probe_at (2 ^ j) hash <$> seqZ 1 (2 ^ j)).
  { apply list_elem_of_In.
    apply (NoDup_length_incl (l := probe_at (2 ^ j) hash <$> seqZ 1 (2 ^ j))
                             (l' := seqZ 0 (2 ^ j))).
    - apply NoDup_ListNoDup, probe_round_NoDup. assumption.
    - rewrite length_fmap, !length_seqZ. lia.
    - intros x Hx. apply list_elem_of_In in Hx. apply list_elem_of_In.
      apply list_elem_of_fmap in Hx. destruct Hx as (t & -> & _).
      apply elem_of_seqZ. unfold probe_at.
      pose proof (Z.mod_pos_bound (hash + offset t) (2 ^ j) ltac:(lia)). lia.
    - apply list_elem_of_In, elem_of_seqZ. lia. }
  apply list_elem_of_fmap in Hin. destruct Hin as (t & Ht & Hin).
  apply elem_of_seqZ in Hin. exists t. split; [lia|]. symmetry. exact Ht.
Qed.

(** The probe sequence of the loop in closed form. *)
Lemma probe_indices_closed j hash n t :
  0 <= j <= 31 -> 0 <= t -> t + Z.of_nat n < 2 ^ 33 ->
  probe_indices n (2 ^ j) (probe_at (2 ^ j) hash t) t
  = probe_at (2 ^ j) hash <$> seqZ t (Z.of_nat n).
Proof.
  intros Hj. revert t. induction n as [|n IH]; intros t Ht Hn.
  - reflexivity.
  - cbn [probe_indices].
    rewrite advance_probe_at by lia. rewrite wrap_size_small by lia.
    rewrite IH by lia.
    replace (Z.of_nat (S n)) with (Z.succ (Z.of_nat n)) by lia.
    rewrite (seqZ_cons t) by lia. rewrite Z.pred_succ.
    replace (Z.succ t) with (t + 1) by lia. reflexivity.
Qed.

End Probe.

(** ** The probe loop on a table *)

Section FindSlot.
Context {k v : Type} `{KL : KeyLaws k} `{VT : ValueType v}.
Implicit Types (m : @map k v) (key : k) (e : @Entry k v).

Lemma bind_Done {A B} (x : outcome A) (f : A -> outcome B) b :
  bind x f = Done b -> exists a, x = Done a /\ f a = Done b.
Proof. destruct x; simpl; intros Hb; [eauto|discriminate..]. Qed.

Lemma entry_at_Done m index e :
  entry_at m index = Done e <-> entries m !! Z.to_nat index = Some e.
Proof.
  unfold entry_at. destruct (entries m !! Z.to_nat index); split; congruence.
Qed.

Lemma stops_false e key :
  stops e key = false <-> state e = 1 /\ first (data e) <> key.
Proof.
  unfold stops. rewrite orb_false_iff, negb_false_iff, Z.eqb_eq.
  split; intros [Hs Hk]; (split; [assumption|]).
  - intros Heq. apply key_eqb_eq in Heq. congruence.
  - destruct (key_eqb (first (data e)) key) eqn:E; [|reflexivity].
    apply key_eqb_eq in E. contradiction.
Qed.

Lemma stops_true e key :
  stops e key = true <-> state e <> 1 \/ first (data e) = key.
Proof.
  unfold stops. rewrite orb_true_iff, negb_true_iff, Z.eqb_neq, key_eqb_eq.
  reflexivity.
Qed.

Lemma find_slot_loop_fuel_mono fuel fuel' m key index i r :
  find_slot_loop fuel m key index i = Done r -> (fuel <= fuel')%nat ->
  find_slot_loop fuel' m key index i = Done r.
Proof.
  revert fuel' index i. induction fuel as [|fuel IH]; intros fuel' index i Hr Hle.
  - discriminate.
  - destruct fuel' as [|fuel']; [lia|]. cbn [find_slot_loop] in *.
    destruct (entry_at m index) as [e| |]; simpl in *; try discriminate.
    destruct (stops e key); [assumption|].
    apply IH; [assumption|lia].
Qed.

Lemma find_slot_fuel_mono fuel fuel' m key r :
  find_slot fuel m key = Done r -> (fuel <= fuel')%nat ->
  find_slot fuel' m key = Done r.
Proof. apply find_slot_loop_fuel_mono. Qed.

(** The slot the loop returns ends the search and lies in the table. *)
Lemma find_slot_loop_stops fuel m key index i r :
  find_slot_loop fuel m key index i = Done r ->
  exists e, entries m !! Z.to_nat r = Some e /\ stops e key = true.
Proof.
  revert index i. induction fuel as [|fuel IH]; intros index i Hr.
  - discriminate.
  - cbn [find_slot_loop] in Hr. apply bind_Done in Hr.
    destruct Hr as (e & He & Hr). apply entry_at_Done in He.
    destruct (stops e key) eqn:Hs.
    + injection Hr as <-. eauto.
    + eapply IH. exact Hr.
Qed.

(** If a slot that ends the search is [n] iterations ahead, the loop
    returns with more than [n] units of fuel. *)
Lemma find_slot_loop_reaches j m key hash (n : nat) t fuel :
  0 <= j <= 31 -> capacity m = 2 ^ j ->
  Z.of_nat (length (entries m)) = capacity m ->
  0 <= t -> t + Z.of_nat n < 2 ^ 33 ->
  (exists e, entries m !! Z.to_nat (probe_at (2 ^ j) hash (t + Z.of_nat n)) = Some e
             /\ stops e key = true) ->
  (n < fuel)%nat ->
  exists r, find_slot_loop fuel m key (probe_at (2 ^ j) hash t) t = Done r
            /\ 0 <= r < 2 ^ j.
Proof.
  intros Hj Hcap Hlen. pose proof (pow2_range j Hj) as Hr.
  revert t fuel. induction n as [|n IH]; intros t fuel Ht Hn Hstop Hfuel.
  - destruct fuel as [|fuel]; [lia|]. cbn [find_slot_loop].
    destruct Hstop as (e & He & Hs). rewrite Z.add_0_r in He.
    unfold entry_at. rewrite He. simpl. rewrite Hs.
    eexists. split; [reflexivity|]. unfold probe_at. apply Z.mod_pos_bound. lia.
  - destruct fuel as [|fuel]; [lia|]. cbn [find_slot_loop].
    assert (Hb : 0 <= probe_at (2 ^ j) hash t < 2 ^ j)
      by (unfold probe_at; apply Z.mod_pos_bound; lia).
    destruct (lookup_lt_is_Some_2 (entries m) (Z.to_nat (probe_at (2 ^ j) hash t)))
      as [e He]; [lia|].
    unfold entry_at. rewrite He. simpl.
    destruct (stops e key) eqn:Hs.
    + eexists. split; [reflexivity|assumption].
    + rewrite Hcap, advance_probe_at by lia. rewrite wrap_size_small by lia.
      apply IH; [lia|lia| |lia].
      replace (t + 1 + Z.of_nat n) with (t + Z.of_nat (S n)) by lia. exact Hstop.
Qed.

(** [find_slot] returns on a power-of-two table with a slot that is not
    occupied, given more fuel than the capacity. *)
Lemma find_slot_returns j m key fuel s e :
  0 <= j <= 31 -> capacity m = 2 ^ j ->
  Z.of_nat (length (entries m)) = capacity m ->
  entries m !! s = Some e -> stops e key = true ->
  (Z.to_nat (capacity m) < fuel)%nat ->
  exists r, find_slot fuel m key = Done r /\ 0 <= r < capacity m.
Proof.
  intros Hj Hcap Hlen Hs Hstop Hfuel. pose proof (pow2_range j Hj) as Hr.
  assert (Hsb : 0 <= Z.of_nat s < 2 ^ j) by (apply lookup_lt_Some in Hs; lia).
  destruct (probe_round_covers j (hash_fn key) (Z.of_nat s) Hj Hsb) as (t & Ht & Hp).
  unfold find_slot, home_slot. rewrite Hcap, home_probe_at by assumption.
  destruct (find_slot_loop_reaches j m key (hash_fn key) (Z.to_nat t) 0 fuel)
    as (r & Hfind & Hrb); try assumption; try lia.
  - exists e. rewrite Z.add_0_l, Z2Nat.id, Hp, Nat2Z.id by lia. split; assumption.
  - exists r. split; [assumption|lia].
Qed.

(** The search for [key] takes the same course in a table that keeps the
    slots that do not end it and still ends it at the slot returned. *)
Lemma find_slot_loop_stable fuel m m' key index i r :
  capacity m' = capacity m ->
  (forall p e, entries m !! p = Some e -> stops e key = false ->
               exists e', entries m' !! p = Some e' /\ stops e' key = false) ->
  (exists e', entries m' !! Z.to_nat r = Some e' /\ stops e' key = true) ->
  find_slot_loop fuel m key index i = Done r ->
  find_slot_loop fuel m' key index i = Done r.
Proof.
  intros Hcap Hkeep Hend. revert index i.
  induction fuel as [|fuel IH]; intros index i Hr; [discriminate|].
  cbn [find_slot_loop] in *. apply bind_Done in Hr.
  destruct Hr as (e & He & Hr). apply entry_at_Done in He.
  destruct (stops e key) eqn:Hs.
  - injection Hr as <-. destruct Hend as (e' & He' & Hs').
    unfold entry_at. rewrite He'. simpl. rewrite Hs'. reflexivity.
  - destruct (Hkeep _ _ He Hs) as (e' & He' & Hs').
    unfold entry_at. rewrite He'. simpl. rewrite Hs', Hcap. apply IH. exact Hr.
Qed.

Lemma find_slot_stable fuel m m' key r :
  capacity m' = capacity m ->
  (forall p e, entries m !! p = Some e -> stops e key = false ->
               exists e', entries m' !! p = Some e' /\ stops e' key = false) ->
  (exists e', entries m' !! Z.to_nat r = Some e' /\ stops e' key = true) ->
  find_slot fuel m key = Done r ->
  find_slot fuel m' key = Done r.
Proof.
  intros Hcap Hkeep Hend Hr. unfold find_slot, home_slot in *. rewrite Hcap.
  eapply find_slot_loop_stable; eassumption.
Qed.

End FindSlot.

(** ** What a table holds *)

Section Contents.
Context {k v : Type} `{KL : KeyLaws k} `{VT : ValueType v}.
Implicit Types (m : @map k v) (key : k) (e : @Entry k v) (es : list (@Entry k v)).

Lemma elem_of_contents_of es key value :
  (key, value) ∈ contents_of es <->
  exists p e, es !! p = Some e /\ state e = 1 /\
              first (data e) = key /\ second (data e) = value.
Proof.
  unfold contents_of. rewrite list_elem_of_fmap. split.
  - intros (e & Heq & Hin). injection Heq as -> ->.
    apply list_elem_of_In, filter_In in Hin. destruct Hin as [Hin Hs].
    apply list_elem_of_In, list_elem_of_lookup in Hin. destruct Hin as [p Hp].
    exists p, e. rewrite Z.eqb_eq in Hs. auto.
  - intros (p & e & Hp & Hs & <- & <-). exists e. split; [reflexivity|].
    apply list_elem_of_In, filter_In. split.
    + apply list_elem_of_In, list_elem_of_lookup. eauto.
    + apply Z.eqb_eq. assumption.
Qed.

Lemma elem_of_contents m key value :
  (key, value) ∈ contents m <-> holds m key value.
Proof. apply elem_of_contents_of. Qed.

Lemma contents_of_app es1 es2 :
  contents_of (es1 ++ es2) = contents_of es1 ++ contents_of es2.
Proof. unfold contents_of. rewrite filter_app, fmap_app. reflexivity. Qed.

Lemma length_contents_of_le es : (length (contents_of es) <= length es)%nat.
Proof. unfold contents_of. rewrite length_fmap. apply filter_length_le. Qed.

(** Overwriting a slot changes the number of occupied slots by what the
    old and the new entry count for. *)
Lemma length_contents_of_insert es i e e' :
  es !! i = Some e ->
  Z.of_nat (length (contents_of (<[i:=e']> es)))
  = Z.of_nat (length (contents_of es))
    - Z.b2z (state e =? 1) + Z.b2z (state e' =? 1).
Proof.
  intros He. rewrite insert_take_drop by (eapply lookup_lt_Some; eassumption).
  assert (Hes : contents_of es = contents_of (take i es ++ [e] ++ drop (S i) es))
    by (simpl; rewrite take_drop_middle by assumption; reflexivity).
  rewrite Hes. change (e' :: drop (S i) es) with ([e'] ++ drop (S i) es).
  rewrite !contents_of_app, !length_app.
  assert (Hone : forall x : @Entry k v,
             Z.of_nat (length (contents_of [x])) = Z.b2z (state x =? 1)).
  { intros x. unfold contents_of. cbn [List.filter].
    destruct (state x =? 1); reflexivity. }
  pose proof (Hone e). pose proof (Hone e'). lia.
Qed.

(** A table with fewer occupied slots than slots has a slot that is not
    occupied. *)
Lemma free_slot es :
  (length (contents_of es) < length es)%nat ->
  exists p e, es !! p = Some e /\ state e <> 1.
Proof.
  induction es as [|e es IH]; intros Hlt; [simpl in Hlt; lia|].
  destruct (Z.eq_dec (state e) 1) as [Hs|Hs].
  - destruct IH as (p & e' & Hp & Hs').
    + change (e :: es) with ([e] ++ es) in Hlt.
      rewrite contents_of_app, !length_app in Hlt.
      unfold contents_of at 1 in Hlt. cbn [List.filter] in Hlt.
      apply Z.eqb_eq in Hs. rewrite Hs in Hlt. simpl in Hlt. lia.
    + exists (S p), e'. auto.
  - exists 0%nat, e. auto.
Qed.

(** Keys stored once make the list of stored keys duplicate-free. *)
Lemma contents_of_NoDup es :
  (forall p q e1 e2, es !! p = Some e1 -> es !! q = Some e2 ->
     state e1 = 1 -> state e2 = 1 -> first (data e1) = first (data e2) -> p = q) ->
  NoDup (contents_of es).*1.
Proof.
  induction es as [|e es IH]; intros Huniq.
  - constructor.
  - unfold contents_of in *. cbn [List.filter].
    assert (Htail : NoDup ((fun e => (first (data e), second (data e)))
                             <$> List.filter (fun e => state e =? 1) es).*1).
    { apply IH. intros p q e1 e2 Hp Hq H1 H2 Hk.
      assert (S p = S q) by (eapply Huniq; eauto). lia. }
    destruct (state e =? 1) eqn:Hs; [|exact Htail].
    rewrite !fmap_cons. constructor; [|exact Htail].
    intros Hin. apply list_elem_of_fmap in Hin. destruct Hin as ([key value] & Hk & Hin).
    simpl in Hk. apply elem_of_contents_of in Hin.
    destruct Hin as (q & e2 & Hq & Hs2 & Hk2 & _).
    apply Z.eqb_eq in Hs.
    assert (0%nat = S q) by (eapply (Huniq 0%nat (S q) e e2); eauto; congruence).
    lia.
Qed.

End Contents.

(** ** The representation invariant *)

Section Invariant.
Context {k v : Type} `{KL : KeyLaws k} `{VT : ValueType v}.
Implicit Types (m : @map k v) (key : k) (e : @Entry k v).

Lemma wf_in_range m p e :
  wf m -> entries m !! p = Some e -> 0 <= Z.of_nat p < capacity m.
Proof.
  intros Hwf Hp. apply lookup_lt_Some in Hp.
  pose proof (wf_length m Hwf). lia.
Qed.

Lemma wf_size_lt_capacity m : wf m -> 0 <= m_size m < capacity m.
Proof.
  intros Hwf. pose proof (wf_load m Hwf). pose proof (wf_size m Hwf). lia.
Qed.

Lemma wf_free_slot m :
  wf m -> exists p e, entries m !! p = Some e /\ state e <> 1.
Proof.
  intros Hwf. apply free_slot.
  pose proof (wf_size_lt_capacity m Hwf). pose proof (wf_size m Hwf).
  pose proof (wf_length m Hwf). unfold contents in *. lia.
Qed.

Lemma wf_find_slot_returns m key fuel :
  wf m -> (Z.to_nat (capacity m) < fuel)%nat ->
  exists r e, find_slot fuel m key = Done r /\
              entries m !! Z.to_nat r = Some e /\ stops e key = true /\
              0 <= r < capacity m.
Proof.
  intros Hwf Hfuel. destruct (wf_capacity m Hwf) as (j & Hj & Hcap).
  destruct (wf_free_slot m Hwf) as (s & e & Hs & Hfree).
  destruct (find_slot_returns j m key fuel s e) as (r & Hr & Hrb);
    try assumption.
  - apply wf_length. assumption.
  - apply stops_true. left. assumption.
  - destruct (find_slot_loop_stops _ _ _ _ _ _ Hr) as (e' & He' & Hs').
    exists r, e'. auto.
Qed.

(** A stored key is found in its slot. *)
Lemma wf_find_present m p e fuel :
  wf m -> entries m !! p = Some e -> state e = 1 ->
  (Z.to_nat (capacity m) < fuel)%nat ->
  find_slot fuel m (first (data e)) = Done (Z.of_nat p).
Proof.
  intros Hwf Hp Hs Hfuel.
  destruct (wf_probe m Hwf p e Hp Hs) as [fuel0 Hfind0].
  destruct (wf_find_slot_returns m (first (data e)) fuel Hwf Hfuel)
    as (r & e' & Hfind & _).
  pose proof (find_slot_fuel_mono _ (Nat.max fuel fuel0) _ _ _ Hfind0 ltac:(lia)) as H1.
  pose proof (find_slot_fuel_mono _ (Nat.max fuel fuel0) _ _ _ Hfind ltac:(lia)) as H2.
  rewrite Hfind. congruence.
Qed.

Lemma wf_keys_unique m p q e1 e2 :
  wf m -> entries m !! p = Some e1 -> entries m !! q = Some e2 ->
  state e1 = 1 -> state e2 = 1 -> first (data e1) = first (data e2) -> p = q.
Proof.
  intros Hwf Hp Hq H1 H2 Hk.
  pose proof (wf_find_present m p e1 (S (Z.to_nat (capacity m))) Hwf Hp H1 ltac:(lia)) as F1.
  pose proof (wf_find_present m q e2 (S (Z.to_nat (capacity m))) Hwf Hq H2 ltac:(lia)) as F2.
  rewrite Hk in F1. rewrite F1 in F2. injection F2. lia.
Qed.

Lemma wf_contents_NoDup m : wf m -> NoDup (contents m).*1.
Proof.
  intros Hwf. apply contents_of_NoDup. intros p q e1 e2.
  apply wf_keys_unique. assumption.
Qed.


(** A key that is not stored resolves to a slot that is not occupied. *)
Lemma wf_find_absent m key fuel :
  wf m -> ~ present m key -> (Z.to_nat (capacity m) < fuel)%nat ->
  exists r e, find_slot fuel m key = Done r /\
              entries m !! Z.to_nat r = Some e /\ state e <> 1 /\
              0 <= r < capacity m.
Proof.
  intros Hwf Habs Hfuel.
  destruct (wf_find_slot_returns m key fuel Hwf Hfuel) as (r & e & Hr & He & Hs & Hb).
  exists r, e. repeat split; try assumption; try lia.
  intros Hocc. apply stops_true in Hs. destruct Hs as [Hs|Hs]; [contradiction|].
  apply Habs. exists (second (data e)), (Z.to_nat r), e. auto.
Qed.

(** The sizes of two well-formed tables that hold the same pairs agree. *)
Lemma same_holds_same_size m m' :
  wf m -> wf m' -> (forall key value, holds m' key value <-> holds m key value) ->
  m_size m' = m_size m.
Proof.
  intros Hwf Hwf' Hsame.
  rewrite (wf_size m Hwf), (wf_size m' Hwf'). f_equal.
  apply Permutation_length, NoDup_Permutation.
  - eapply NoDup_fmap_1, wf_contents_NoDup. assumption.
  - eapply NoDup_fmap_1, wf_contents_NoDup. assumption.
  - intros [key value]. rewrite !elem_of_contents. apply Hsame.
Qed.

Lemma new_entries_lookup (c : Z) p (e : @Entry k v) :
  new_entries c !! p = Some e -> e = Entry_new.
Proof.
  unfold new_entries. intros Hp. apply lookup_replicate in Hp. tauto.
Qed.

Lemma contents_new_entries (c : Z) : contents_of (@new_entries k v _ _ c) = [].
Proof.
  unfold new_entries. induction (Z.to_nat c) as [|n IH]; [reflexivity|].
  simpl. exact IH.
Qed.

(** An empty table of power-of-two capacity is well formed. *)
Lemma wf_empty_table j :
  0 <= j <= 31 ->
  wf {| entries := @new_entries k v _ _ (2 ^ j); capacity := 2 ^ j; m_size := 0 |}.
Proof.
  intros Hj. pose proof (pow2_range j Hj). constructor; simpl.
  - eauto.
  - unfold new_entries. rewrite length_replicate. lia.
  - unfold contents. simpl. rewrite contents_new_entries. reflexivity.
  - lia.
  - intros p e Hp Hs. apply new_entries_lookup in Hp. subst e. discriminate.
Qed.

Lemma holds_empty_table c n key value :
  ~ holds {| entries := @new_entries k v _ _ c; capacity := n; m_size := 0 |} key value.
Proof.
  intros (p & e & Hp & Hs & _). simpl in Hp.
  apply new_entries_lookup in Hp. subst e. discriminate.
Qed.

Lemma wf_map_new j : 0 <= j <= 31 -> wf (@map_new k v _ _ (2 ^ j)).
Proof.
  intros Hj. pose proof (pow2_range j Hj). unfold map_new.
  rewrite wrap32_small by lia. apply wf_empty_table. assumption.
Qed.

(** Writing a key into the slot [find_slot] resolved it to, when that slot
    is not occupied, keeps the invariant. *)
Lemma wf_insert m key fuel r e :
  wf m -> find_slot fuel m key = Done r -> 0 <= r ->
  entries m !! Z.to_nat r = Some e -> state e <> 1 ->
  m_size m + 1 < capacity m ->
  wf {| entries := <[Z.to_nat r := Entry_insert key value_default]> (entries m);
        capacity := capacity m;
        m_size := wrap32 (m_size m + 1) |}.
Proof.
  intros Hwf Hfind Hr0 He Hfree Hload.
  destruct (wf_capacity m Hwf) as (j & Hj & Hcap). pose proof (pow2_range j Hj).
  pose proof (wf_size_lt_capacity m Hwf) as Hsz.
  assert (Hw : wrap32 (m_size m + 1) = m_size m + 1) by (apply wrap32_small; lia).
  constructor; simpl.
  - eauto.
  - rewrite length_insert. apply wf_length. assumption.
  - rewrite Hw. unfold contents. simpl.
    rewrite (length_contents_of_insert _ _ e) by assumption.
    rewrite (wf_size m Hwf). unfold contents. simpl.
    destruct (Z.eqb_spec (state e) 1); [contradiction|]. simpl. lia.
  - rewrite Hw. assumption.
  - intros p e' Hp Hs.
    destruct (Nat.eq_dec (Z.to_nat r) p) as [<-|Hne].
    + rewrite list_lookup_insert_eq in Hp by (eapply lookup_lt_Some; eassumption).
      injection Hp as <-. simpl. exists fuel. rewrite Z2Nat.id by assumption.
      eapply (find_slot_stable fuel m); [reflexivity| | |exact Hfind]; simpl.
      * intros q e' Hq Hns. exists e'. split; [|assumption].
        rewrite list_lookup_insert_ne; [assumption|].
        intros <-. apply stops_false in Hns. destruct Hns. congruence.
      * eexists. split.
        -- apply list_lookup_insert_eq. eapply lookup_lt_Some; eassumption.
        -- apply stops_true. right. reflexivity.
    + rewrite list_lookup_insert_ne in Hp by assumption.
      destruct (wf_probe m Hwf p e' Hp Hs) as [fuel' Hfind'].
      exists fuel'.
      eapply (find_slot_stable fuel' m); [reflexivity| | |exact Hfind']; simpl.
      * intros q e'' Hq Hns. exists e''. split; [|assumption].
        rewrite list_lookup_insert_ne; [assumption|].
        intros <-. apply stops_false in Hns. destruct Hns. congruence.
      * exists e'. rewrite Nat2Z.id. split.
        -- rewrite list_lookup_insert_ne; assumption.
        -- apply stops_true. right. reflexivity.
Qed.

Lemma holds_insert m key r e key' value' :
  entries m !! Z.to_nat r = Some e -> state e <> 1 ->
  holds {| entries := <[Z.to_nat r := Entry_insert key value_default]> (entries m);
           capacity := capacity m;
           m_size := wrap32 (m_size m + 1) |} key' value'
  <-> holds m key' value' \/ (key' = key /\ value' = value_default).
Proof.
  intros He Hfree. unfold holds. simpl. split.
  - intros (p & e' & Hp & Hs & Hk & Hv).
    destruct (Nat.eq_dec (Z.to_nat r) p) as [<-|Hne].
    + rewrite list_lookup_insert_eq in Hp by (eapply lookup_lt_Some; eassumption).
      injection Hp as <-. simpl in *. right. auto.
    + rewrite list_lookup_insert_ne in Hp by assumption. left. eauto 10.
  - intros [(p & e' & Hp & Hs & Hk & Hv)|[-> ->]].
    + exists p, e'. repeat split; try assumption.
      rewrite list_lookup_insert_ne; [assumption|]. intros <-. congruence.
    + exists (Z.to_nat r), (Entry_insert key value_default).
      repeat split. apply list_lookup_insert_eq.
      eapply lookup_lt_Some; eassumption.
Qed.

(** Writing a value through a reference to an occupied slot. *)
Lemma store_value_Done m index e value :
  entries m !! Z.to_nat index = Some e ->
  store_value m index value
  = Done {| entries :=
              <[Z.to_nat index :=
                  {| state := state e;
                     data := {| first := first (data e); second := value |} |}]>
                (entries m);
            capacity := capacity m;
            m_size := m_size m |}.
Proof. intros He. unfold store_value, entry_at. rewrite He. reflexivity. Qed.

Lemma wf_store_value m index e value m' :
  wf m -> entries m !! Z.to_nat index = Some e -> state e = 1 ->
  store_value m index value = Done m' ->
  wf m' /\ capacity m' = capacity m /\ m_size m' = m_size m /\
  (forall key' value', holds m' key' value' <->
     (key' <> first (data e) /\ holds m key' value') \/
     (key' = first (data e) /\ value' = value)).
Proof.
  intros Hwf He Hs Hst. rewrite (store_value_Done m index e value He) in Hst.
  injection Hst as <-. simpl.
  assert (Hlt : (Z.to_nat index < length (entries m))%nat)
    by (eapply lookup_lt_Some; eassumption).
  assert (Hkeep : forall key p e1, entries m !! p = Some e1 ->
            exists e2,
              <[Z.to_nat index :=
                  {| state := state e;
                     data := {| first := first (data e); second := value |} |}]>
                (entries m) !! p = Some e2
              /\ state e2 = state e1 /\ first (data e2) = first (data e1)
              /\ stops e2 key = stops e1 key).
  { intros key p e1 Hp. destruct (Nat.eq_dec (Z.to_nat index) p) as [<-|Hne].
    - rewrite list_lookup_insert_eq by assumption.
      eexists. split; [reflexivity|]. simpl.
      assert (e1 = e) by congruence. subst e1. auto.
    - rewrite list_lookup_insert_ne by assumption. eauto. }
  split; [|split; [reflexivity|split; [reflexivity|]]].
  - constructor; simpl.
    + apply wf_capacity. assumption.
    + rewrite length_insert. apply wf_length. assumption.
    + unfold contents. simpl.
      rewrite (length_contents_of_insert _ _ e) by assumption.
      simpl. rewrite (wf_size m Hwf). unfold contents. lia.
    + apply wf_load. assumption.
    + intros p e2 Hp Hs2.
      assert (exists e1, entries m !! p = Some e1 /\ state e1 = 1 /\
                         first (data e1) = first (data e2)) as (e1 & Hp1 & Hs1 & Hk1).
      { destruct (Nat.eq_dec (Z.to_nat index) p) as [<-|Hne].
        - rewrite list_lookup_insert_eq in Hp by assumption.
          injection Hp as <-. simpl. eauto.
        - rewrite list_lookup_insert_ne in Hp by assumption. eauto. }
      destruct (wf_probe m Hwf p e1 Hp1 Hs1) as [fuel Hfind].
      exists fuel. rewrite <- Hk1.
      eapply (find_slot_stable fuel m); [reflexivity| | |exact Hfind]; simpl.
      * intros q e3 Hq Hns.
        destruct (Hkeep (first (data e1)) q e3 Hq) as (e4 & Hq4 & _ & _ & Hst4).
        exists e4. split; [assumption|congruence].
      * rewrite Nat2Z.id.
        destruct (Hkeep (first (data e1)) p e1 Hp1) as (e4 & Hq4 & _ & _ & Hst4).
        exists e4. split; [assumption|]. rewrite Hst4.
        apply stops_true. right. reflexivity.
  - intros key' value'. unfold holds. simpl. split.
    + intros (p & e2 & Hp & Hs2 & Hk & Hv).
      destruct (Nat.eq_dec (Z.to_nat index) p) as [<-|Hne].
      * rewrite list_lookup_insert_eq in Hp by assumption.
        injection Hp as <-. simpl in *. right. auto.
      * rewrite list_lookup_insert_ne in Hp by assumption.
        left. split; [|eauto 10].
        intros ->. apply Hne.
        eapply (wf_keys_unique m); eauto.
    + intros [[Hne (p & e2 & Hp & Hs2 & Hk & Hv)]|[-> ->]].
      * exists p, e2. repeat split; try assumption.
        rewrite list_lookup_insert_ne; [assumption|]. intros <-. congruence.
      * eexists (Z.to_nat index), _. split.
        -- apply list_lookup_insert_eq. assumption.
        -- simpl. auto.
Qed.

End Invariant.

(** ** [operator[]] and [grow] *)

Section Insertion.
Context {k v : Type} `{KL : KeyLaws k} `{VT : ValueType v}.
Implicit Types (m : @map k v) (key : k) (e : @Entry k v).

Lemma index_or_insert_unfold fuel m key :
  index_or_insert (S fuel) m key
  = let* m1 := (if load_exceeded (m_size m) (capacity m)
                then grow fuel m else Done m) in
    settle fuel m1 key.
Proof. reflexivity. Qed.

(** A stored key: the map is returned as it is, with the slot of the key. *)
Lemma settle_present m key fuel p e :
  wf m -> entries m !! p = Some e -> state e = 1 -> first (data e) = key ->
  (Z.to_nat (capacity m) < fuel)%nat ->
  settle fuel m key = Done (m, Z.of_nat p).
Proof.
  intros Hwf Hp Hs Hk Hfuel. subst key. unfold settle.
  rewrite (wf_find_present m p e fuel Hwf Hp Hs Hfuel). simpl.
  unfold entry_at. rewrite Nat2Z.id, Hp. simpl.
  apply Z.eqb_eq in Hs. rewrite Hs. reflexivity.
Qed.

Lemma settle_spec m key fuel :
  wf m -> m_size m + 1 < capacity m ->
  (Z.to_nat (capacity m) < fuel)%nat ->
  exists m' index,
    settle fuel m key = Done (m', index) /\ index_post m key m' index /\
    capacity m' = capacity m.
Proof.
  intros Hwf Hload Hfuel. unfold settle.
  destruct (wf_find_slot_returns m key fuel Hwf Hfuel)
    as (r & e & Hfind & He & Hstop & Hr).
  rewrite Hfind. simpl. unfold entry_at. rewrite He. simpl.
  pose proof (wf_size_lt_capacity m Hwf) as Hsz.
  destruct (Z.eqb_spec (state e) 1) as [Hs|Hs]; simpl.
  - apply stops_true in Hstop. destruct Hstop as [Hstop|Hk]; [contradiction|].
    exists m, r. split; [reflexivity|]. split; [|reflexivity].
    split; [assumption|]. split; [lia|]. split; [eauto|]. split; [|lia].
    intros key' value'. split; [auto|]. intros [Hh|(Habs & _)]; [assumption|].
    exfalso. apply Habs. exists (second (data e)), (Z.to_nat r), e. auto.
  - assert (Habs : ~ present m key).
    { intros (value & p & e' & Hp & Hs' & Hk & _). subst key.
      pose proof (wf_find_present m p e' fuel Hwf Hp Hs' Hfuel) as Hfind'.
      rewrite Hfind in Hfind'. injection Hfind' as ->.
      rewrite Nat2Z.id in He. congruence. }
    eexists _, r. split; [reflexivity|]. split; [|reflexivity].
    split; [eapply wf_insert; eauto; lia|]. split; [lia|]. split.
    { eexists. split; [apply list_lookup_insert_eq; eapply lookup_lt_Some; eassumption|].
      simpl. auto. }
    split.
    + intros key' value'. rewrite (holds_insert m key r e) by assumption. tauto.
    + simpl. rewrite wrap32_small; [lia|].
      destruct (wf_capacity m Hwf) as (j & Hj & Hcap).
      pose proof (pow2_range j Hj). lia.
Qed.

Lemma length_contents_of_take (es : list (@Entry k v)) n :
  (length (contents_of (take n es)) <= length (contents_of es))%nat.
Proof.
  rewrite <- (take_drop n es) at 2. rewrite contents_of_app, length_app. lia.
Qed.

Lemma contents_of_take_S (es : list (@Entry k v)) n e :
  es !! n = Some e ->
  contents_of (take (S n) es)
  = contents_of (take n es)
    ++ (if state e =? 1 then [(first (data e), second (data e))] else []).
Proof.
  intros He. rewrite (take_S_r es n e He), contents_of_app. f_equal.
  unfold contents_of. cbn [List.filter]. destruct (state e =? 1); reflexivity.
Qed.

(** The loop of [grow] establishes [rehashed] for the whole old table. *)
Lemma rehash_spec j (old : list (@Entry k v)) fuel :
  0 <= j <= 30 -> Z.of_nat (length old) = 2 ^ j ->
  (forall p q e1 e2, old !! p = Some e1 -> old !! q = Some e2 ->
     state e1 = 1 -> state e2 = 1 -> first (data e1) = first (data e2) -> p = q) ->
  Z.of_nat (length (contents_of old)) < 2 ^ j ->
  (Z.to_nat (2 ^ (j + 1)) + 1 < fuel)%nat ->
  forall (count i : nat) m,
    (i + count)%nat = length old ->
    rehashed old (2 ^ (j + 1)) i m ->
    exists m',
      rehash (index_or_insert fuel) old count (Z.of_nat i) m = Done m' /\
      rehashed old (2 ^ (j + 1)) (length old) m'.
Proof.
  intros Hj Hlen Huniq Hload Hfuel.
  assert (Hp2 : 2 ^ (j + 1) = 2 * 2 ^ j) by (rewrite Z.pow_add_r by lia; lia).
  pose proof (pow2_range j ltac:(lia)) as Hr.
  induction count as [|count IH]; intros i m Hi Hinv.
  - exists m. split; [reflexivity|].
    replace (length old) with i by lia. exact Hinv.
  - cbn [rehash]. rewrite Nat2Z.id.
    destruct (lookup_lt_is_Some_2 old i) as [e He]; [lia|]. rewrite He.
    assert (Hw : wrap32 (Z.of_nat i + 1) = Z.of_nat (S i))
      by (rewrite wrap32_small; lia).
    rewrite Hw.
    destruct Hinv as (Hwf & Hcap & Hsize & Hholds).
    pose proof (contents_of_take_S old i e He) as Htake.
    pose proof (length_contents_of_take old (S i)) as Hle.
    destruct (Z.eqb_spec (state e) 1) as [Hs|Hs].
    + rewrite Htake, length_app in Hle. simpl in Hle.
      destruct fuel as [|fuel]; [lia|].
      rewrite index_or_insert_unfold.
      assert (Hnot : load_exceeded (m_size m) (capacity m) = false).
      { pose proof (wf_size_lt_capacity m Hwf).
        rewrite Hcap. apply load_exceeded_low; lia. }
      rewrite Hnot. cbn [bind].
      destruct (settle_spec m (first (data e)) fuel Hwf)
        as (m1 & index & Hset & Hpost & Hcap1); [lia|lia|].
      rewrite Hset. cbn [bind].
      destruct Hpost as (Hwf1 & Hidx & (e1 & He1 & Hs1 & Hk1) & Hholds1 & Hsize1).
      rewrite (store_value_Done m1 index e1 _ He1). cbn [bind].
      destruct (wf_store_value m1 index e1 (second (data e)) _ Hwf1 He1 Hs1
                  (store_value_Done m1 index e1 _ He1))
        as (Hwf2 & Hcap2 & Hsize2 & Hholds2).
      assert (Habs : ~ present m (first (data e))).
      { intros (value & Hh). apply Hholds, elem_of_contents_of in Hh.
        destruct Hh as (p & e' & Hp & Hs' & Hk' & _).
        apply lookup_take_Some in Hp. destruct Hp as [Hp Hlt].
        assert (p = i) by (eapply Huniq; eauto). lia. }
      apply IH; [lia|]. split; [assumption|]. split; [congruence|]. split.
      * rewrite Htake, length_app. simpl. lia.
      * intros key value. rewrite Hholds2, Hholds1, Hholds, Hk1, Htake.
        rewrite elem_of_app, list_elem_of_singleton. split.
        -- intros [[Hne [Hin|(_ & Hk & _)]]|[-> ->]]; auto; contradiction.
        -- intros [Hin|Heq].
           ++ left. split; [|auto]. intros ->. apply Habs.
              exists value. apply Hholds. assumption.
           ++ injection Heq as -> ->. auto.
    + apply IH; [lia|]. split; [assumption|]. split; [assumption|].
      rewrite Htake, app_nil_r. split; assumption.
Qed.

(** [grow] doubles the capacity and keeps every pair. *)
Lemma grow_spec m fuel :
  wf m -> 2 * capacity m < 2 ^ 32 ->
  (Z.to_nat (2 * capacity m) + 1 < fuel)%nat ->
  exists m',
    grow fuel m = Done m' /\ wf m' /\ capacity m' = 2 * capacity m /\
    m_size m' = m_size m /\
    (forall key value, holds m' key value <-> holds m key value).
Proof.
  intros Hwf Hfit Hfuel.
  destruct (wf_capacity m Hwf) as (j & Hj & Hcap).
  assert (Hj30 : j <= 30).
  { destruct (Z.le_gt_cases j 30) as [|Hgt]; [assumption|].
    assert (2 ^ 31 <= 2 ^ j) by (apply Z.pow_le_mono_r; lia). lia. }
  assert (Hp2 : 2 ^ (j + 1) = 2 * 2 ^ j) by (rewrite Z.pow_add_r by lia; lia).
  pose proof (pow2_range j Hj) as Hr.
  pose proof (wf_length m Hwf) as Hlen. pose proof (wf_size m Hwf) as Hsz.
  pose proof (wf_load m Hwf) as Hload. unfold contents in Hsz.
  unfold grow, grow_with.
  replace (wrap32 (capacity m * 2)) with (2 ^ (j + 1))
    by (rewrite wrap32_small; lia).
  destruct (rehash_spec j (entries m) fuel) with
    (count := Z.to_nat (capacity m)) (i := 0%nat)
    (m := {| entries := @new_entries k v _ _ (2 ^ (j + 1));
             capacity := 2 ^ (j + 1); m_size := 0 |})
    as (m' & Hre & Hwf' & Hcap' & Hsize' & Hholds'); try lia.
  - intros p q e1 e2. apply wf_keys_unique. assumption.
  - split; [apply wf_empty_table; lia|]. split; [reflexivity|].
    split; [simpl; lia|]. intros key value. split.
    + intros Hh. exfalso. revert Hh. apply holds_empty_table.
    + simpl. intros Hin. inversion Hin.
  - exists m'. rewrite take_ge in Hholds' by lia.
    assert (Hsame : forall key value, holds m' key value <-> holds m key value).
    { intros key value. rewrite Hholds'. apply elem_of_contents. }
    split; [exact Hre|]. split; [assumption|]. split; [lia|].
    split; [|assumption]. apply same_holds_same_size; assumption.
Qed.

(** [operator[]] returns, given fuel beyond twice the capacity, on a
    well-formed map, unless it has to double a capacity of 2^31. *)
Lemma index_or_insert_spec m key fuel :
  wf m ->
  (load_exceeded (m_size m) (capacity m) = true -> 2 * capacity m < 2 ^ 32) ->
  (Z.to_nat (2 * capacity m) + 2 < fuel)%nat ->
  exists m' index,
    index_or_insert fuel m key = Done (m', index) /\
    index_post m key m' index /\
    (if load_exceeded (m_size m) (capacity m)
     then capacity m' = 2 * capacity m else capacity m' = capacity m).
Proof.
  intros Hwf Hfits Hfuel.
  destruct (wf_capacity m Hwf) as (j & Hj & Hcap). pose proof (pow2_range j Hj) as Hr.
  pose proof (wf_size_lt_capacity m Hwf) as Hsz.
  destruct fuel as [|fuel]; [lia|]. rewrite index_or_insert_unfold.
  destruct (load_exceeded (m_size m) (capacity m)) eqn:Hex.
  - specialize (Hfits eq_refl).
    destruct (grow_spec m fuel Hwf) as (m1 & Hg & Hwf1 & Hcap1 & Hsize1 & Hholds1);
      [lia|lia|].
    rewrite Hg. cbn [bind].
    destruct (settle_spec m1 key fuel Hwf1) as (m' & index & Hset & Hpost & Hcap');
      [lia|lia|].
    exists m', index. split; [exact Hset|]. split; [|congruence].
    destruct Hpost as (Hwf' & Hidx & Hslot & Hholds' & Hsize').
    split; [assumption|]. split; [assumption|]. split; [assumption|].
    split; [|lia].
    intros key' value'. rewrite Hholds', Hholds1.
    assert (Hpres : present m1 key <-> present m key).
    { unfold present. split; intros [value Hh]; exists value; apply Hholds1; assumption. }
    rewrite Hpres. reflexivity.
  - cbn [bind]. rewrite Hcap in Hex. apply load_calm_room in Hex; [|lia..].
    destruct (settle_spec m key fuel Hwf) as (m' & index & Hset & Hpost & Hcap');
      [lia|lia|].
    exists m', index. auto.
Qed.

End Insertion.

(** ** More fuel, same result *)

Section Fuel.
Context {k v : Type} `{KL : KeyLaws k} `{VT : ValueType v}.
Implicit Types (m : @map k v) (key : k) (e : @Entry k v).

Lemma rehash_mono (rec rec' : @map k v -> k -> outcome (@map k v * Z))
      (old : list (@Entry k v)) count i m m' :
  (forall m1 key x, rec m1 key = Done x -> rec' m1 key = Done x) ->
  rehash rec old count i m = Done m' ->
  rehash rec' old count i m = Done m'.
Proof.
  intros Hrec. revert i m. induction count as [|count IH]; intros i m Hre.
  - exact Hre.
  - cbn [rehash] in *. destruct (old !! Z.to_nat i) as [e|]; [|discriminate].
    destruct (state e =? 1); [|apply IH; exact Hre].
    apply bind_Done in Hre. destruct Hre as ([m1 index] & Hrun & Hre).
    rewrite (Hrec _ _ _ Hrun). cbn [bind].
    apply bind_Done in Hre. destruct Hre as (m2 & Hst & Hre).
    rewrite Hst. cbn [bind]. apply IH. exact Hre.
Qed.

Lemma index_or_insert_fuel_mono fuel fuel' m key x :
  index_or_insert fuel m key = Done x -> (fuel <= fuel')%nat ->
  index_or_insert fuel' m key = Done x.
Proof.
  revert fuel' m key x. induction fuel as [|fuel IH]; intros fuel' m key x Hx Hle.
  - discriminate.
  - destruct fuel' as [|fuel']; [lia|].
    rewrite index_or_insert_unfold in *.
    apply bind_Done in Hx. destruct Hx as (m1 & Hm1 & Hx).
    assert (Hm1' : (if load_exceeded (m_size m) (capacity m)
                    then grow fuel' m else Done m) = Done m1).
    { destruct (load_exceeded (m_size m) (capacity m)); [|exact Hm1].
      unfold grow, grow_with in *.
      eapply rehash_mono; [|exact Hm1].
      intros m2 key2 x2 H2. apply (IH fuel'); [exact H2|lia]. }
    rewrite Hm1'. cbn [bind]. unfold settle in *.
    apply bind_Done in Hx. destruct Hx as (index & Hfind & Hx).
    rewrite (find_slot_fuel_mono fuel fuel' m1 key index Hfind) by lia.
    exact Hx.
Qed.

(** Whatever fuel made [operator[]] return, it returned what the
    invariant describes. *)
Lemma index_or_insert_Done m key fuel m' index :
  wf m ->
  (load_exceeded (m_size m) (capacity m) = true -> 2 * capacity m < 2 ^ 32) ->
  index_or_insert fuel m key = Done (m', index) ->
  index_post m key m' index /\
  (if load_exceeded (m_size m) (capacity m)
   then capacity m' = 2 * capacity m else capacity m' = capacity m).
Proof.
  intros Hwf Hsmall Hrun.
  set (big := (fuel + (Z.to_nat (2 * capacity m) + 3))%nat).
  destruct (index_or_insert_spec m key big Hwf Hsmall) as (m2 & i2 & Hrun2 & Hpost & Hc);
    [unfold big; lia|].
  pose proof (index_or_insert_fuel_mono fuel big m key _ Hrun ltac:(unfold big; lia)) as Hrun'.
  rewrite Hrun2 in Hrun'. injection Hrun' as -> ->. auto.
Qed.

End Fuel.

(** ** Doubling the largest capacity *)

Section Overflow.
Context {k v : Type} `{KL : KeyLaws k} `{VT : ValueType v}.
Implicit Types (m : @map k v) (key : k) (e : @Entry k v).

(** The table [grow] leaves when doubling the capacity wraps it to 0. *)
Lemma index_or_insert_no_table fuel (key : k) :
  index_or_insert (S (S fuel))
    {| entries := @new_entries k v _ _ 0; capacity := 0; m_size := 0 |} key
  = Fault.
Proof.
  cbn [index_or_insert m_size capacity].
  replace (load_exceeded 0 0) with true by (vm_compute; reflexivity).
  unfold grow_with. cbn [capacity entries].
  change (wrap32 (0 * 2)) with 0. change (Z.to_nat 0) with 0%nat.
  cbn [rehash bind]. unfold find_slot.
  destruct fuel as [|fuel]; reflexivity.
Qed.

Lemma rehash_into_no_table (rec : @map k v -> k -> outcome (@map k v * Z))
      (old : list (@Entry k v)) (m0 : @map k v) :
  (forall key, rec m0 key = Fault) ->
  forall count i,
    rehash rec old count i m0 = Fault \/ rehash rec old count i m0 = Done m0.
Proof.
  intros Hrec count. induction count as [|count IH]; intros i.
  - right. reflexivity.
  - cbn [rehash].
    destruct (old !! Z.to_nat i) as [e|]; [|left; reflexivity].
    destruct (state e =? 1).
    + rewrite Hrec. left. reflexivity.
    + apply IH.
Qed.

(** When the growth check fires on a capacity that [capacity *= 2] wraps
    to 0, [operator[]] reads outside the table without slots that [grow]
    allocates. *)
Lemma index_or_insert_wrap_faults m key fuel :
  wrap32 (capacity m * 2) = 0 ->
  load_exceeded (m_size m) (capacity m) = true ->
  index_or_insert (S (S (S fuel))) m key = Fault.
Proof.
  intros Hwrap Hfire.
  rewrite index_or_insert_unfold, Hfire.
  unfold grow, grow_with. rewrite Hwrap.
  destruct (rehash_into_no_table (index_or_insert (S (S fuel))) (entries m)
              {| entries := new_entries 0; capacity := 0; m_size := 0 |}
              (index_or_insert_no_table fuel) (Z.to_nat (capacity m)) 0)
    as [->| ->]; [reflexivity|].
  cbn [bind]. unfold settle, find_slot. reflexivity.
Qed.

(** So a call of [operator[]] that returned on a well-formed map did not
    have to double a capacity of 2^31. *)
Lemma index_or_insert_Done_fits m key fuel x :
  wf m -> index_or_insert fuel m key = Done x ->
  load_exceeded (m_size m) (capacity m) = true -> 2 * capacity m < 2 ^ 32.
Proof.
  intros Hwf Hrun Hfire.
  destruct (wf_capacity m Hwf) as (j & Hj & Hcap). pose proof (pow2_range j Hj).
  destruct (Z.eq_dec j 31) as [->|Hne].
  - exfalso.
    pose proof (index_or_insert_fuel_mono fuel (S (S (S fuel))) m key x Hrun
                  ltac:(lia)) as Hrun'.
    rewrite index_or_insert_wrap_faults in Hrun'; [discriminate| |assumption].
    rewrite Hcap. reflexivity.
  - assert (2 ^ j <= 2 ^ 30) by (apply Z.pow_le_mono_r; lia). lia.
Qed.

End Overflow.

(** ** The maps the operations reach *)

Section Reachable.
Context {k v : Type} `{KL : KeyLaws k} `{VT : ValueType v}.
Implicit Types (m : @map k v) (key : k) (e : @Entry k v).

Lemma map_eta m :
  {| entries := entries m; capacity := capacity m; m_size := m_size m |} = m.
Proof. destruct m. reflexivity. Qed.

Lemma reachable_invariant j keys m :
  0 <= j <= 31 -> reachable (2 ^ j) keys m ->
  wf m /\ 2 ^ j <= capacity m /\ (forall key, present m key -> key ∈ keys) /\
  (m_size m <= 3 * 2 ^ 23 -> 4 * m_size m <= 3 * capacity m) /\
  4 * m_size m <= 3 * capacity m + capacity m / 2 ^ 22.
Proof.
  intros Hj Hreach. pose proof (pow2_range j Hj) as Hr.
  induction Hreach as
    [ | keys m fuel key m' index Hreach IH Hrun
      | keys m index e value m' Hreach IH Hidx He Hs Hst
      | keys m Hreach IH
      | keys m Hreach IH
      | keys this m Hreach IH ].
  - assert (Hdiv : 0 <= 2 ^ j / 2 ^ 22) by (apply Z.div_pos; lia).
    split; [apply wf_map_new; assumption|]. split; [|split; [|split]].
    + unfold map_new. simpl. rewrite wrap32_small; lia.
    + intros key (value & Hh). exfalso. revert Hh. apply holds_empty_table.
    + unfold map_new. simpl. rewrite wrap32_small; lia.
    + unfold map_new. simpl. rewrite wrap32_small; lia.
  - destruct IH as (Hwf & Hcap & Hkeys & Hquarter & Hslack).
    pose proof (index_or_insert_Done_fits m key fuel _ Hwf Hrun) as Hsmall.
    destruct (index_or_insert_Done m key fuel m' index Hwf Hsmall Hrun)
      as ((Hwf' & _ & _ & Hholds & Hsize) & Hc).
    pose proof (wf_size_lt_capacity m Hwf) as Hsz.
    split; [assumption|]. split; [|split; [|split]].
    + destruct (load_exceeded (m_size m) (capacity m)); lia.
    + intros key' (value & Hh). apply Hholds in Hh.
      destruct Hh as [Hh|(_ & -> & _)].
      * apply elem_of_cons. right. apply Hkeys. exists value. assumption.
      * apply elem_of_cons. left. reflexivity.
    + intros Hle. destruct (Z.lt_ge_cases (m_size m') (2 ^ 24)) as [Hlt|Hbig].
      * destruct (wf_capacity m Hwf) as (j' & Hj' & Hcap').
        destruct (load_exceeded (m_size m) (capacity m)) eqn:Hex; [lia|].
        destruct (Z.eq_dec (m_size m') (m_size m)) as [Heq|Hne]; [lia|].
        rewrite Hcap', load_exceeded_exact in Hex by lia.
        apply Z.ltb_ge in Hex. lia.
      * destruct (wf_capacity m' Hwf') as (j' & Hj' & Hcap').
        pose proof (wf_size_lt_capacity m' Hwf') as Hsz'.
        assert (25 <= j').
        { destruct (Z.lt_ge_cases j' 25) as [Hjlt|]; [|assumption].
          assert (2 ^ j' <= 2 ^ 24) by (apply Z.pow_le_mono_r; lia). lia. }
        assert (2 ^ 25 <= 2 ^ j') by (apply Z.pow_le_mono_r; lia). lia.
    + destruct (load_exceeded (m_size m) (capacity m)) eqn:Hex.
      { assert (Hdiv : 0 <= capacity m' / 2 ^ 22) by (apply Z.div_pos; lia). lia. }
      destruct (Z.eq_dec (m_size m') (m_size m)) as [Heq|Hne].
      * rewrite Heq, Hc. assumption.
      * destruct (wf_capacity m Hwf) as (j' & Hj' & Hcap').
        pose proof (pow2_range j' Hj') as Hr'.
        rewrite Hcap' in Hex.
        pose proof (load_calm_slack (m_size m) j' Hj' ltac:(lia) ltac:(lia) Hex).
        rewrite Hc, Hcap'. lia.
  - destruct IH as (Hwf & Hcap & Hkeys & Hquarter & Hslack).
    destruct (wf_store_value m index e value m' Hwf He Hs Hst)
      as (Hwf' & Hcap' & Hsize' & Hholds).
    split; [assumption|]. split; [lia|]. split; [|rewrite Hsize', Hcap'; auto].
    intros key' (value' & Hh). apply Hholds in Hh. apply Hkeys.
    destruct Hh as [[_ Hh]|[-> _]].
    * exists value'. assumption.
    * exists (second (data e)), (Z.to_nat index), e. auto.
  - assert (Hdiv : 0 <= 2 ^ j / 2 ^ 22) by (apply Z.div_pos; lia).
    split; [apply wf_map_new; assumption|]. split; [|split; [|split]].
    + unfold clear. simpl. rewrite wrap32_small; lia.
    + intros key (value & Hh). exfalso. revert Hh. apply holds_empty_table.
    + unfold clear. simpl. rewrite wrap32_small; lia.
    + unfold clear. simpl. rewrite wrap32_small; lia.
  - unfold move_construct. simpl. rewrite map_eta. exact IH.
  - unfold move_assign. simpl. rewrite map_eta. exact IH.
Qed.

Lemma reachable_wf j keys m :
  0 <= j <= 31 -> reachable (2 ^ j) keys m -> wf m.
Proof. intros Hj Hreach. apply (reachable_invariant j keys m Hj Hreach). Qed.

(** [find] on a well-formed map. *)
Lemma find_present m p e fuel :
  wf m -> entries m !! p = Some e -> state e = 1 ->
  (Z.to_nat (capacity m) < fuel)%nat ->
  find fuel m (first (data e)) = Done (Some (Z.of_nat p)).
Proof.
  intros Hwf Hp Hs Hfuel. unfold find.
  rewrite (wf_find_present m p e fuel Hwf Hp Hs Hfuel). cbn [bind].
  unfold entry_at. rewrite Nat2Z.id, Hp. cbn [bind].
  apply Z.eqb_eq in Hs. rewrite Hs.
  assert (Hk : key_eqb (first (data e)) (first (data e)) = true)
    by (apply key_eqb_eq; reflexivity).
  rewrite Hk. reflexivity.
Qed.

Lemma find_absent m key fuel :
  wf m -> ~ present m key -> (Z.to_nat (capacity m) < fuel)%nat ->
  find fuel m key = Done None.
Proof.
  intros Hwf Habs Hfuel. unfold find.
  destruct (wf_find_absent m key fuel Hwf Habs Hfuel) as (r & e & Hfind & He & Hs & _).
  rewrite Hfind. cbn [bind]. unfold entry_at. rewrite He. cbn [bind].
  destruct (Z.eqb_spec (state e) 1); [contradiction|]. reflexivity.
Qed.

Lemma lookup_holds m key value fuel :
  wf m -> holds m key value -> (Z.to_nat (capacity m) < fuel)%nat ->
  lookup fuel m key = Done (Some value).
Proof.
  intros Hwf (p & e & Hp & Hs & <- & <-) Hfuel. unfold lookup.
  rewrite (find_present m p e fuel Hwf Hp Hs Hfuel). cbn [bind].
  unfold entry_at. rewrite Nat2Z.id, Hp. reflexivity.
Qed.

Lemma lookup_absent m key fuel :
  wf m -> ~ present m key -> (Z.to_nat (capacity m) < fuel)%nat ->
  lookup fuel m key = Done None.
Proof.
  intros Hwf Habs Hfuel. unfold lookup.
  rewrite (find_absent m key fuel Hwf Habs Hfuel). reflexivity.
Qed.

(** An assignment [m[key] = value] that returned leads from a reachable
    map to a reachable map. *)
Lemma reachable_assign j keys m fuel key value m' :
  0 <= j <= 31 -> reachable (2 ^ j) keys m ->
  (load_exceeded (m_size m) (capacity m) = true -> 2 * capacity m < 2 ^ 32) ->
  assign fuel m key value = Done m' ->
  reachable (2 ^ j) (key :: keys) m'.
Proof.
  intros Hj Hreach Hsmall Hrun. unfold assign in Hrun.
  apply bind_Done in Hrun. destruct Hrun as ([m1 index] & Hrun & Hst).
  pose proof (reachable_wf j keys m Hj Hreach) as Hwf.
  destruct (index_or_insert_Done m key fuel m1 index Hwf Hsmall Hrun)
    as ((_ & Hidx & (e & He & Hs & _) & _) & _).
  eapply reach_store; [|exact Hidx|exact He|exact Hs|exact Hst].
  eapply reach_index; eassumption.
Qed.

End Reachable.

(** ** Sequences of assignments *)

Section Assignments.
Context {k v : Type} `{KL : KeyLaws k} `{VT : ValueType v}.
Implicit Types (m : @map k v) (key : k) (e : @Entry k v).

Lemma assign_spec m key value fuel :
  wf m ->
  (load_exceeded (m_size m) (capacity m) = true -> 2 * capacity m < 2 ^ 32) ->
  (Z.to_nat (2 * capacity m) + 2 < fuel)%nat ->
  exists m',
    assign fuel m key value = Done m' /\ wf m' /\
    (forall key' value',
        holds m' key' value' <->
        (key' <> key /\ holds m key' value') \/ (key' = key /\ value' = value)) /\
    m_size m <= m_size m' <= m_size m + 1 /\
    (if load_exceeded (m_size m) (capacity m)
     then capacity m' = 2 * capacity m else capacity m' = capacity m).
Proof.
  intros Hwf Hsmall Hfuel. unfold assign.
  destruct (index_or_insert_spec m key fuel Hwf Hsmall Hfuel)
    as (m1 & index & Hrun & (Hwf1 & Hidx & (e & He & Hs & Hk) & Hholds1 & Hsize1) & Hcap1).
  rewrite Hrun. cbn [bind].
  rewrite (store_value_Done m1 index e value He).
  destruct (wf_store_value m1 index e value _ Hwf1 He Hs
              (store_value_Done m1 index e value He))
    as (Hwf2 & Hcap2 & Hsize2 & Hholds2).
  eexists. split; [reflexivity|]. split; [assumption|]. split; [|split].
  - intros key' value'. rewrite Hholds2, Hholds1, Hk. tauto.
  - lia.
  - rewrite Hcap2. exact Hcap1.
Qed.

Lemma last_assigned_Some (kvs : list (k * v)) key :
  key ∈ kvs.*1 <-> exists value, last_assigned kvs key = Some value.
Proof.
  induction kvs as [|[key' value'] kvs IH]; simpl.
  - split; [intros Hin; inversion Hin|intros [? ?]; discriminate].
  - rewrite elem_of_cons, IH. split.
    + intros [->|[value Hv]].
      * destruct (last_assigned kvs key'); [eauto|].
        assert (Hk : key_eqb key' key' = true) by (apply key_eqb_eq; reflexivity).
        rewrite Hk. eauto.
      * rewrite Hv. eauto.
    + intros [value Hv]. destruct (last_assigned kvs key); [eauto|].
      destruct (key_eqb key' key) eqn:Hk; [|discriminate].
      apply key_eqb_eq in Hk. auto.
Qed.

(** While the keys stored and the one to insert are at most
    3 * 2^29 + 64, the growth check does not fire at capacity 2^31. *)
Lemma growth_fits m :
  wf m -> m_size m + 1 <= 3 * 2 ^ 29 + 64 ->
  load_exceeded (m_size m) (capacity m) = true -> 2 * capacity m < 2 ^ 32.
Proof.
  intros Hwf Hsmall Hex.
  destruct (wf_capacity m Hwf) as (j & Hj & Hcap).
  pose proof (wf_size_lt_capacity m Hwf) as Hsz. pose proof (pow2_range j Hj).
  destruct (Z.eq_dec j 31) as [->|Hne].
  - rewrite Hcap, load_calm_at_largest in Hex by lia. discriminate.
  - assert (2 ^ j <= 2 ^ 30) by (apply Z.pow_le_mono_r; lia). lia.
Qed.

(** Assignments that returned lead from a reachable map to a reachable
    map. *)
Lemma reachable_assign_all j fuel (kvs : list (k * v)) : forall keys m m',
  0 <= j <= 31 -> reachable (2 ^ j) keys m ->
  m_size m + Z.of_nat (length kvs) <= 3 * 2 ^ 29 ->
  assign_all fuel kvs m = Done m' ->
  reachable (2 ^ j) (rev kvs.*1 ++ keys) m'.
Proof.
  induction kvs as [|[key0 value0] kvs IH]; intros keys m m' Hj Hreach Hsmall Hrun.
  - injection Hrun as <-. exact Hreach.
  - cbn [assign_all] in Hrun. cbn [length] in Hsmall.
    apply bind_Done in Hrun. destruct Hrun as (m1 & Hrun1 & Hrun).
    pose proof (reachable_wf j keys m Hj Hreach) as Hwf.
    pose proof (wf_size_lt_capacity m Hwf) as Hsz.
    assert (Hfits := growth_fits m Hwf ltac:(lia)).
    pose proof (reachable_assign j keys m fuel key0 value0 m1 Hj Hreach Hfits Hrun1)
      as Hreach1.
    assert (Hsize1 : m_size m1 <= m_size m + 1).
    { unfold assign in Hrun1. apply bind_Done in Hrun1.
      destruct Hrun1 as ([m0 index] & Hrun0 & Hst).
      destruct (index_or_insert_Done m key0 fuel m0 index Hwf Hfits Hrun0)
        as ((Hwf0 & _ & (e & He & Hs & _) & _ & Hsize0) & _).
      destruct (wf_store_value m0 index e value0 m1 Hwf0 He Hs Hst)
        as (_ & _ & Hsize1 & _).
      lia. }
    rewrite fmap_cons. cbn [rev fst]. rewrite <- app_assoc. cbn [app].
    apply (IH (key0 :: keys) m1 m' Hj Hreach1); [lia|exact Hrun].
Qed.

(** A map stores no more keys than a duplicate-free list that has them
    all. *)
Lemma size_le_keys m (keys : list k) :
  wf m -> NoDup keys -> (forall key, present m key -> key ∈ keys) ->
  m_size m <= Z.of_nat (length keys).
Proof.
  intros Hwf Hnd Hincl. rewrite (wf_size m Hwf).
  rewrite <- (length_fmap fst (contents m)). apply inj_le.
  apply submseteq_length, NoDup_submseteq.
  - apply wf_contents_NoDup. assumption.
  - intros key Hin. apply Hincl. apply list_elem_of_fmap in Hin.
    destruct Hin as ([key' value] & -> & Hin). exists value.
    apply elem_of_contents. assumption.
Qed.

(** As long as the table of 2^31 slots takes the keys, that is while the
    keys stored before an assignment are fewer than 3 * 2^29 + 64, no
    assignment has to double a capacity of 2^31, and fuel beyond 2^32 is
    enough. Two conditions ensure it: at most 3 * 2^29 + 64 assignments,
    or fewer than 3 * 2^29 + 64 different keys. *)
Lemma assign_all_spec (bound : Z) fuel (kvs : list (k * v)) (keys : list k) m :
  wf m ->
  m_size m + Z.of_nat (length kvs) <= 3 * 2 ^ 29 + 64 \/
  (NoDup keys /\ Z.of_nat (length keys) < 3 * 2 ^ 29 + 64 /\
   (forall key, present m key -> key ∈ keys) /\
   (forall key, key ∈ kvs.*1 -> key ∈ keys)) ->
  bound = 2 ^ 31 ->
  (Z.to_nat (2 * bound) + 2 < fuel)%nat ->
  exists m',
    assign_all fuel kvs m = Done m' /\ wf m' /\
    capacity m <= capacity m' /\
    (forall key value,
        holds m' key value <->
        last_assigned kvs key = Some value \/
        (last_assigned kvs key = None /\ holds m key value)).
Proof.
  intros Hwf Hsmall Hbound Hfuel. revert m Hwf Hsmall.
  induction kvs as [|[key0 value0] kvs IH]; intros m Hwf Hsmall.
  - exists m. split; [reflexivity|]. split; [assumption|].
    split; [lia|]. intros key value. simpl. split; [auto|].
    intros [?|[_ ?]]; [discriminate|assumption].
  - cbn [assign_all].
    pose proof (wf_size_lt_capacity m Hwf) as Hsz.
    destruct (wf_capacity m Hwf) as (j & Hj & Hcapj).
    pose proof (pow2_range j Hj) as Hr.
    assert (Hroom : m_size m + 1 <= 3 * 2 ^ 29 + 64).
    { destruct Hsmall as [Hcount|(Hnd & Hlen & Hincl & _)].
      - cbn [length] in Hcount. lia.
      - pose proof (size_le_keys m keys Hwf Hnd Hincl). lia. }
    assert (Hfits := growth_fits m Hwf Hroom).
    destruct (assign_spec m key0 value0 fuel Hwf Hfits)
      as (m1 & Hrun & Hwf1 & Hholds1 & Hsize1 & Hcap1); [lia|].
    rewrite Hrun. cbn [bind].
    assert (Hcap1' : capacity m <= capacity m1).
    { destruct (load_exceeded (m_size m) (capacity m)); lia. }
    destruct (IH m1 Hwf1) as (m' & Hrun' & Hwf' & Hmono & Hholds').
    { destruct Hsmall as [Hcount|(Hnd & Hlen & Hincl & Hkvs)].
      - left. cbn [length] in Hcount. lia.
      - right. split; [assumption|]. split; [assumption|]. split.
        + intros key [value Hh]. apply Hholds1 in Hh.
          destruct Hh as [[_ Hh]|[-> _]].
          * apply Hincl. exists value. assumption.
          * apply Hkvs. rewrite fmap_cons. apply elem_of_cons. left. reflexivity.
        + intros key Hin. apply Hkvs. rewrite fmap_cons.
          apply elem_of_cons. right. assumption. }
    exists m'. split; [exact Hrun'|]. split; [assumption|].
    split; [lia|].
    intros key value. rewrite Hholds', Hholds1. cbn [last_assigned].
    destruct (last_assigned kvs key) as [value'|].
    + split; [intros [?|[? _]]; [auto|discriminate]|intros [?|[? _]]; [auto|discriminate]].
    + destruct (key_eqb key0 key) eqn:Hk.
      * apply key_eqb_eq in Hk. subst key0. split.
        -- intros [?|[_ [[Hne _]|[_ ->]]]]; [discriminate|contradiction|auto].
        -- intros [Hv|[? _]]; [|discriminate]. injection Hv as ->. auto.
      * assert (Hne : key <> key0).
        { intros ->. assert (key_eqb key0 key0 = true) by (apply key_eqb_eq; reflexivity).
          congruence. }
        split.
        -- intros [?|[_ [[_ Hh]|[-> _]]]]; [discriminate|auto|contradiction].
        -- intros [?|[_ Hh]]; [discriminate|]. auto.
Qed.

Lemma lookup_cases m key fuel :
  wf m -> (Z.to_nat (capacity m) < fuel)%nat ->
  (exists value, holds m key value /\ lookup fuel m key = Done (Some value)) \/
  (~ present m key /\ lookup fuel m key = Done None).
Proof.
  intros Hwf Hfuel.
  destruct (wf_find_slot_returns m key fuel Hwf Hfuel) as (r & e & Hfind & He & Hstop & Hr).
  destruct (Z.eq_dec (state e) 1) as [Hs|Hs].
  - apply stops_true in Hstop. destruct Hstop as [?|Hk]; [contradiction|].
    left. exists (second (data e)).
    assert (Hh : holds m key (second (data e))) by (exists (Z.to_nat r), e; auto).
    split; [assumption|]. apply lookup_holds; assumption.
  - right. assert (Habs : ~ present m key).
    { intros (value & p & e' & Hp & Hs' & Hk & _). subst key.
      pose proof (wf_find_present m p e' fuel Hwf Hp Hs' Hfuel) as Hfind'.
      rewrite Hfind in Hfind'. injection Hfind' as ->.
      rewrite Nat2Z.id in He. congruence. }
    split; [assumption|]. apply lookup_absent; assumption.
Qed.

End Assignments.

(** ** The probe order of [find_slot] *)

Section ProbeOrder.
Context {k v : Type} `{KT : KeyType k} `{VT : ValueType v}.
Implicit Types (m : @map k v) (key : k).

Lemma spec_probe_eq fuel m key index attempt :
  spec_probe fuel m key index attempt = find_slot_loop fuel m key index attempt.
Proof.
  revert index attempt. induction fuel as [|fuel IH]; intros index attempt.
  - reflexivity.
  - cbn [spec_probe find_slot_loop]. unfold entry_at.
    destruct (entries m !! Z.to_nat index) as [e|]; [|reflexivity].
    cbn [bind]. unfold stops, advance. rewrite IH. reflexivity.
Qed.

Lemma spec_examined_loop_eq fuel m key index attempt :
  spec_examined_loop fuel m key index attempt
  = examined_loop fuel m key index attempt.
Proof.
  revert index attempt. induction fuel as [|fuel IH]; intros index attempt.
  - reflexivity.
  - cbn [spec_examined_loop examined_loop].
    destruct (entries m !! Z.to_nat index) as [e|]; [|reflexivity].
    unfold stops, advance. rewrite IH. reflexivity.
Qed.

(** The slots [find_slot] examines are the first ones of the probe
    sequence, and the last one examined is the slot returned. *)
Lemma examined_loop_prefix fuel m key index i :
  examined_loop fuel m key index i
  `prefix_of` probe_indices fuel (capacity m) index i.
Proof.
  revert index i. induction fuel as [|fuel IH]; intros index i.
  - apply prefix_nil.
  - cbn [examined_loop probe_indices].
    destruct (entries m !! Z.to_nat index) as [e|];
      [destruct (stops e key)|]; apply prefix_cons;
      auto using prefix_nil.
Qed.

Lemma examined_loop_last fuel m key index i r :
  find_slot_loop fuel m key index i = Done r ->
  exists before, examined_loop fuel m key index i = before ++ [r].
Proof.
  revert index i. induction fuel as [|fuel IH]; intros index i Hr.
  - discriminate.
  - cbn [examined_loop find_slot_loop] in *. unfold entry_at in Hr.
    destruct (entries m !! Z.to_nat index) as [e|]; [|discriminate].
    cbn [bind] in Hr. destruct (stops e key).
    + injection Hr as <-. exists []. reflexivity.
    + destruct (IH _ _ Hr) as [before ->]. exists (index :: before). reflexivity.
Qed.

(** With the loop counter at 0 the first advance stays on the home slot. *)
Lemma advance_home m key :
  advance (capacity m) (home_slot m key) 0 = home_slot m key.
Proof.
  unfold advance, home_slot, wrap_size. rewrite Z.add_0_r.
  set (mask := wrap32 (capacity m - 1)).
  assert (Hmask : 0 <= mask < 2 ^ 64).
  { unfold mask, wrap32.
    pose proof (Z.mod_pos_bound (capacity m - 1) (2 ^ 32) ltac:(lia)). lia. }
  rewrite <- Z.land_ones by lia.
  rewrite <- !Z.land_assoc. f_equal.
  rewrite (Z.land_comm (Z.ones 64)), Z.land_assoc, Z.land_diag.
  rewrite Z.land_ones by lia. apply Z.mod_small. exact Hmask.
Qed.

End ProbeOrder.

(** ** The claims *)

Section Claims.
Context {k v : Type} `{KL : KeyLaws k} `{VT : ValueType v}.
Implicit Types (m : @map k v) (key : k) (e : @Entry k v).

(** C1, as amended. Assignments [m[key] = value] to N pairwise-distinct
    keys, each key assigned once or several times, on a freshly constructed
    map of power-of-two initial capacity, where N is at most
    3 * 2^29 + 63 or the assignments are at most 3 * 2^29 + 64 in all
    (what the table of 2^31 slots takes before the growth check fires on
    it): with enough fuel the calls return, [size()] is N and [find]
    returns, for each of the keys, the value last assigned to it. *)
Theorem C1_distinct_keys_size_and_find j (keys : list k) (kvs : list (k * v)) :
  0 <= j <= 31 ->
  NoDup keys -> (forall key, key ∈ keys <-> key ∈ kvs.*1) ->
  Z.of_nat (length keys) < 3 * 2 ^ 29 + 64 \/
  Z.of_nat (length kvs) <= 3 * 2 ^ 29 + 64 ->
  exists fuel0 : nat, forall fuel, (fuel0 <= fuel)%nat ->
    exists m,
      assign_all fuel kvs (map_new (2 ^ j)) = Done m /\
      size m = Z.of_nat (length keys) /\
      forall key, key ∈ keys ->
        exists value, last_assigned kvs key = Some value /\
                      lookup fuel m key = Done (Some value).
Proof.
  intros Hj Hnodup Hkeys Hsmall. pose proof (pow2_range j Hj) as Hr.
  remember (2 ^ 31) as bound eqn:Hbound.
  exists (Z.to_nat (2 * bound) + 3)%nat. intros fuel Hfuel.
  pose proof (wf_map_new (k := k) (v := v) j Hj) as Hwf0.
  destruct (assign_all_spec bound fuel kvs keys (map_new (2 ^ j)) Hwf0)
    as (m & Hrun & Hwf & _ & Hholds); [|assumption|lia|].
  { destruct Hsmall as [Hfew|Hcount]; [right|left; cbn [m_size map_new]; lia].
    split; [assumption|]. split; [assumption|]. split.
    - intros key [value Hh]. exfalso. revert Hh. apply holds_empty_table.
    - intros key Hin. apply Hkeys. assumption. }
  exists m. split; [exact Hrun|].
  assert (Hholds' : forall key value,
             holds m key value <-> last_assigned kvs key = Some value).
  { intros key value. rewrite Hholds. split; [|auto].
    intros [?|[_ Hh]]; [assumption|]. exfalso. revert Hh. apply holds_empty_table. }
  split.
  - unfold size. rewrite (wf_size m Hwf).
    rewrite <- (length_fmap fst (contents m)). f_equal.
    apply Permutation_length, NoDup_Permutation.
    + apply wf_contents_NoDup. assumption.
    + assumption.
    + intros key. rewrite (Hkeys key), (last_assigned_Some kvs key), list_elem_of_fmap.
      split.
      * intros ([key' value] & -> & Hin). exists value.
        apply Hholds', elem_of_contents. assumption.
      * intros [value Hv]. exists (key, value). split; [reflexivity|].
        apply elem_of_contents, Hholds'. assumption.
  - intros key Hin. apply Hkeys, last_assigned_Some in Hin.
    destruct Hin as [value Hv]. exists value. split; [assumption|].
    apply lookup_holds; [assumption|apply Hholds'; assumption|].
    destruct (wf_capacity m Hwf) as (j' & Hj' & Hcap').
    pose proof (pow2_range j' Hj'). lia.
Qed.

(** What the probe sequence of [find_slot] does guarantee on a table of
    power-of-two capacity: from a home slot [h] it examines [h] twice, the
    loop counter starting at 0, and the [capacity] probes that follow the
    first one visit every slot exactly once. *)
Theorem probe_round_visits_each_slot_once j h :
  0 <= j <= 31 -> 0 <= h < 2 ^ j ->
  exists round,
    probe_indices (S (Z.to_nat (2 ^ j))) (2 ^ j) h 0 = h :: round /\
    head round = Some h /\
    length round = Z.to_nat (2 ^ j) /\
    NoDup round /\
    (forall s, 0 <= s < 2 ^ j -> s ∈ round).
Proof.
  intros Hj Hh. pose proof (pow2_range j Hj) as Hr.
  assert (Hp : forall t, t = 0 \/ t = 1 -> probe_at (2 ^ j) h t = h).
  { intros t [->| ->]; unfold probe_at, offset; simpl;
      rewrite Z.add_0_r; apply Z.mod_small; assumption. }
  exists (probe_at (2 ^ j) h <$> seqZ 1 (2 ^ j)).
  split; [|split; [|split; [|split]]].
  - rewrite <- (Hp 0) at 1 by auto.
    rewrite probe_indices_closed by lia.
    replace (Z.of_nat (S (Z.to_nat (2 ^ j)))) with (Z.succ (2 ^ j)) by lia.
    rewrite (seqZ_cons 0) by lia. rewrite Z.pred_succ, fmap_cons.
    rewrite Hp by auto. reflexivity.
  - rewrite (seqZ_cons 1) by lia. rewrite fmap_cons. simpl.
    rewrite Hp by auto. reflexivity.
  - rewrite length_fmap, length_seqZ. reflexivity.
  - apply probe_round_NoDup. assumption.
  - intros s Hs. destruct (probe_round_covers j h s Hj Hs) as (t & Ht & <-).
    apply list_elem_of_fmap. exists t. split; [reflexivity|].
    apply elem_of_seqZ. lia.
Qed.

(** [find_slot] returns the slot the search of the specification returns,
    and examines the slots that search examines, except that its loop
    counter starts at 0: when the home slot does not end the search it is
    examined a second time before the advances by 1, 2, 3, ... *)
Theorem find_slot_follows_probe_order m key fuel :
  find_slot (S (S fuel)) m key = spec_find_slot (S fuel) m key /\
  examined (S (S fuel)) m key
  = match entry_at m (home_slot m key) with
    | Done e =>
        if stops e key then spec_examined (S fuel) m key
        else home_slot m key :: spec_examined (S fuel) m key
    | _ => spec_examined (S fuel) m key
    end.
Proof.
  unfold find_slot, spec_find_slot, examined, spec_examined.
  rewrite spec_probe_eq.
  pose proof (spec_examined_loop_eq (S fuel) m key
                (Z.land (hash_fn key) (wrap32 (capacity m - 1))) 1) as ->.
  change (Z.land (hash_fn key) (wrap32 (capacity m - 1))) with (home_slot m key).
  split.
  - cbn [find_slot_loop]. rewrite advance_home. change (wrap_size (0 + 1)) with 1.
    unfold entry_at.
    destruct (entries m !! Z.to_nat (home_slot m key)) as [e|] eqn:He; [|reflexivity].
    cbn [bind]. destruct (stops e key) eqn:Hs; reflexivity.
  - cbn [examined_loop]. rewrite advance_home. change (wrap_size (0 + 1)) with 1.
    unfold entry_at.
    destruct (entries m !! Z.to_nat (home_slot m key)) as [e|] eqn:He; [|reflexivity].
    destruct (stops e key) eqn:Hs; reflexivity.
Qed.


(** C5, as amended. When the growth check of an insertion fires on a
    reachable map whose capacity can be doubled within [uint32_t], that is
    a capacity below 2^31, [grow] returns, given enough fuel, a map of
    twice the capacity and of the same [size()] in which [find] retrieves
    every key an occupied slot held, with the value it had. *)
Theorem C5_growth_preserves_entries j (keys : list k) m fuel :
  0 <= j <= 31 -> reachable (2 ^ j) keys m ->
  load_exceeded (m_size m) (capacity m) = true ->
  2 * capacity m < 2 ^ 32 ->
  (Z.to_nat (2 * capacity m) + 1 < fuel)%nat ->
  exists m',
    grow fuel m = Done m' /\
    capacity m' = 2 * capacity m /\
    size m' = size m /\
    forall key value, holds m key value ->
                      lookup fuel m' key = Done (Some value).
Proof.
  intros Hj Hreach Hfire Hfits Hfuel.
  pose proof (reachable_wf j keys m Hj Hreach) as Hwf.
  destruct (grow_spec m fuel Hwf) as (m' & Hg & Hwf' & Hcap' & Hsize' & Hholds');
    [lia|lia|].
  exists m'. split; [exact Hg|]. split; [assumption|]. split; [exact Hsize'|].
  intros key value Hh. apply lookup_holds; [assumption|apply Hholds'; assumption|lia].
Qed.


(** C8. [clear] leaves [size()] 0 and the initial capacity, and every
    sequence of calls runs on the cleared map as it runs on a freshly
    constructed one. *)
Theorem C8_clear_is_fresh (InitialSize : Z) m :
  0 <= InitialSize < 2 ^ 32 ->
  size (clear InitialSize m) = 0 /\
  capacity (clear InitialSize m) = InitialSize /\
  clear InitialSize m = map_new InitialSize /\
  forall fuel (calls : list (@call k v)),
    run InitialSize fuel calls (clear InitialSize m)
    = run InitialSize fuel calls (map_new InitialSize).
Proof.
  intros Hfit. split; [reflexivity|]. split; [|split].
  - unfold clear. simpl. apply wrap32_small. assumption.
  - reflexivity.
  - intros fuel calls. reflexivity.
Qed.

(** C9, as amended. After [dst = move(src)] on two objects, [dst]
    is what [src] was: same [size()], same lookups. [src] has [size()] 0,
    is [empty()], and has capacity 0 and no table: [find] and [operator[]]
    on it access a slot outside the table, and [clear] makes it a freshly
    constructed map, on which every sequence of calls runs as on one. *)
Theorem C9_move_transfers_table (InitialSize : Z) (dst src : @map k v) :
  let dst' := fst (move_assign dst src) in
  let src' := snd (move_assign dst src) in
  size dst' = size src /\
  (forall fuel key, lookup fuel dst' key = lookup fuel src key) /\
  size src' = 0 /\ empty src' = true /\ capacity src' = 0 /\
  (forall fuel key, find (S fuel) src' key = Fault) /\
  (forall fuel key, index_or_insert (S (S fuel)) src' key = Fault) /\
  clear InitialSize src' = map_new InitialSize /\
  (forall fuel (calls : list (@call k v)),
      run InitialSize fuel calls (clear InitialSize src')
      = run InitialSize fuel calls (map_new InitialSize)).
Proof.
  unfold move_assign. cbn [fst snd]. rewrite map_eta.
  split; [reflexivity|]. split; [reflexivity|]. split; [reflexivity|].
  split; [reflexivity|]. split; [reflexivity|]. split; [|split; [|split]].
  - intros fuel key. reflexivity.
  - intros fuel key. rewrite index_or_insert_unfold.
    change (load_exceeded (m_size (@moved_from k v)) (capacity (@moved_from k v)))
      with (load_exceeded 0 0).
    assert (Hfire : load_exceeded 0 0 = true) by (vm_compute; reflexivity).
    rewrite Hfire. reflexivity.
  - reflexivity.
  - intros fuel calls. reflexivity.
Qed.

(** C10. On a reachable map that stores [key] and where
    [(size() + 1) / capacity <= 0.75], the growth check does not fire and
    [operator[]] returns, given fuel beyond the capacity, the map as it was
    together with the slot that stores [key]. *)
Theorem C10_index_of_stored_key j (keys : list k) m p e fuel :
  0 <= j <= 31 -> reachable (2 ^ j) keys m ->
  entries m !! p = Some e -> state e = 1 ->
  4 * (size m + 1) <= 3 * capacity m ->
  (Z.to_nat (capacity m) + 1 < fuel)%nat ->
  load_exceeded (m_size m) (capacity m) = false /\
  index_or_insert fuel m (first (data e)) = Done (m, Z.of_nat p) /\
  run_call (2 ^ j) fuel (CallIndex (first (data e))) m
  = Done (m, AnsRef (Z.of_nat p) (second (data e))).
Proof.
  intros Hj Hreach Hp Hs Hload Hfuel.
  pose proof (reachable_wf j keys m Hj Hreach) as Hwf.
  destruct (wf_capacity m Hwf) as (j' & Hj' & Hcap).
  pose proof (wf_size_lt_capacity m Hwf) as Hsz. pose proof (pow2_range j' Hj').
  assert (Hcalm : load_exceeded (m_size m) (capacity m) = false).
  { unfold size in Hload. rewrite Hcap. apply load_exceeded_low; lia. }
  assert (Hrun : index_or_insert fuel m (first (data e)) = Done (m, Z.of_nat p)).
  { destruct fuel as [|fuel]; [lia|].
    rewrite index_or_insert_unfold, Hcalm. cbn [bind].
    apply (settle_present m _ fuel p e); auto. lia. }
  split; [exact Hcalm|]. split; [exact Hrun|].
  cbn [run_call]. rewrite Hrun. cbn [bind].
  unfold entry_at. rewrite Nat2Z.id, Hp. reflexivity.
Qed.

End Claims.

(** ** [shared::map<int, int>] *)

Section IntMaps.
Import ints.

#[export] Instance int_key_laws : KeyLaws Z.
Proof. constructor. intros a b. apply Z.eqb_eq. Qed.

(** C6. With initial capacity 8, [m[i] = value_of(i)] for i = 0 .. 9, with
    fuel 35 or more: the growth check fires at the 7th assignment (where
    [(6 + 1) / 8 > 0.75]) and at no other, the capacity goes from 8 to 16
    there, and afterwards [size()] is 10 and [find] retrieves each of the
    ten keys with its value. *)
Theorem C6_ten_ints_grow_once (value_of : Z -> Z) (extra : nat) :
  let kvs := numbered value_of 10 in
  let fuel := (35 + extra)%nat in
  growth_trace fuel kvs int_map_new
  = [(false, 8); (false, 8); (false, 8); (false, 8); (false, 8); (false, 8);
     (true, 16); (false, 16); (false, 16); (false, 16)] /\
  exists m,
    assign_all fuel kvs int_map_new = Done m /\
    capacity m = 16 /\ size m = 10 /\
    (fun i => lookup fuel m i) <$> seqZ 0 10
    = (fun i => Done (Some (value_of i))) <$> seqZ 0 10.
Proof.
  intros kvs fuel. split; [vm_compute; reflexivity|].
  destruct (assign_all fuel kvs int_map_new) as [m| |] eqn:Hrun;
    vm_compute in Hrun; try discriminate.
  injection Hrun as <-. eexists. split; [reflexivity|].
  vm_compute. auto.
Qed.

(** C2. The probe sequence of [find_slot] on a table of 8 slots from home
    slot 0: among its first 8 probes slot 0 is examined twice and slot 4
    not at all, so an index repeats before every slot has been visited
    (the loop counter starts at 0 and the first advance adds nothing).
    [find_slot] runs through these probes when it looks for key 48 in the
    [map<int, int>] that stores the keys 0, 8, 16, 24, 32 and 40, all of
    home slot 0. *)
Theorem C2_first_probes_repeat_home :
  probe_indices 8 8 0 0 = [0; 0; 1; 3; 6; 2; 7; 5] /\
  probe_indices 9 8 0 0 = [0; 0; 1; 3; 6; 2; 7; 5; 4] /\
  (exists m : int_map,
      assign_all 20 [(0, 0); (8, 8); (16, 16); (24, 24); (32, 32); (40, 40)]
                 int_map_new = Done m /\
      capacity m = 8 /\
      examined 20 m 48 = [0; 0; 1; 3; 6; 2; 7; 5] /\
      find_slot 20 m 48 = Done 5) /\
  ~ NoDup (probe_indices 8 8 0 0).
Proof.
  split; [vm_compute; reflexivity|]. split; [vm_compute; reflexivity|].
  split.
  { eexists. split; [vm_compute; reflexivity|].
    split; [reflexivity|]. split; vm_compute; reflexivity. }
  intros Hnd. vm_compute in Hnd. inversion Hnd as [|x l Hnot _]; subst.
  apply Hnot. apply elem_of_cons. left. reflexivity.
Qed.

(** C3. With key 0 stored in a table of 8 slots, [find_slot] for key 8
    (home slot 0) examines the slots 0, 0, 1, where the sequence of the
    specification (advances by 1, 2, 3, ...) is 0, 1: the home slot is
    examined a second time. *)
Theorem C3_home_slot_examined_twice :
  exists m : int_map,
    assign 20 int_map_new 0 0 = Done m /\
    examined 20 m 8 = [0; 0; 1] /\
    spec_examined 20 m 8 = [0; 1] /\
    examined 20 m 8 <> spec_examined 20 m 8.
Proof.
  eexists. split; [vm_compute; reflexivity|].
  split; [vm_compute; reflexivity|]. split; [vm_compute; reflexivity|].
  vm_compute. discriminate.
Qed.

(** C9, as stated, fails: [find] on the source of a move accesses a slot
    outside the (absent) table, where on a freshly constructed map it
    returns the null pointer; so does [operator[]]. *)
Lemma C9_moved_from_find_faults :
  let src' := snd (move_assign int_map_new int_map_new) in
  find 20 src' 0 = Fault /\
  find 20 int_map_new 0 = Done None /\
  index_or_insert 20 src' 0 = Fault /\
  run 8 20 [CallFind 0] src' <> run 8 20 [CallFind 0] int_map_new.
Proof.
  cbn [snd move_assign]. split; [vm_compute; reflexivity|].
  split; [vm_compute; reflexivity|]. split; [vm_compute; reflexivity|].
  vm_compute. discriminate.
Qed.

(** *** The theorems at concrete inputs *)

Lemma C1_witness :
  exists fuel0 : nat, forall fuel, (fuel0 <= fuel)%nat ->
    exists m : int_map,
      assign_all fuel [(5, 50); (6, 60); (5, 51)] (map_new (2 ^ 3)) = Done m /\
      size m = Z.of_nat (length [5; 6]) /\
      forall key, key ∈ [5; 6] ->
        exists value, last_assigned [(5, 50); (6, 60); (5, 51)] key = Some value /\
                      lookup fuel m key = Done (Some value).
Proof.
  apply (C1_distinct_keys_size_and_find 3 [5; 6] [(5, 50); (6, 60); (5, 51)]).
  - lia.
  - repeat constructor; rewrite ?elem_of_cons, ?elem_of_nil; lia.
  - intros key. simpl. rewrite !elem_of_cons, !elem_of_nil. tauto.
  - left. simpl. lia.
Defined.

Example probe_round_of_8_from_5 :
  exists round,
    probe_indices (S (Z.to_nat (2 ^ 3))) (2 ^ 3) 5 0 = 5 :: round /\
    head round = Some 5 /\
    length round = Z.to_nat (2 ^ 3) /\
    NoDup round /\
    (forall s, 0 <= s < 2 ^ 3 -> s ∈ round).
Proof. apply (probe_round_visits_each_slot_once 3 5); lia. Qed.


Lemma C5_witness :
  exists m : int_map,
    assign_all 20 (numbered (fun i => i) 6) (map_new (2 ^ 3)) = Done m /\
    exists m',
      grow 34 m = Done m' /\
      capacity m' = 2 * capacity m /\
      size m' = size m /\
      forall key value, holds m key value -> lookup 34 m' key = Done (Some value).
Proof.
  eexists. split; [vm_compute; reflexivity|].
  apply (C5_growth_preserves_entries 3 (rev (numbered (fun i => i) 6).*1 ++ [])).
  - lia.
  - apply (reachable_assign_all 3 20 (numbered (fun i => i) 6) [] (map_new (2 ^ 3))).
    + lia.
    + apply reach_new.
    + vm_compute. discriminate.
    + vm_compute. reflexivity.
  - vm_compute. reflexivity.
  - vm_compute. reflexivity.
  - vm_compute. lia.
Defined.


Lemma C8_witness :
  size (clear 8 int_map_new) = 0 /\
  capacity (clear 8 int_map_new) = 8 /\
  clear 8 int_map_new = map_new 8 /\
  forall fuel (calls : list (@call Z Z)),
    run 8 fuel calls (clear 8 int_map_new) = run 8 fuel calls (map_new 8).
Proof. apply (C8_clear_is_fresh 8 int_map_new). lia. Defined.

Lemma C10_witness :
  exists m : int_map,
    assign 20 (map_new (2 ^ 3)) 5 50 = Done m /\
    load_exceeded (m_size m) (capacity m) = false /\
    index_or_insert 20 m 5 = Done (m, 5) /\
    run_call (2 ^ 3) 20 (CallIndex 5) m = Done (m, AnsRef 5 50).
Proof.
  eexists. split; [vm_compute; reflexivity|].
  apply (C10_index_of_stored_key 3 [5] _ 5%nat
           {| state := 1; data := {| first := 5; second := 50 |} |} 20).
  - lia.
  - eapply (reachable_assign 3 [] (map_new (2 ^ 3)) 20 5 50).
    + lia.
    + apply reach_new.
    + intros _. vm_compute. reflexivity.
    + vm_compute. reflexivity.
  - reflexivity.
  - reflexivity.
  - vm_compute. discriminate.
  - vm_compute. lia.
Defined.

End IntMaps.

(** ** The probe sequence in closed form *)

Section ProbeClosedForm.

(** X2. The closed form of the probe sequence of [find_slot] on a table of
    power-of-two capacity: the slot examined at step [t], counted from 0,
    is [(home + t * (t - 1) / 2) mod capacity]; the offsets from the home
    slot are 0, 0, 1, 3, 6, 10, ... *)
Theorem probe_sequence_closed_form j h (n : nat) :
  0 <= j <= 31 -> 0 <= h < 2 ^ j -> Z.of_nat n < 2 ^ 33 ->
  probe_indices n (2 ^ j) h 0
  = (fun t => (h + t * (t - 1) / 2) mod 2 ^ j) <$> seqZ 0 (Z.of_nat n).
Proof.
  intros Hj Hh Hn.
  pose proof (probe_indices_closed j h n 0 Hj ltac:(lia) ltac:(lia)) as Hclosed.
  unfold probe_at in Hclosed at 1. unfold offset in Hclosed at 1.
  change (0 * (0 - 1) / 2) with 0 in Hclosed.
  rewrite Z.add_0_r, Z.mod_small in Hclosed by lia.
  exact Hclosed.
Qed.

End ProbeClosedForm.

(** ** Iteration *)

Section IteratorFacts.
Context {k v : Type} `{KeyType k} `{ValueType v}.

(** Every table is a run of slots that are not occupied followed by
    nothing or by a table that starts with an occupied slot. *)
Lemma split_gap (es : list (@Entry k v)) :
  exists gap rest,
    es = gap ++ rest /\ Forall (fun e => state e <> 1) gap /\
    (rest = [] \/ exists e rest', rest = e :: rest' /\ state e = 1).
Proof.
  induction es as [|e es (gap & rest & -> & Hgap & Hrest)].
  - exists [], []. split; [reflexivity|]. split; [constructor|left; reflexivity].
  - destruct (Z.eq_dec (state e) 1) as [Hocc|Hfree].
    + exists [], (e :: gap ++ rest). split; [reflexivity|].
      split; [constructor|]. right. exists e, (gap ++ rest). split; [reflexivity|assumption].
    + exists (e :: gap), rest. split; [reflexivity|].
      split; [constructor; assumption|assumption].
Qed.

(** [advance] steps over a run of slots that are not occupied. *)
Lemma advance_skips cap (gap : list (@Entry k v)) : forall pre rest fuel,
  Forall (fun e => state e <> 1) gap ->
  (rest = [] \/ exists e rest', rest = e :: rest' /\ state e = 1) ->
  Z.of_nat (length (pre ++ gap ++ rest)) = cap -> cap < 2 ^ 32 ->
  (length gap < fuel)%nat ->
  iterator.advance fuel
    {| iterator.it_entries := pre ++ gap ++ rest; iterator.it_capacity := cap;
       iterator.it_index := Z.of_nat (length pre) |}
  = Done {| iterator.it_entries := pre ++ gap ++ rest; iterator.it_capacity := cap;
            iterator.it_index := Z.of_nat (length pre + length gap) |}.
Proof.
  induction gap as [|g gap IH]; intros pre rest fuel Hgap Hrest Hlen Hcap Hfuel.
  - destruct fuel as [|fuel]; [simpl in Hfuel; lia|].
    cbn [iterator.advance iterator.it_index iterator.it_capacity iterator.it_entries].
    rewrite Nat.add_0_r. cbn [app] in Hlen |- *.
    destruct Hrest as [->|(e & rest' & -> & Hocc)].
    + rewrite app_nil_r in Hlen |- *.
      replace (Z.of_nat (length pre) <? cap) with false by (symmetry; apply Z.ltb_ge; lia).
      reflexivity.
    + rewrite length_app in Hlen. cbn [length] in Hlen.
      replace (Z.of_nat (length pre) <? cap) with true by (symmetry; apply Z.ltb_lt; lia).
      rewrite Nat2Z.id, (list_lookup_middle pre rest' e) by reflexivity.
      rewrite Hocc. reflexivity.
  - destruct fuel as [|fuel]; [simpl in Hfuel; lia|].
    cbn [length] in Hfuel.
    inversion Hgap as [|? ? Hg Hgap' Heq]; clear Heq.
    cbn [iterator.advance iterator.it_index iterator.it_capacity iterator.it_entries].
    pose proof Hlen as Hlen'. rewrite !length_app in Hlen'. cbn [length] in Hlen'.
    replace (Z.of_nat (length pre) <? cap) with true by (symmetry; apply Z.ltb_lt; lia).
    cbn [app]. rewrite Nat2Z.id, (list_lookup_middle pre (gap ++ rest) g) by reflexivity.
    replace (state g =? 1) with false by (symmetry; apply Z.eqb_neq; assumption).
    cbn [negb]. rewrite wrap32_small by lia.
    replace (pre ++ g :: gap ++ rest) with ((pre ++ [g]) ++ gap ++ rest)
      by (rewrite <- app_assoc; reflexivity).
    replace (Z.of_nat (length pre) + 1) with (Z.of_nat (length (pre ++ [g])))
      by (rewrite length_app; simpl; lia).
    rewrite (IH (pre ++ [g]) rest fuel Hgap' Hrest); try lia.
    + f_equal. f_equal. rewrite length_app. simpl. lia.
    + rewrite <- Hlen, <- app_assoc. reflexivity.
Qed.

(** The pairs of the occupied slots of a table, in slot order. *)
Lemma filter_gap (gap rest : list (@Entry k v)) :
  Forall (fun e => state e <> 1) gap ->
  List.filter (fun e => state e =? 1) (gap ++ rest)
  = List.filter (fun e => state e =? 1) rest.
Proof.
  induction 1 as [|g gap Hg _ IH]; [reflexivity|].
  cbn [app List.filter].
  replace (state g =? 1) with false by (symmetry; apply Z.eqb_neq; assumption).
  exact IH.
Qed.

(** The loop from an iterator that stands on an occupied slot, or at the
    end, reads the pairs of the occupied slots from there on. *)
Lemma visit_loop_spec cap (last : @iterator.iterator k v) (n : nat) :
  forall (suf pre : list (@Entry k v)) fuel,
  (length suf <= n)%nat ->
  (suf = [] \/ exists e rest', suf = e :: rest' /\ state e = 1) ->
  Z.of_nat (length (pre ++ suf)) = cap -> cap < 2 ^ 32 ->
  iterator.it_index last = cap ->
  (length suf < fuel)%nat ->
  iterator.visit_loop fuel
    {| iterator.it_entries := pre ++ suf; iterator.it_capacity := cap;
       iterator.it_index := Z.of_nat (length pre) |} last
  = Done (data <$> List.filter (fun e => state e =? 1) suf).
Proof.
  induction n as [|n IH]; intros suf pre fuel Hn Hsuf Hlen Hcap Hlast Hfuel.
  - destruct suf; [|simpl in Hn; lia].
    destruct fuel as [|fuel]; [simpl in Hfuel; lia|].
    cbn [iterator.visit_loop]. unfold iterator.neq. cbn [iterator.it_index].
    rewrite app_nil_r in Hlen. rewrite Hlast.
    replace (Z.of_nat (length pre) =? cap) with true by (symmetry; apply Z.eqb_eq; lia).
    reflexivity.
  - destruct Hsuf as [->|(e & tl & -> & Hocc)].
    + apply (IH [] pre fuel); [simpl; lia|left; reflexivity|assumption..].
    + destruct fuel as [|fuel]; [simpl in Hfuel; lia|].
      cbn [length] in Hn, Hfuel.
      pose proof Hlen as Hlen'. rewrite length_app in Hlen'. cbn [length] in Hlen'.
      cbn [iterator.visit_loop]. unfold iterator.neq. cbn [iterator.it_index].
      rewrite Hlast.
      replace (Z.of_nat (length pre) =? cap) with false by (symmetry; apply Z.eqb_neq; lia).
      cbn [negb].
      unfold iterator.deref, iterator.increment.
      cbn [iterator.it_index iterator.it_capacity iterator.it_entries].
      rewrite Nat2Z.id, (list_lookup_middle pre tl e) by reflexivity.
      cbn [bind].
      destruct (split_gap tl) as (gap & rest & -> & Hgap & Hrest).
      rewrite length_app in Hn, Hfuel, Hlen'.
      rewrite wrap32_small by lia.
      replace (pre ++ e :: gap ++ rest) with ((pre ++ [e]) ++ gap ++ rest) in *
        by (rewrite <- app_assoc; reflexivity).
      replace (Z.of_nat (length pre) + 1) with (Z.of_nat (length (pre ++ [e])))
        by (rewrite length_app; simpl; lia).
      rewrite (advance_skips cap gap (pre ++ [e]) rest fuel Hgap Hrest Hlen Hcap)
        by lia.
      cbn [bind].
      replace ((pre ++ [e]) ++ gap ++ rest) with (((pre ++ [e]) ++ gap) ++ rest) in *
        by (rewrite <- !app_assoc; reflexivity).
      rewrite <- length_app.
      rewrite (IH rest ((pre ++ [e]) ++ gap) fuel); try assumption; try lia.
      cbn [bind List.filter]. rewrite Hocc. cbn [Z.eqb Pos.eqb fmap list_fmap].
      rewrite filter_gap by assumption. reflexivity.
Qed.

(** Iteration reads the pairs of the occupied slots, in slot order, on
    every table that has as many slots as its capacity says; a table
    without slots is among them. *)
Lemma visited_spec (m : @map k v) fuel :
  Z.of_nat (length (entries m)) = capacity m -> capacity m < 2 ^ 32 ->
  (Z.to_nat (capacity m) < fuel)%nat ->
  iterator.visited fuel m
  = Done (data <$> List.filter (fun e => state e =? 1) (entries m)).
Proof.
  intros Hlen Hcap Hfuel.
  unfold iterator.visited, iterator.begin, iterator.end_, iterator.iterator_new.
  destruct (split_gap (entries m)) as (gap & rest & Hes & Hgap & Hrest).
  rewrite Hes in Hlen |- *.
  pose proof Hlen as Hlen'. rewrite length_app in Hlen'.
  change 0 with (Z.of_nat (length (@nil (@Entry k v)))).
  change (gap ++ rest) with ([] ++ gap ++ rest) at 1.
  rewrite (advance_skips (capacity m) gap [] rest fuel Hgap Hrest Hlen Hcap) by lia.
  cbn [bind app length Nat.add].
  destruct fuel as [|fuel']; [lia|].
  cbn [iterator.advance iterator.it_index iterator.it_capacity].
  rewrite Z.ltb_irrefl. cbn [bind].
  rewrite (visit_loop_spec (capacity m) _ (length rest) rest gap (S fuel'));
    try assumption; try lia; try reflexivity.
  rewrite filter_gap by assumption. reflexivity.
Qed.

End IteratorFacts.

(** ** Keys, sizes and lookups *)

Section MapFacts.
Context {k v : Type} `{KeyType k} `{ValueType v} `{!KeyLaws k}.


Lemma present_keys (m : @map k v) key :
  present m key <-> key ∈ (contents m).*1.
Proof.
  rewrite list_elem_of_fmap. split.
  - intros [value Hh]. exists (key, value). split; [reflexivity|].
    apply elem_of_contents. assumption.
  - intros ([key' value] & -> & Hin). exists value.
    apply elem_of_contents. assumption.
Qed.

(** [m_size] is the number of keys stored. *)
Lemma size_of_key_set (m : @map k v) (l : list k) :
  wf m -> NoDup l -> (forall key, key ∈ l <-> present m key) ->
  m_size m = Z.of_nat (length l).
Proof.
  intros Hwf Hnd Hl. rewrite (wf_size m Hwf).
  rewrite <- (length_fmap fst (contents m)). f_equal.
  apply Permutation_length, NoDup_Permutation.
  - apply wf_contents_NoDup. assumption.
  - assumption.
  - intros key. rewrite Hl. symmetry. apply present_keys.
Qed.

(** The size after a key has been added to the keys stored, if it was not
    among them. *)
Lemma size_after_key (m m' : @map k v) key :
  wf m -> wf m' ->
  (forall key', present m' key' <-> present m key' \/ key' = key) ->
  (present m key /\ m_size m' = m_size m) \/
  (~ present m key /\ m_size m' = m_size m + 1).
Proof.
  intros Hwf Hwf' Hkeys.
  pose proof (wf_contents_NoDup m Hwf) as Hnd.
  assert (Hdec : present m key \/ ~ present m key).
  { destruct (wf_find_slot_returns m key (S (Z.to_nat (capacity m))) Hwf ltac:(lia))
      as (r & e & Hr & He & Hstop & Hrange).
    apply stops_true in Hstop.
    destruct (Z.eq_dec (state e) 1) as [Hocc|Hfree].
    - left. destruct Hstop as [?|Hkey]; [contradiction|].
      exists (second (data e)), (Z.to_nat r), e. auto.
    - right. intros [value (p & e' & He' & Hs' & Hk' & _)].
      pose proof (wf_find_present m p e' _ Hwf He' Hs' (Nat.lt_succ_diag_r _)) as Hfound.
      rewrite Hk', Hr in Hfound. injection Hfound as ->.
      rewrite Nat2Z.id in He. congruence. }
  destruct Hdec as [Hin|Hout].
  - left. split; [assumption|].
    rewrite (size_of_key_set m' (contents m).*1 Hwf' Hnd), (wf_size m Hwf).
    + rewrite length_fmap. reflexivity.
    + intros key'. rewrite Hkeys, <- present_keys. split; [auto|].
      intros [?| ->]; assumption.
  - right. split; [assumption|].
    rewrite (size_of_key_set m' (key :: (contents m).*1) Hwf'), (wf_size m Hwf).
    + cbn [length]. rewrite length_fmap. lia.
    + constructor; [|assumption]. rewrite <- present_keys. assumption.
    + intros key'. rewrite Hkeys, elem_of_cons, <- present_keys. tauto.
Qed.



End MapFacts.

(** ** The storage of a vector *)

Section VectorFacts.
Import vector.
Context {T D : Type} `{ValueType T}.

Lemma storage_pos (xs : list T) space :
  0 < space -> storage xs space = Some (slots_of xs space).
Proof.
  intros Hpos. unfold storage.
  replace (space =? 0) with false by (symmetry; apply Z.eqb_neq; lia).
  reflexivity.
Qed.

Lemma stores_length (vec : @vector T D) xs :
  stores vec xs -> _size vec = Z.of_nat (length xs).
Proof. intros (Hsize & _). exact Hsize. Qed.

(** Reading a slot of a vector: an element inside [size()], nothing to
    read beyond. *)
Lemma element_at_stores (vec : @vector T D) xs i :
  stores vec xs ->
  element_at vec i = match xs !! Z.to_nat i with
                     | Some x => Done x
                     | None => Fault
                     end.
Proof.
  intros (Hsize & Hspace & Hel). unfold element_at. rewrite Hel.
  unfold storage, slots_of.
  destruct (_space vec =? 0) eqn:Hzero.
  - apply Z.eqb_eq in Hzero.
    destruct xs; [reflexivity|]. cbn [length] in Hsize. lia.
  - destruct (xs !! Z.to_nat i) as [x|] eqn:Hx.
    + rewrite lookup_app_l
        by (rewrite length_fmap; eapply lookup_lt_Some; exact Hx).
      rewrite list_lookup_fmap, Hx. reflexivity.
    + apply lookup_ge_None in Hx.
      rewrite lookup_app_r by (rewrite length_fmap; assumption).
      destruct (replicate _ _ !! _) as [s|] eqn:Hs; [|reflexivity].
      apply lookup_replicate in Hs as [-> _]. reflexivity.
Qed.

(** Constructing an element in the first free slot. *)
Lemma construct_at_storage (xs : list T) space x :
  Z.of_nat (length xs) < space ->
  construct_at (storage xs space) (Z.of_nat (length xs)) x
  = Done (storage (xs ++ [x]) space).
Proof.
  intros Hroom. rewrite !storage_pos by lia. unfold construct_at, slots_of.
  rewrite Nat2Z.id.
  assert (Hrep : replicate (Z.to_nat space - length xs) (@None T)
                 = None :: replicate (Z.to_nat space - length (xs ++ [x])) None).
  { rewrite length_app. cbn [length].
    replace (Z.to_nat space - length xs)%nat
      with (S (Z.to_nat space - (length xs + 1)))%nat by lia.
    reflexivity. }
  rewrite Hrep.
  rewrite (list_lookup_middle (Some <$> xs) _ None)
    by (rewrite length_fmap; reflexivity).
  f_equal. f_equal.
  rewrite (insert_app_r_alt (Some <$> xs)) by (rewrite length_fmap; lia).
  rewrite length_fmap, Nat.sub_diag. cbn [insert list_insert].
  rewrite fmap_app, <- app_assoc. reflexivity.
Qed.

(** Destroying the last element. *)
Lemma destroy_at_storage (xs : list T) space x :
  Z.of_nat (length (xs ++ [x])) <= space ->
  destroy_at (storage (xs ++ [x]) space) (Z.of_nat (length xs))
  = storage xs space.
Proof.
  intros Hroom. rewrite length_app in Hroom. cbn [length] in Hroom.
  rewrite !storage_pos by lia. unfold destroy_at, slots_of. rewrite Nat2Z.id.
  f_equal. rewrite fmap_app, <- app_assoc. cbn [fmap list_fmap app].
  rewrite (insert_app_r_alt (Some <$> xs)) by (rewrite length_fmap; lia).
  rewrite length_fmap, Nat.sub_diag. cbn [insert list_insert].
  rewrite length_app. cbn [length].
  replace (Z.to_nat space - length xs)%nat
    with (S (Z.to_nat space - (length xs + 1)))%nat by lia.
  reflexivity.
Qed.

End VectorFacts.

(** ** The loops of the vector *)

Section VectorLoops.
Import vector.
Context {T D : Type} `{ValueType T}.

Lemma lookup_middle_app (done todo : list T) x :
  (done ++ x :: todo) !! Z.to_nat (Z.of_nat (length done)) = Some x.
Proof. rewrite Nat2Z.id. apply list_lookup_middle. reflexivity. Qed.

Lemma wrap_size_succ (l : list T) x space :
  Z.of_nat (length (l ++ [x])) <= space < 2 ^ 64 ->
  wrap_size (Z.of_nat (length l) + 1) = Z.of_nat (length (l ++ [x])).
Proof.
  intros Hroom. rewrite length_app in Hroom |- *. cbn [length] in Hroom |- *.
  rewrite wrap_size_small by lia. lia.
Qed.

(** The loop of [reserve] moves the elements to the new array, in order. *)
Lemma reserve_loop_spec (vec : @vector T D) xs space' : forall todo done,
  stores vec xs -> xs = done ++ todo ->
  Z.of_nat (length xs) <= space' < 2 ^ 64 -> 0 < space' ->
  reserve_loop (length todo) (Z.of_nat (length done)) vec (storage done space')
  = Done (storage xs space', replicate (length todo) DestroyedMoved).
Proof.
  induction todo as [|x todo IH]; intros done Hst -> Hroom Hpos.
  - rewrite app_nil_r. reflexivity.
  - cbn [length reserve_loop replicate].
    rewrite (element_at_stores vec (done ++ x :: todo)) by assumption.
    rewrite lookup_middle_app. cbn [bind].
    pose proof Hroom as Hroom'. rewrite length_app in Hroom'.
    cbn [length] in Hroom'.
    rewrite construct_at_storage by lia. cbn [bind].
    rewrite (wrap_size_succ done x space')
      by (rewrite length_app; cbn [length]; lia).
    rewrite (IH (done ++ [x])); try assumption; [reflexivity|].
    rewrite <- app_assoc. reflexivity.
Qed.

(** The loop of the copy operations copies the elements, in order. *)
Lemma copy_loop_spec (other : @vector T D) xs space' : forall todo done,
  stores other xs -> xs = done ++ todo ->
  Z.of_nat (length xs) <= space' < 2 ^ 64 -> 0 < space' ->
  copy_loop (length todo) (Z.of_nat (length done)) other (storage done space')
  = Done (storage xs space').
Proof.
  induction todo as [|x todo IH]; intros done Hst -> Hroom Hpos.
  - rewrite app_nil_r. reflexivity.
  - cbn [length copy_loop].
    rewrite (element_at_stores other (done ++ x :: todo)) by assumption.
    rewrite lookup_middle_app. cbn [bind].
    pose proof Hroom as Hroom'. rewrite length_app in Hroom'.
    cbn [length] in Hroom'.
    rewrite construct_at_storage by lia. cbn [bind].
    rewrite (wrap_size_succ done x space')
      by (rewrite length_app; cbn [length]; lia).
    rewrite (IH (done ++ [x])); try assumption; [reflexivity|].
    rewrite <- app_assoc. reflexivity.
Qed.

(** The loop of the sized constructor builds default elements. *)
Lemma default_loop_spec space' (count : nat) : forall done : list T,
  Z.of_nat (length done + count) <= space' < 2 ^ 64 -> 0 < space' ->
  default_loop count (Z.of_nat (length done)) (storage done space')
  = Done (storage (done ++ replicate count value_default) space').
Proof.
  induction count as [|count IH]; intros done Hroom Hpos.
  - cbn [replicate default_loop]. rewrite app_nil_r. reflexivity.
  - cbn [default_loop replicate].
    rewrite construct_at_storage by lia. cbn [bind].
    rewrite (wrap_size_succ done value_default space')
      by (rewrite length_app; cbn [length]; lia).
    rewrite (IH (done ++ [value_default])).
    + rewrite <- app_assoc. reflexivity.
    + rewrite length_app. cbn [length]. lia.
    + assumption.
Qed.

(** The second loop of [resize] appends copies of [val]. *)
Lemma fill_loop_spec (val : T) (count : nat) : forall (vec : @vector T D) xs,
  stores vec xs -> Z.of_nat (length xs + count) <= _space vec ->
  exists vec',
    fill_loop count vec val = Done vec' /\
    stores vec' (xs ++ replicate count val) /\
    _space vec' = _space vec /\ _deleter vec' = _deleter vec.
Proof.
  induction count as [|count IH]; intros vec xs Hst Hroom.
  - exists vec. cbn [replicate fill_loop]. rewrite app_nil_r. auto.
  - destruct Hst as (Hsize & Hspace & Hel).
    cbn [fill_loop replicate]. rewrite Hel, Hsize.
    rewrite construct_at_storage by lia. cbn [bind].
    rewrite (wrap_size_succ xs val (_space vec))
      by (rewrite length_app; cbn [length]; lia).
    destruct (IH {| _size := Z.of_nat (length (xs ++ [val]));
                    _elements := storage (xs ++ [val]) (_space vec);
                    _space := _space vec; _deleter := _deleter vec |}
                 (xs ++ [val])) as (vec' & Hrun & Hst' & Hsp & Hd).
    + split; [reflexivity|]. cbn [_size _space _elements].
      split; [|reflexivity]. rewrite length_app. cbn [length]. lia.
    + cbn [_space]. rewrite length_app. cbn [length]. lia.
    + exists vec'. rewrite Hrun. rewrite <- app_assoc in Hst'.
      split; [reflexivity|]. split; [exact Hst'|]. split; assumption.
Qed.

(** The first loop of [resize] destroys elements from the last one
    down. *)
Lemma shrink_loop_spec (gone : list T) : forall (vec : @vector T D) kept,
  stores vec (kept ++ gone) ->
  exists vec',
    shrink_loop (length gone) vec = Done (vec', Destroyed <$> rev gone) /\
    stores vec' kept /\
    _space vec' = _space vec /\ _deleter vec' = _deleter vec.
Proof.
  induction gone as [|x gone IH] using rev_ind; intros vec kept Hst.
  - exists vec. rewrite app_nil_r in Hst. cbn. auto.
  - rewrite length_app. cbn [length]. rewrite Nat.add_1_r.
    cbn [shrink_loop].
    pose proof Hst as (Hsize & Hspace & Hel).
    rewrite app_assoc in Hsize, Hel.
    rewrite length_app in Hsize. cbn [length] in Hsize.
    rewrite Hsize.
    replace (Z.of_nat (length (kept ++ gone) + 1) - 1)
      with (Z.of_nat (length (kept ++ gone))) by lia.
    rewrite wrap_size_small by lia.
    rewrite (element_at_stores vec (kept ++ gone ++ [x])) by assumption.
    rewrite app_assoc, lookup_middle_app. cbn [bind].
    rewrite Hel, destroy_at_storage
      by (rewrite length_app; cbn [length]; lia).
    destruct (IH {| _size := Z.of_nat (length (kept ++ gone));
                    _elements := storage (kept ++ gone) (_space vec);
                    _space := _space vec; _deleter := _deleter vec |} kept)
      as (vec' & Hrun & Hst' & Hsp & Hd).
    + split; [reflexivity|]. cbn [_size _space _elements].
      split; [lia|reflexivity].
    + exists vec'. rewrite Hrun. cbn [bind].
      rewrite rev_app_distr. cbn [rev app fmap list_fmap].
      split; [reflexivity|]. split; [exact Hst'|]. split; assumption.
Qed.

(** The loop of [clean_up] hands the elements over in order. *)
Lemma clean_up_loop_spec (vec : @vector T D) xs : forall todo done,
  stores vec xs -> xs = done ++ todo ->
  clean_up_loop (length todo) (Z.of_nat (length done)) vec
  = Done ((fun x => match _deleter vec with
                    | Some d => Deleted d x
                    | None => Destroyed x
                    end) <$> todo).
Proof.
  induction todo as [|x todo IH]; intros done Hst ->; [reflexivity|].
  cbn [length clean_up_loop].
  rewrite (element_at_stores vec (done ++ x :: todo)) by assumption.
  rewrite lookup_middle_app. cbn [bind].
  pose proof Hst as (Hsize & Hspace & _).
  rewrite length_app in Hsize. cbn [length] in Hsize.
  rewrite (wrap_size_succ done x (_space vec))
    by (rewrite length_app; cbn [length]; lia).
  rewrite (IH (done ++ [x])); [reflexivity|assumption|].
  rewrite <- app_assoc. reflexivity.
Qed.

End VectorLoops.

(** ** What iteration reads *)

Section IterationClaims.
Context {k v : Type} `{KeyType k} `{ValueType v} `{!KeyLaws k}.

Lemma elem_of_occupied_data (es : list (@Entry k v)) key value :
  {| first := key; second := value |}
    ∈ data <$> List.filter (fun e => state e =? 1) es <->
  (key, value) ∈ contents_of es.
Proof.
  unfold contents_of. rewrite !list_elem_of_fmap. split.
  - intros (e & Hp & He). exists e. split; [|assumption].
    rewrite <- Hp. reflexivity.
  - intros (e & Hp & He). exists e. split; [|assumption].
    injection Hp as -> ->. destruct (data e); reflexivity.
Qed.

Lemma keys_of_pairs (es : list (@Entry k v)) :
  ((fun e : @Entry k v => (first (data e), second (data e))) <$> es).*1
  = first <$> (data <$> es).
Proof.
  induction es as [|e es IH]; [reflexivity|].
  rewrite !fmap_cons, IH. reflexivity.
Qed.

(** X9. Iterating a reachable map from [begin()] to [end()] reads the
    pairs of the occupied slots in slot order: [size()] pairs, with
    pairwise different keys, and a pair is read exactly when [find]
    retrieves its value for its key. *)
Theorem iteration_reads_the_stored_pairs j (keys : list k) (m : @map k v) fuel :
  0 <= j <= 31 -> reachable (2 ^ j) keys m ->
  (Z.to_nat (capacity m) < fuel)%nat ->
  exists ps,
    iterator.visited fuel m = Done ps /\
    ps = data <$> List.filter (fun e => state e =? 1) (entries m) /\
    Z.of_nat (length ps) = size m /\
    NoDup (first <$> ps) /\
    (forall key value,
        {| first := key; second := value |} ∈ ps <->
        lookup fuel m key = Done (Some value)).
Proof.
  intros Hj Hreach Hfuel.
  pose proof (reachable_wf j keys m Hj Hreach) as Hwf.
  destruct (wf_capacity m Hwf) as (j' & Hj' & Hcap).
  pose proof (pow2_range j' Hj') as Hrange.
  eexists. split.
  { apply visited_spec; [apply wf_length; assumption|lia|assumption]. }
  split; [reflexivity|]. split; [|split].
  - unfold size. rewrite (wf_size m Hwf). unfold contents, contents_of.
    rewrite !length_fmap. reflexivity.
  - pose proof (wf_contents_NoDup m Hwf) as Hnd.
    unfold contents, contents_of in Hnd. rewrite keys_of_pairs in Hnd. exact Hnd.
  - intros key value. rewrite elem_of_occupied_data.
    change (contents_of (entries m)) with (contents m). rewrite elem_of_contents.
    split.
    + intros Hh. apply lookup_holds; assumption.
    + intros Hl. destruct (lookup_cases m key fuel Hwf Hfuel)
        as [(value' & Hh & Hl')|(_ & Hl')]; rewrite Hl' in Hl.
      * injection Hl as <-. exact Hh.
      * discriminate.
Qed.

(** X10. [operator++] on an iterator that stands on a slot of the table
    moves it to the next occupied slot, or to [capacity] when no occupied
    slot follows: the slots it steps over are not occupied. *)
Theorem increment_moves_to_next_occupied_slot (it : @iterator.iterator k v) fuel :
  Z.of_nat (length (iterator.it_entries it)) = iterator.it_capacity it ->
  iterator.it_capacity it < 2 ^ 32 ->
  0 <= iterator.it_index it < iterator.it_capacity it ->
  (Z.to_nat (iterator.it_capacity it - iterator.it_index it) <= fuel)%nat ->
  exists it',
    iterator.increment fuel it = Done it' /\
    iterator.it_entries it' = iterator.it_entries it /\
    iterator.it_capacity it' = iterator.it_capacity it /\
    iterator.it_index it < iterator.it_index it' <= iterator.it_capacity it /\
    iterator.settled it' /\
    forall p e, iterator.it_index it < Z.of_nat p < iterator.it_index it' ->
                iterator.it_entries it !! p = Some e -> state e <> 1.
Proof.
  destruct it as [es cap i].
  cbn [iterator.it_entries iterator.it_capacity iterator.it_index].
  intros Hlen Hcap Hi Hfuel.
  destruct (lookup_lt_is_Some_2 es (Z.to_nat i) ltac:(lia)) as [e He].
  apply list_elem_of_split_length in He as (pre & tl & -> & Hpre).
  destruct (split_gap tl) as (gap & rest & -> & Hgap & Hrest).
  pose proof Hlen as Hlen'. rewrite !length_app in Hlen'. cbn [length] in Hlen'.
  rewrite length_app in Hlen'.
  unfold iterator.increment.
  cbn [iterator.it_entries iterator.it_capacity iterator.it_index].
  rewrite wrap32_small by lia.
  replace (pre ++ e :: gap ++ rest) with ((pre ++ [e]) ++ gap ++ rest) in *
    by (rewrite <- app_assoc; reflexivity).
  replace (i + 1) with (Z.of_nat (length (pre ++ [e])))
    by (rewrite length_app; simpl; lia).
  rewrite (advance_skips cap gap (pre ++ [e]) rest fuel Hgap Hrest Hlen Hcap) by lia.
  eexists. split; [reflexivity|].
  cbn [iterator.it_entries iterator.it_capacity iterator.it_index].
  split; [reflexivity|]. split; [reflexivity|].
  rewrite length_app. cbn [length].
  split; [lia|]. split.
  - unfold iterator.settled.
    cbn [iterator.it_entries iterator.it_capacity iterator.it_index].
    destruct Hrest as [->|(e' & rest' & -> & Hocc)].
    + left. simpl in Hlen'. lia.
    + right. exists e'. split; [|assumption].
      rewrite Nat2Z.id, app_assoc. apply list_lookup_middle.
      rewrite !length_app. simpl. lia.
  - intros p e' Hp He'.
    rewrite lookup_app_r in He' by (rewrite length_app; simpl; lia).
    rewrite lookup_app_l in He' by (rewrite length_app; simpl; lia).
    rewrite Forall_forall in Hgap. apply Hgap.
    apply list_elem_of_In. eapply list_elem_of_lookup_2. exact He'.
Qed.

(** X11. Iterating the source of a move reads nothing and accesses no
    slot: [begin()] and [end()] are equal on a map of capacity 0. *)
Theorem iteration_of_moved_from_source (dst src : @map k v) fuel :
  let src' := snd (move_assign dst src) in
  iterator.visited (S fuel) src' = Done [] /\
  (forall it last, iterator.begin (S fuel) src' = Done it ->
                   iterator.end_ (S fuel) src' = Done last ->
                   iterator.neq it last = false).
Proof.
  cbn. split; [reflexivity|].
  intros it last Hit Hlast. injection Hit as <-. injection Hlast as <-. reflexivity.
Qed.

End IterationClaims.

(** ** Searching, assigning and inserting *)

Section MapClaims.
Context {k v : Type} `{KeyType k} `{ValueType v} `{!KeyLaws k}.



(** X3. A reachable map stores no key in two slots, and every key it
    stores was passed to [operator[]]. *)
Theorem stored_keys_are_unique_and_were_indexed j (keys : list k) (m : @map k v) :
  0 <= j <= 31 -> reachable (2 ^ j) keys m ->
  (forall p q e1 e2,
      entries m !! p = Some e1 -> entries m !! q = Some e2 ->
      state e1 = 1 -> state e2 = 1 -> first (data e1) = first (data e2) ->
      p = q) /\
  (forall p e, entries m !! p = Some e -> state e = 1 -> first (data e) ∈ keys).
Proof.
  intros Hj Hreach.
  destruct (reachable_invariant j keys m Hj Hreach) as (Hwf & _ & Hkeys & _).
  split.
  - intros p q e1 e2. apply wf_keys_unique. assumption.
  - intros p e He Hs. apply Hkeys. exists (second (data e)), p, e. auto.
Qed.



End MapClaims.

(** ** Growth *)

Section MapGrowth.
Context {k v : Type} `{KeyType k} `{ValueType v} `{!KeyLaws k}.

(** The growth check fires only above three quarters. *)
Lemma load_exceeded_above (m : @map k v) :
  wf m -> load_exceeded (m_size m) (capacity m) = true ->
  3 * capacity m < 4 * (m_size m + 1).
Proof.
  intros Hwf Hfire.
  destruct (wf_capacity m Hwf) as (j & Hj & Hcap).
  pose proof (wf_size_lt_capacity m Hwf) as Hsz. pose proof (pow2_range j Hj).
  destruct (Z.lt_ge_cases (3 * capacity m) (4 * (m_size m + 1))) as [|Hle];
    [assumption|].
  rewrite Hcap, load_exceeded_low in Hfire by lia. discriminate.
Qed.


(** X7. A reachable map has its initial capacity, or a capacity of which
    more than three eighths are in use once the next key is inserted: the
    table is doubled only when it is more than three quarters full, and
    nothing empties it but [clear]. *)
Theorem capacity_is_initial_or_well_used j (keys : list k) (m : @map k v) :
  0 <= j <= 31 -> reachable (2 ^ j) keys m ->
  capacity m = 2 ^ j \/ 3 * capacity m < 8 * (size m + 1).
Proof.
  intros Hj Hreach. pose proof (pow2_range j Hj) as Hr. unfold size.
  induction Hreach as [|keys m fuel key m' index Hreach IH Hrun
                       |keys m index e value m' Hreach IH Hindex He Hs Hrun
                       |keys m Hreach IH|keys m Hreach IH|keys this m Hreach IH].
  - left. cbn. apply wrap32_small. lia.
  - pose proof (reachable_wf j keys m Hj Hreach) as Hwf.
    pose proof (index_or_insert_Done_fits m key fuel _ Hwf Hrun) as Hfits.
    destruct (index_or_insert_Done m key fuel m' index Hwf Hfits Hrun)
      as ((_ & _ & _ & _ & Hsize) & Hcap).
    destruct (load_exceeded (m_size m) (capacity m)) eqn:Hfire.
    + right. pose proof (load_exceeded_above m Hwf Hfire). lia.
    + rewrite Hcap. destruct IH as [?|?]; [left; assumption|right; lia].
  - rewrite (store_value_Done m index e value He) in Hrun. injection Hrun as <-.
    exact IH.
  - left. cbn. apply wrap32_small. lia.
  - exact IH.
  - exact IH.
Qed.

(** X8. When the growth check fires on a table whose capacity cannot be
    doubled in [uint32_t] (2^31 slots), [operator[]] does not return a
    reference: [capacity *= 2] wraps to 0, and the search that follows
    reads outside the table [new Entry[0]]. *)
Theorem index_at_largest_capacity_faults (m : @map k v) key fuel :
  wrap32 (capacity m * 2) = 0 ->
  load_exceeded (m_size m) (capacity m) = true ->
  index_or_insert (S (S (S fuel))) m key = Fault.
Proof.
  intros Hwrap Hfire. apply index_or_insert_wrap_faults; assumption.
Qed.

End MapGrowth.

(** ** The states of the slots *)

Section NoTombstone.
Context {k v : Type} `{KeyType k} `{ValueType v}.

Lemma states_store_value (P : Z -> Prop) (m m' : @map k v) index value :
  store_value m index value = Done m' ->
  Forall (fun e => P (state e)) (entries m) ->
  Forall (fun e => P (state e)) (entries m').
Proof.
  intros Hrun Hall. unfold store_value in Hrun.
  apply bind_Done in Hrun as (e & He & Hrun). injection Hrun as <-.
  apply entry_at_Done in He. cbn [entries].
  apply Forall_insert; [assumption|]. cbn [state].
  rewrite Forall_forall in Hall. apply Hall, list_elem_of_In.
  eapply list_elem_of_lookup_2. exact He.
Qed.

Lemma states_rehash (P : Z -> Prop)
      (rec : @map k v -> k -> outcome (@map k v * Z)) (old : list (@Entry k v)) :
  (forall m key m' index,
      rec m key = Done (m', index) ->
      Forall (fun e => P (state e)) (entries m) ->
      Forall (fun e => P (state e)) (entries m')) ->
  forall count i m m',
    rehash rec old count i m = Done m' ->
    Forall (fun e => P (state e)) (entries m) ->
    Forall (fun e => P (state e)) (entries m').
Proof.
  intros Hrec count. induction count as [|count IH]; intros i m m' Hrun Hall.
  - injection Hrun as <-. assumption.
  - cbn [rehash] in Hrun.
    destruct (old !! Z.to_nat i) as [e|]; [|discriminate].
    destruct (state e =? 1).
    + apply bind_Done in Hrun as ([m1 index] & Hrun1 & Hrun).
      apply bind_Done in Hrun as (m2 & Hrun2 & Hrun).
      eapply IH; [exact Hrun|].
      eapply states_store_value; [exact Hrun2|].
      eapply Hrec; [exact Hrun1|assumption].
    + eapply IH; [exact Hrun|assumption].
Qed.

Lemma states_new_entries (P : Z -> Prop) c :
  P 0 -> Forall (fun e : @Entry k v => P (state e)) (new_entries c).
Proof. intros Hempty. unfold new_entries. apply Forall_replicate. exact Hempty. Qed.

Lemma states_index_or_insert (P : Z -> Prop) fuel :
  P 0 -> P 1 ->
  forall (m : @map k v) key m' index,
    index_or_insert fuel m key = Done (m', index) ->
    Forall (fun e => P (state e)) (entries m) ->
    Forall (fun e => P (state e)) (entries m').
Proof.
  intros Hempty Hocc.
  induction fuel as [|fuel IH]; intros m key m' index Hrun Hall;
    [discriminate|].
  rewrite index_or_insert_unfold in Hrun.
  apply bind_Done in Hrun as (m1 & Hgrow & Hrun).
  assert (Hall1 : Forall (fun e => P (state e)) (entries m1)).
  { destruct (load_exceeded (m_size m) (capacity m)).
    - unfold grow, grow_with in Hgrow.
      eapply (states_rehash P); [exact IH|exact Hgrow|].
      apply states_new_entries. exact Hempty.
    - injection Hgrow as <-. assumption. }
  unfold settle in Hrun.
  apply bind_Done in Hrun as (index' & _ & Hrun).
  apply bind_Done in Hrun as (e & _ & Hrun).
  destruct (negb (state e =? 1)); injection Hrun as <- <-; [|assumption].
  apply Forall_insert; [assumption|exact Hocc].
Qed.

(** X26. No operation produces the state 2 (deleted) that [Entry]
    reserves: in every map reached from construction each slot is empty
    (state 0) or occupied (state 1). *)
Theorem no_slot_is_ever_deleted (InitialSize : Z) (keys : list k)
        (m : @map k v) :
  reachable InitialSize keys m ->
  forall p e, entries m !! p = Some e -> state e = 0 \/ state e = 1.
Proof.
  intros Hreach.
  assert (Hall : Forall (fun e => state e = 0 \/ state e = 1) (entries m)).
  { induction Hreach as [|keys m fuel key m' index Hreach IH Hrun
                         |keys m index e value m' Hreach IH Hindex He Hs Hrun
                         |keys m Hreach IH|keys m Hreach IH|keys this m Hreach IH].
    - apply (states_new_entries (fun s => s = 0 \/ s = 1)). auto.
    - eapply (states_index_or_insert (fun s => s = 0 \/ s = 1));
        [auto|auto|exact Hrun|exact IH].
    - eapply (states_store_value (fun s => s = 0 \/ s = 1)); [exact Hrun|exact IH].
    - apply (states_new_entries (fun s => s = 0 \/ s = 1)). auto.
    - exact IH.
    - exact IH. }
  intros p e He. rewrite Forall_forall in Hall.
  apply Hall, list_elem_of_In. eapply list_elem_of_lookup_2. exact He.
Qed.

End NoTombstone.

(** ** The hash function *)

Section Hash.

Lemma hash_step_mod h b : hash_step h b = (h * 33 + b) mod 2 ^ 64.
Proof.
  unfold hash_step, wrap_size. rewrite Z.shiftl_mul_pow2 by lia.
  rewrite Zplus_mod_idemp_l, <- Z.add_assoc, Zplus_mod_idemp_l. f_equal. lia.
Qed.

Lemma hash_fold bs : forall h,
  fold_left hash_step bs (h mod 2 ^ 64)
  = fold_left (fun h b => h * 33 + b) bs h mod 2 ^ 64.
Proof.
  induction bs as [|b bs IH]; intros h; [reflexivity|].
  cbn [fold_left]. rewrite hash_step_mod, <- IH. f_equal.
  rewrite <- Zplus_mod_idemp_l, Zmult_mod_idemp_l, Zplus_mod_idemp_l. reflexivity.
Qed.

(** X12. [hash_fn] is the polynomial of base 33 in the bytes of the object
    representation, first byte first, reduced modulo 2^64: the shift and
    the two additions of each round are [hash * 33 + data[i]] in
    [size_t], as the comment in the source says. *)
Theorem hash_fn_is_base_33_polynomial {k} `{KeyType k} (value : k) :
  hash_fn value
  = fold_left (fun hash byte => hash * 33 + byte) (object_bytes value) 0
    mod 2 ^ 64.
Proof. unfold hash_fn. rewrite <- hash_fold. reflexivity. Qed.

End Hash.

Section IntBenchmarks.
Import ints.

(** X13. The hash of an [int] key is
    [35937 * b0 + 1089 * b1 + 33 * b2 + b3] with [b0] the least significant
    byte of the key: a number below 2^24, whatever the key. *)
Theorem hash_of_int_key (x : Z) :
  let u := wrap32 x in
  hash_fn x = 35937 * (u mod 256) + 1089 * (u / 2 ^ 8 mod 256)
              + 33 * (u / 2 ^ 16 mod 256) + u / 2 ^ 24 mod 256 /\
  0 <= hash_fn x < 2 ^ 24.
Proof.
  intros u.
  assert (Heq : hash_fn x = 35937 * (u mod 256) + 1089 * (u / 2 ^ 8 mod 256)
                            + 33 * (u / 2 ^ 16 mod 256) + u / 2 ^ 24 mod 256).
  { unfold hash_fn. change 0 with (0 mod 2 ^ 64) at 1. rewrite hash_fold.
    cbn [object_bytes int_key int_bytes fold_left]. fold u.
    change 255 with (Z.ones 8). rewrite !Z.land_ones by lia.
    rewrite !Z.shiftr_div_pow2 by lia.
    pose proof (Z.mod_pos_bound u (2 ^ 8) ltac:(lia)).
    pose proof (Z.mod_pos_bound (u / 2 ^ 8) (2 ^ 8) ltac:(lia)).
    pose proof (Z.mod_pos_bound (u / 2 ^ 16) (2 ^ 8) ltac:(lia)).
    pose proof (Z.mod_pos_bound (u / 2 ^ 24) (2 ^ 8) ltac:(lia)).
    change 256 with (2 ^ 8).
    rewrite Z.mod_small by lia. lia. }
  split; [exact Heq|]. rewrite Heq.
  pose proof (Z.mod_pos_bound u 256 ltac:(lia)).
  pose proof (Z.mod_pos_bound (u / 2 ^ 8) 256 ltac:(lia)).
  pose proof (Z.mod_pos_bound (u / 2 ^ 16) 256 ltac:(lia)).
  pose proof (Z.mod_pos_bound (u / 2 ^ 24) 256 ltac:(lia)).
  lia.
Qed.

End IntBenchmarks.

(** ** The map benchmarks *)

Section MapBenchmarks.
Import ints.

Lemma numbered_S (f : Z -> Z) (n : nat) :
  numbered f (Z.of_nat (S n))
  = numbered f (Z.of_nat n) ++ [(Z.of_nat n, f (Z.of_nat n))].
Proof. unfold numbered. rewrite seqZ_S, fmap_app. reflexivity. Qed.

Lemma assign_all_app {k v} `{KeyType k} `{ValueType v} fuel
      (l1 l2 : list (k * v)) : forall m,
  assign_all fuel (l1 ++ l2) m
  = let* m1 := assign_all fuel l1 m in assign_all fuel l2 m1.
Proof.
  induction l1 as [|[key value] l1 IH]; intros m; [reflexivity|].
  cbn [app assign_all]. destruct (assign fuel m key value); cbn [bind]; auto.
Qed.

Lemma find_each_spec fuel (m : int_map) (g : Z -> Z) (keys : list Z) :
  (forall key, key ∈ keys -> lookup fuel m key = Done (Some (g key))) ->
  benchy.find_each fuel m keys = Done ((fun key => Some (g key)) <$> keys).
Proof.
  induction keys as [|key keys IH]; intros Hall; [reflexivity|].
  cbn [benchy.find_each]. rewrite Hall by (apply elem_of_cons; auto).
  cbn [bind]. rewrite IH; [reflexivity|].
  intros key' Hin. apply Hall, elem_of_cons. auto.
Qed.

(** The table after the first [n] of the [N] assignments [m[i] = i] of the
    benchmarks. *)
Lemma insertion_loop_spec (fuel : nat) (N : Z) (n : nat) :
  Z.of_nat n <= N < 2 ^ 24 -> (Z.to_nat (6 * N) + 18 < fuel)%nat ->
  exists m : int_map,
    benchy.BM_CustomMapInsertion fuel (Z.of_nat n) = Done m /\
    wf m /\ m_size m = Z.of_nat n /\
    (forall key value, holds m key value <->
                       0 <= key < Z.of_nat n /\ value = key) /\
    (exists c : nat, capacity m = 8 * 2 ^ Z.of_nat c) /\
    4 * Z.of_nat n <= 3 * capacity m /\
    (capacity m = 8 \/ 3 * capacity m < 8 * Z.of_nat n).
Proof.
  intros Hn Hfuel. unfold benchy.BM_CustomMapInsertion.
  induction n as [|n IH].
  - exists int_map_new. split; [reflexivity|].
    split; [apply (wf_map_new 3); lia|]. split; [reflexivity|]. split; [|split; [|split]].
    + intros key value. split; [|lia].
      intros Hh. exfalso. revert Hh. apply holds_empty_table.
    + exists 0%nat. reflexivity.
    + change (capacity int_map_new) with 8. lia.
    + left. reflexivity.
  - destruct IH as (m & Hrun & Hwf & Hsize & Hholds & [c Hc] & Hload & Hused); [lia|].
    rewrite numbered_S, assign_all_app, Hrun. cbn [bind assign_all].
    assert (Hcap : 2 * capacity m + 2 <= 6 * N + 18) by lia.
    destruct (wf_capacity m Hwf) as (j & Hj & Hcapj).
    assert (Hexact : load_exceeded (m_size m) (capacity m)
                     = (3 * capacity m <? 4 * (Z.of_nat n + 1))).
    { rewrite Hcapj, Hsize. apply load_exceeded_exact; lia. }
    destruct (assign_spec m (Z.of_nat n) (Z.of_nat n) fuel Hwf)
      as (m' & Hrun' & Hwf' & Hholds' & Hsize' & Hcap'); [lia|lia|].
    rewrite Hrun'. cbn [bind]. exists m'. split; [reflexivity|].
    split; [assumption|].
    assert (Hout : ~ present m (Z.of_nat n)).
    { intros [value Hh]. apply Hholds in Hh. lia. }
    split; [|split; [|split; [|split]]].
    + destruct (size_after_key m m' (Z.of_nat n) Hwf Hwf') as [[Hin _]|[_ ->]];
        [|contradiction|lia].
      intros key'. split.
      * intros [value' Hh]. apply Hholds' in Hh as [[_ Hh]|[-> _]]; [|auto].
        left. exists value'. assumption.
      * intros [[value' Hh]| ->].
        -- exists value'. apply Hholds'. left. split; [|assumption].
           apply Hholds in Hh. lia.
        -- exists (Z.of_nat n). apply Hholds'. auto.
    + intros key value. rewrite Hholds', Hholds. lia.
    + rewrite Hexact in Hcap'.
      destruct (3 * capacity m <? 4 * (Z.of_nat n + 1)).
      * exists (S c). rewrite Hcap', Hc, Nat2Z.inj_succ, Z.pow_succ_r by lia. lia.
      * exists c. rewrite Hcap'. exact Hc.
    + rewrite Hexact in Hcap'.
      destruct (3 * capacity m <? 4 * (Z.of_nat n + 1)) eqn:Hfire.
      * assert (8 <= capacity m)
          by (rewrite Hc; pose proof (Z.pow_pos_nonneg 2 (Z.of_nat c)); lia).
        lia.
      * apply Z.ltb_ge in Hfire. lia.
    + rewrite Hexact in Hcap'.
      destruct (3 * capacity m <? 4 * (Z.of_nat n + 1)) eqn:Hfire.
      * apply Z.ltb_lt in Hfire. right. lia.
      * destruct Hused as [?|?]; [left; lia|right; lia].
Qed.

(** X14. The map benchmarks for [n] keys, [n] below 2^24: after
    [m[i] = i] for [i] from 0 to [n - 1], [size()] is [n], the capacity is
    the smallest [8 * 2^c] of which [n] is at most three quarters, and each
    [find(i)] of the lookup loop returns a pointer to [i]. *)
Theorem map_benchmarks_insert_and_find n fuel :
  0 <= n < 2 ^ 24 -> (Z.to_nat (6 * n) + 18 < fuel)%nat ->
  exists m : int_map,
    benchy.BM_CustomMapInsertion fuel n = Done m /\
    size m = n /\
    (exists c : nat, capacity m = 8 * 2 ^ Z.of_nat c) /\
    4 * n <= 3 * capacity m /\
    (capacity m = 8 \/ 3 * capacity m < 8 * n) /\
    benchy.BM_CustomMapLookup fuel n = Done (Some <$> seqZ 0 n).
Proof.
  intros Hn Hfuel.
  destruct (insertion_loop_spec fuel n (Z.to_nat n)) as
    (m & Hrun & Hwf & Hsize & Hholds & Hc & Hload & Hused); [lia|assumption|].
  rewrite Z2Nat.id in * by lia.
  exists m. split; [exact Hrun|]. split; [exact Hsize|].
  split; [exact Hc|]. split; [exact Hload|]. split; [exact Hused|].
  unfold benchy.BM_CustomMapLookup. rewrite Hrun. cbn [bind].
  apply (find_each_spec fuel m (fun key => key)).
  intros key Hin. apply elem_of_seqZ in Hin.
  apply lookup_holds; [assumption|apply Hholds; lia|lia].
Qed.

End MapBenchmarks.

(** ** Runs of assignments, and [grow] at the largest capacity *)

Section RunFacts.
Context {k v : Type} `{KL : KeyLaws k} `{VT : ValueType v}.
Implicit Types (m : @map k v) (key : k) (e : @Entry k v).

Lemma assign_fuel_mono fuel fuel' m key (value : v) m' :
  assign fuel m key value = Done m' -> (fuel <= fuel')%nat ->
  assign fuel' m key value = Done m'.
Proof.
  unfold assign. intros Hrun Hle. apply bind_Done in Hrun.
  destruct Hrun as ([m1 index] & Hrun & Hst).
  rewrite (index_or_insert_fuel_mono fuel fuel' m key _ Hrun Hle). exact Hst.
Qed.

Lemma assign_all_fuel_mono fuel fuel' (kvs : list (k * v)) : forall m m',
  assign_all fuel kvs m = Done m' -> (fuel <= fuel')%nat ->
  assign_all fuel' kvs m = Done m'.
Proof.
  induction kvs as [|[key value] kvs IH]; intros m m' Hrun Hle; [exact Hrun|].
  cbn [assign_all] in Hrun |- *. apply bind_Done in Hrun.
  destruct Hrun as (m1 & Hrun1 & Hrun).
  rewrite (assign_fuel_mono fuel fuel' m key value m1 Hrun1 Hle). cbn [bind].
  apply (IH m1 m' Hrun Hle).
Qed.

(** Assignments that returned lead from a reachable map to a reachable
    map, whatever their number. *)
Lemma reachable_run j fuel (kvs : list (k * v)) : forall keys m m',
  0 <= j <= 31 -> reachable (2 ^ j) keys m ->
  assign_all fuel kvs m = Done m' ->
  reachable (2 ^ j) (rev kvs.*1 ++ keys) m'.
Proof.
  induction kvs as [|[key0 value0] kvs IH]; intros keys m m' Hj Hreach Hrun.
  - injection Hrun as <-. exact Hreach.
  - cbn [assign_all] in Hrun.
    apply bind_Done in Hrun. destruct Hrun as (m1 & Hrun1 & Hrun).
    pose proof (reachable_wf j keys m Hj Hreach) as Hwf.
    assert (Hfits : load_exceeded (m_size m) (capacity m) = true ->
                    2 * capacity m < 2 ^ 32).
    { unfold assign in Hrun1. apply bind_Done in Hrun1.
      destruct Hrun1 as (x & Hrun0 & _).
      apply (index_or_insert_Done_fits m key0 fuel x Hwf Hrun0). }
    pose proof (reachable_assign j keys m fuel key0 value0 m1 Hj Hreach Hfits Hrun1)
      as Hreach1.
    rewrite fmap_cons. cbn [rev fst]. rewrite <- app_assoc. cbn [app].
    apply (IH (key0 :: keys) m1 m' Hj Hreach1 Hrun).
Qed.

(** The loop of [grow] returns the table without slots only if it met no
    occupied slot of the old table. *)
Lemma rehash_no_table_Done (rec : @map k v -> k -> outcome (@map k v * Z))
      (old : list (@Entry k v)) (m0 : @map k v) :
  (forall key, rec m0 key = Fault) ->
  forall count i m',
    0 <= i -> i + Z.of_nat count < 2 ^ 32 ->
    rehash rec old count i m0 = Done m' ->
    forall p e, i <= p < i + Z.of_nat count ->
                old !! Z.to_nat p = Some e -> state e <> 1.
Proof.
  intros Hrec count. induction count as [|count IH]; intros i m' Hi Hfit Hrun p e Hp He;
    [lia|].
  cbn [rehash] in Hrun.
  destruct (old !! Z.to_nat i) as [e0|] eqn:He0; [|discriminate].
  destruct (Z.eqb_spec (state e0) 1) as [Hocc|Hfree].
  - rewrite Hrec in Hrun. discriminate.
  - rewrite wrap32_small in Hrun by lia.
    destruct (Z.eq_dec p i) as [->|Hne].
    + rewrite He0 in He. injection He as <-. assumption.
    + apply (IH (i + 1) m' ltac:(lia) ltac:(lia) Hrun p e); [lia|assumption].
Qed.

(** [grow] on a table of 2^31 slots that stores a key: [capacity *= 2]
    wraps to 0, the table allocated has no slot, and re-inserting the first
    key reads outside it. *)
Lemma grow_wrap_faults m key fuel :
  wf m -> wrap32 (capacity m * 2) = 0 -> present m key ->
  grow (S (S fuel)) m = Fault.
Proof.
  intros Hwf Hwrap (value & p & e & Hp & Hs & _).
  unfold grow, grow_with. rewrite Hwrap.
  pose proof (index_or_insert_no_table (k := k) (v := v) fuel) as Hrec.
  destruct (rehash_into_no_table (index_or_insert (S (S fuel))) (entries m)
              _ Hrec (Z.to_nat (capacity m)) 0) as [Hf|Hd]; [exact Hf|].
  exfalso.
  destruct (wf_capacity m Hwf) as (j & Hj & Hcap). pose proof (pow2_range j Hj).
  pose proof (wf_length m Hwf) as Hlen.
  pose proof (lookup_lt_Some _ _ _ Hp) as Hlt.
  apply (rehash_no_table_Done (index_or_insert (S (S fuel))) (entries m)
           _ Hrec (Z.to_nat (capacity m)) 0 _ ltac:(lia) ltac:(lia) Hd
           (Z.of_nat p) e); [lia|rewrite Nat2Z.id; exact Hp|exact Hs].
Qed.

End RunFacts.

(** ** Where the [uint32_t] capacity and the [float] load test end *)

Section Limits.
Import ints.

(** The assignments [m[i] = i] for the first [n] numbers on a fresh
    [map<int, int>], as long as the table of 2^31 slots takes them: they
    return, and while at most 3 * 2^23 + 1 keys are stored the capacity
    stays at most 2^25, the check on the count 3 * 2^23 + 1 in 2^25 slots
    being calm. *)
Lemma numbered_run_nat (bound : Z) (fuel : nat) (n : nat) :
  bound = 2 ^ 31 ->
  Z.of_nat n <= 3 * 2 ^ 29 + 64 -> (Z.to_nat (2 * bound) + 2 < fuel)%nat ->
  exists m : int_map,
    assign_all fuel (numbered (fun i => i) (Z.of_nat n)) int_map_new = Done m /\
    wf m /\ m_size m = Z.of_nat n /\
    (forall key value, holds m key value <->
                       0 <= key < Z.of_nat n /\ value = key) /\
    (Z.of_nat n <= 3 * 2 ^ 23 + 1 -> capacity m <= 2 ^ 25).
Proof.
  intros Hbound Hn Hfuel. induction n as [|n IH].
  - exists int_map_new. split; [reflexivity|].
    split; [apply (wf_map_new 3); lia|]. split; [reflexivity|]. split.
    + intros key value. split; [|lia].
      intros Hh. exfalso. revert Hh. apply holds_empty_table.
    + intros _. change (capacity int_map_new) with 8. lia.
  - destruct IH as (m & Hrun & Hwf & Hsize & Hholds & Hsmall); [lia|].
    rewrite numbered_S, assign_all_app, Hrun. cbn [bind assign_all].
    destruct (wf_capacity m Hwf) as (j & Hj & Hcapj).
    pose proof (pow2_range j Hj) as Hr.
    assert (Hfits := growth_fits m Hwf ltac:(lia)).
    destruct (assign_spec m (Z.of_nat n) (Z.of_nat n) fuel Hwf Hfits)
      as (m' & Hrun' & Hwf' & Hholds' & Hsize' & Hcap'); [lia|].
    rewrite Hrun'. cbn [bind]. exists m'. split; [reflexivity|].
    split; [assumption|].
    assert (Hout : ~ present m (Z.of_nat n)).
    { intros [value Hh]. apply Hholds in Hh. lia. }
    split; [|split].
    + destruct (size_after_key m m' (Z.of_nat n) Hwf Hwf') as [[Hin _]|[_ ->]];
        [|contradiction|lia].
      intros key'. split.
      * intros [value' Hh]. apply Hholds' in Hh as [[_ Hh]|[-> _]]; [|auto].
        left. exists value'. assumption.
      * intros [[value' Hh]| ->].
        -- exists value'. apply Hholds'. left. split; [|assumption].
           apply Hholds in Hh. lia.
        -- exists (Z.of_nat n). apply Hholds'. auto.
    + intros key value. rewrite Hholds', Hholds. lia.
    + intros Hle. specialize (Hsmall ltac:(lia)).
      destruct (load_exceeded (m_size m) (capacity m)) eqn:Hfire; [|lia].
      assert (Hj25 : j <= 25).
      { destruct (Z.le_gt_cases j 25) as [|Hgt]; [assumption|].
        assert (2 ^ 26 <= 2 ^ j) by (apply Z.pow_le_mono_r; lia). lia. }
      destruct (Z.eq_dec j 25) as [->|Hne].
      * exfalso. rewrite Hcapj, Hsize in Hfire.
        destruct (Z.eq_dec (Z.of_nat n) (3 * 2 ^ 23)) as [Heq|Hlt].
        -- rewrite Heq in Hfire. change (3 * 2 ^ 23) with 25165824 in Hfire.
           rewrite (proj1 load_exceeded_rounds) in Hfire. discriminate.
        -- rewrite load_exceeded_low in Hfire by lia. discriminate.
      * assert (2 ^ j <= 2 ^ 24) by (apply Z.pow_le_mono_r; lia). lia.
Qed.

Lemma numbered_run (bound : Z) (fuel : nat) (n : Z) :
  bound = 2 ^ 31 ->
  0 <= n <= 3 * 2 ^ 29 + 64 -> (Z.to_nat (2 * bound) + 2 < fuel)%nat ->
  exists m : int_map,
    assign_all fuel (numbered (fun i => i) n) int_map_new = Done m /\
    wf m /\ reachable (2 ^ 3) (rev (numbered (fun i => i) n).*1 ++ []) m /\
    m_size m = n /\
    (forall key value, holds m key value <-> 0 <= key < n /\ value = key) /\
    (n <= 3 * 2 ^ 23 + 1 -> capacity m <= 2 ^ 25).
Proof.
  intros Hbound Hn Hfuel.
  destruct (numbered_run_nat bound fuel (Z.to_nat n) Hbound ltac:(lia) Hfuel)
    as (m & Hrun & Hwf & Hsize & Hholds & Hsmall).
  rewrite Z2Nat.id in Hrun, Hsize, Hholds, Hsmall by lia.
  exists m. split; [exact Hrun|]. split; [exact Hwf|].
  split; [|split; [exact Hsize|split; [exact Hholds|exact Hsmall]]].
  apply (reachable_run 3 fuel (numbered (fun i => i) n) [] int_map_new m);
    [lia|apply reach_new|exact Hrun].
Qed.

End Limits.

Section FullTable.
Import ints.

Lemma numbered_keys (f : Z -> Z) n : (numbered f n).*1 = seqZ 0 n.
Proof.
  unfold numbered. rewrite <- list_fmap_compose.
  rewrite <- (list_fmap_id (seqZ 0 n)) at 2. apply list_fmap_ext.
  intros i x _. reflexivity.
Qed.

(** A fresh [map<int, int>] after [m[i] = i] for the 3 * 2^29 + 64 first
    numbers: the table has 2^31 slots, the growth check fires on the next
    call of [operator[]], whatever its key, and [grow], whose
    [capacity *= 2] wraps to 0, reads outside the table it allocated. *)
Lemma full_table (bound n : Z) (fuel : nat) :
  bound = 2 ^ 31 -> n = 3 * 2 ^ 29 + 64 ->
  (Z.to_nat (2 * bound) + 2 < fuel)%nat ->
  exists m : int_map,
    assign_all fuel (numbered (fun i => i) n) int_map_new = Done m /\
    reachable (2 ^ 3) (rev (numbered (fun i => i) n).*1 ++ []) m /\
    size m = n /\ capacity m = 2 ^ 31 /\
    lookup fuel m 0 = Done (Some 0) /\
    load_exceeded (m_size m) (capacity m) = true /\
    grow fuel m = Fault /\
    (forall key, index_or_insert fuel m key = Fault).
Proof.
  intros Hbound Hn Hfuel.
  destruct (numbered_run bound fuel n Hbound ltac:(lia) Hfuel)
    as (m & Hrun & Hwf & Hreach & Hsize & Hholds & _).
  destruct (wf_capacity m Hwf) as (j & Hj & Hcapj).
  pose proof (pow2_range j Hj) as Hr.
  pose proof (wf_size_lt_capacity m Hwf) as Hsz.
  assert (Hcap : capacity m = 2 ^ 31).
  { destruct (Z.eq_dec j 31) as [->|Hne]; [assumption|].
    assert (2 ^ j <= 2 ^ 30) by (apply Z.pow_le_mono_r; lia). lia. }
  assert (Hfire : load_exceeded (m_size m) (capacity m) = true).
  { rewrite Hsize, Hcap, Hn. vm_compute. reflexivity. }
  assert (Hwrap : wrap32 (capacity m * 2) = 0).
  { rewrite Hcap. reflexivity. }
  assert (Hzero : holds m 0 0) by (apply Hholds; lia).
  exists m. split; [exact Hrun|]. split; [exact Hreach|].
  split; [exact Hsize|]. split; [exact Hcap|].
  split; [apply lookup_holds; [assumption|assumption|lia]|].
  split; [exact Hfire|].
  destruct fuel as [|[|[|fuel]]]; try lia.
  split.
  - apply (grow_wrap_faults m 0 (S fuel) Hwf Hwrap). exists 0. assumption.
  - intros key. apply index_or_insert_wrap_faults; assumption.
Qed.

Lemma full_table_next_assignment (bound n : Z) :
  bound = 2 ^ 31 -> n = 3 * 2 ^ 29 + 64 ->
  NoDup (seqZ 0 n) /\
  Z.of_nat (length (seqZ 0 n)) = n /\
  (forall key,
      key ∈ seqZ 0 n <-> key ∈ (numbered (fun i => i) n ++ [(0, 0)]).*1) /\
  (exists fuel0 : nat, forall fuel, (fuel0 <= fuel)%nat ->
      assign_all fuel (numbered (fun i => i) n ++ [(0, 0)]) int_map_new
      = Fault) /\
  (forall fuel (m : int_map),
      assign_all fuel (numbered (fun i => i) n ++ [(0, 0)]) int_map_new
      <> Done m).
Proof.
  intros Hbound Hn.
  assert (Hfault : forall fuel, (Z.to_nat (2 * bound) + 3 <= fuel)%nat ->
            assign_all fuel (numbered (fun i => i) n ++ [(0, 0)]) int_map_new
            = Fault).
  { intros fuel Hfuel.
    destruct (full_table bound n fuel Hbound Hn ltac:(lia))
      as (m & Hrun & _ & _ & _ & _ & _ & _ & Hidx).
    rewrite assign_all_app, Hrun. cbn [bind assign_all]. unfold assign.
    rewrite Hidx. reflexivity. }
  split; [apply NoDup_seqZ|]. split; [rewrite length_seqZ; lia|].
  split; [|split].
  - intros key. rewrite fmap_app, numbered_keys, elem_of_app.
    cbn [fmap list_fmap fst]. rewrite list_elem_of_singleton, elem_of_seqZ.
    split; [auto|]. intros [?| ->]; [assumption|lia].
  - exists (Z.to_nat (2 * bound) + 3)%nat. exact Hfault.
  - intros fuel m Hrun.
    pose proof (assign_all_fuel_mono fuel (Nat.max fuel (Z.to_nat (2 * bound) + 3))
                  _ _ _ Hrun (Nat.le_max_l _ _)) as Hrun'.
    rewrite Hfault in Hrun' by apply Nat.le_max_r. discriminate.
Qed.

Lemma full_table_growth (bound n : Z) :
  bound = 2 ^ 31 -> n = 3 * 2 ^ 29 + 64 ->
  exists fuel0 : nat, forall fuel, (fuel0 <= fuel)%nat ->
    exists m : int_map,
      assign_all fuel (numbered (fun i => i) n) int_map_new = Done m /\
      reachable (2 ^ 3) (rev (numbered (fun i => i) n).*1 ++ []) m /\
      size m = n /\ capacity m = 2 ^ 31 /\
      lookup fuel m 0 = Done (Some 0) /\
      load_exceeded (m_size m) (capacity m) = true /\
      grow fuel m = Fault /\
      (forall key, index_or_insert fuel m key = Fault).
Proof.
  intros Hbound Hn. exists (Z.to_nat (2 * bound) + 3)%nat. intros fuel Hfuel.
  apply (full_table bound n fuel Hbound Hn). lia.
Qed.


End FullTable.

(** *** The claims at these limits *)

Section LimitClaims.
Import ints.

(** C1, as stated, fails: after [m[i] = i] for the 3 * 2^29 + 64 first
    numbers, pairwise distinct, on a fresh [map<int, int>], the table has
    2^31 slots and the growth check fires on the next assignment,
    [m[0] = 0] to a key already stored; [grow] wraps the capacity to 0 and
    the call reads outside the table. Whatever the fuel, the assignments
    do not all return. *)
Lemma C1_assignment_to_full_table_faults :
  let n := 3 * 2 ^ 29 + 64 in
  let kvs := numbered (fun i => i) n ++ [(0, 0)] in
  NoDup (seqZ 0 n) /\
  Z.of_nat (length (seqZ 0 n)) = n /\
  (forall key, key ∈ seqZ 0 n <-> key ∈ kvs.*1) /\
  (exists fuel0 : nat, forall fuel, (fuel0 <= fuel)%nat ->
      assign_all fuel kvs int_map_new = Fault) /\
  (forall fuel (m : int_map), assign_all fuel kvs int_map_new <> Done m).
Proof.
  cbv zeta. exact (full_table_next_assignment (2 ^ 31) (3 * 2 ^ 29 + 64) eq_refl eq_refl).
Qed.


(** C5, as stated, fails: on the reachable map that stores the
    3 * 2^29 + 64 first numbers in 2^31 slots the growth check of the next
    insertion fires, and [grow] does not return a table in which the keys
    stored, 0 among them, are found: it reads outside the table without
    slots it allocated, and so does every call of [operator[]]. *)
Lemma C5_growth_at_largest_capacity_faults :
  let n := 3 * 2 ^ 29 + 64 in
  exists fuel0 : nat, forall fuel, (fuel0 <= fuel)%nat ->
    exists m : int_map,
      assign_all fuel (numbered (fun i => i) n) int_map_new = Done m /\
      reachable (2 ^ 3) (rev (numbered (fun i => i) n).*1 ++ []) m /\
      size m = n /\ capacity m = 2 ^ 31 /\
      lookup fuel m 0 = Done (Some 0) /\
      load_exceeded (m_size m) (capacity m) = true /\
      grow fuel m = Fault /\
      (forall key, index_or_insert fuel m key = Fault).
Proof.
  cbv zeta. exact (full_table_growth (2 ^ 31) (3 * 2 ^ 29 + 64) eq_refl eq_refl).
Qed.


End LimitClaims.

(** ** The operations of the vector *)

Section VectorClaims.
Import vector.
Context {T D : Type} `{ValueType T}.

Lemma allocate_storage (n : Z) : 0 < n -> @allocate T n = storage [] n.
Proof.
  intros Hpos. rewrite storage_pos by lia. unfold allocate, slots_of.
  cbn [fmap list_fmap app length]. rewrite Nat.sub_0_r. reflexivity.
Qed.

Lemma stores_new (d : option D) : stores (@vector_new T D d) [].
Proof. split; [reflexivity|]. split; [cbn; lia|reflexivity]. Qed.

Lemma reserve_spec (vec : @vector T D) xs new_alloc :
  stores vec xs -> new_alloc < 2 ^ 64 ->
  exists vec',
    reserve vec new_alloc
    = Done (vec', replicate (if new_alloc <=? _space vec then 0 else length xs)
                            DestroyedMoved) /\
    stores vec' xs /\
    _space vec' = Z.max (_space vec) new_alloc /\
    _deleter vec' = _deleter vec.
Proof.
  intros Hst Hfit. pose proof Hst as (Hsize & Hspace & Hel).
  unfold reserve. destruct (new_alloc <=? _space vec) eqn:Hle.
  - apply Z.leb_le in Hle. exists vec. split; [reflexivity|].
    split; [assumption|]. split; [lia|reflexivity].
  - apply Z.leb_gt in Hle.
    rewrite Hsize, Nat2Z.id, allocate_storage by lia.
    change 0 with (Z.of_nat (length (@nil T))).
    rewrite (reserve_loop_spec vec xs new_alloc xs []);
      [|assumption|reflexivity|lia|lia].
    cbn [bind]. eexists. split; [reflexivity|].
    split; [|split; [cbn [_space]; lia|reflexivity]].
    split; [reflexivity|]. cbn [_size _space _elements].
    split; [lia|reflexivity].
Qed.

Lemma push_back_spec (vec : @vector T D) xs val :
  stores vec xs -> 2 * _space vec < 2 ^ 64 ->
  exists vec' events,
    push_back vec val = Done (vec', events) /\
    stores vec' (xs ++ [val]) /\
    _space vec' = (if _space vec =? 0 then 8
                   else if _size vec =? _space vec then 2 * _space vec
                        else _space vec) /\
    _deleter vec' = _deleter vec /\
    events = replicate (if _space vec =? 0 then 0
                        else if _size vec =? _space vec then length xs else 0)
                       DestroyedMoved.
Proof.
  intros Hst Hfit. pose proof Hst as (Hsize & Hspace & Hel).
  unfold push_back.
  assert (Hgrown : exists vec1 events,
    (if _space vec =? 0 then reserve vec 8
     else if _size vec =? _space vec then reserve vec (wrap_size (2 * _space vec))
          else Done (vec, [])) = Done (vec1, events) /\
    stores vec1 xs /\
    _space vec1 = (if _space vec =? 0 then 8
                   else if _size vec =? _space vec then 2 * _space vec
                        else _space vec) /\
    _deleter vec1 = _deleter vec /\
    events = replicate (if _space vec =? 0 then 0
                        else if _size vec =? _space vec then length xs else 0)
                       DestroyedMoved).
  { destruct (_space vec =? 0) eqn:Hzero.
    - apply Z.eqb_eq in Hzero.
      destruct (reserve_spec vec xs 8 Hst ltac:(lia)) as (vec1 & Hrun & Hst1 & Hsp & Hd).
      exists vec1, []. rewrite Hrun.
      replace (8 <=? _space vec) with false by (symmetry; apply Z.leb_gt; lia).
      assert (length xs = 0%nat) as -> by lia.
      split; [reflexivity|]. split; [assumption|]. split; [lia|]. split; [assumption|reflexivity].
    - apply Z.eqb_neq in Hzero.
      destruct (_size vec =? _space vec) eqn:Hfull.
      + apply Z.eqb_eq in Hfull.
        rewrite wrap_size_small by lia.
        destruct (reserve_spec vec xs (2 * _space vec) Hst ltac:(lia))
          as (vec1 & Hrun & Hst1 & Hsp & Hd).
        replace (2 * _space vec <=? _space vec) with false in Hrun
          by (symmetry; apply Z.leb_gt; lia).
        exists vec1, (replicate (length xs) DestroyedMoved).
        split; [exact Hrun|]. split; [assumption|]. split; [lia|]. split; [assumption|reflexivity].
      + exists vec, []. split; [reflexivity|]. split; [assumption|].
        split; [reflexivity|]. split; reflexivity. }
  destruct Hgrown as (vec1 & events & -> & Hst1 & Hsp1 & Hd1 & Hev).
  cbn [bind]. destruct Hst1 as (Hsize1 & Hspace1 & Hel1).
  assert (Hroom : Z.of_nat (length xs) < _space vec1).
  { rewrite Hsp1. destruct (_space vec =? 0) eqn:Hzero.
    - apply Z.eqb_eq in Hzero. lia.
    - apply Z.eqb_neq in Hzero. destruct (_size vec =? _space vec) eqn:Hfull.
      + apply Z.eqb_eq in Hfull. lia.
      + apply Z.eqb_neq in Hfull. lia. }
  rewrite Hel1, Hsize1, construct_at_storage by assumption. cbn [bind].
  rewrite (wrap_size_succ xs val (_space vec1))
    by (rewrite length_app; cbn [length]; lia).
  eexists _, events. split; [reflexivity|].
  split; [|split; [exact Hsp1|split; [exact Hd1|exact Hev]]].
  split; [reflexivity|]. cbn [_size _space _elements].
  split; [|reflexivity]. rewrite length_app. cbn [length]. lia.
Qed.

(** X15. [push_back(val)] on a vector that holds [xs] leaves one that
    holds [xs] followed by [val]; the capacity becomes 8 if it was 0, is
    doubled if the vector was full, and stays otherwise; no element is
    passed to the deleter or destroyed while it is in the vector, and
    [back()] is [val]. *)
Theorem push_back_appends (vec : @vector T D) xs val :
  stores vec xs -> 2 * capacity vec < 2 ^ 64 ->
  exists vec' events,
    push_back vec val = Done (vec', events) /\
    stores vec' (xs ++ [val]) /\
    size vec' = size vec + 1 /\
    capacity vec' = (if capacity vec =? 0 then 8
                     else if size vec =? capacity vec then 2 * capacity vec
                          else capacity vec) /\
    Forall (fun ev => ev = DestroyedMoved) events /\
    back vec' = Done val.
Proof.
  intros Hst Hfit.
  destruct (push_back_spec vec xs val Hst Hfit)
    as (vec' & events & Hrun & Hst' & Hsp & _ & Hev).
  exists vec', events. split; [exact Hrun|]. split; [exact Hst'|].
  pose proof Hst as (Hsize & _). pose proof Hst' as (Hsize' & Hspace' & _).
  rewrite length_app in Hsize'. cbn [length] in Hsize'.
  split; [unfold size; lia|]. split; [exact Hsp|]. split.
  - rewrite Hev. apply Forall_replicate. reflexivity.
  - unfold back. rewrite (element_at_stores vec' (xs ++ [val])) by assumption.
    rewrite Hsize', wrap_size_small by lia.
    replace (Z.of_nat (length xs + 1) - 1) with (Z.of_nat (length xs)) by lia.
    rewrite lookup_middle_app. reflexivity.
Qed.

(** X17. [at(i)] returns the element of index [i] when there is one; out
    of range it returns the first element instead of signalling an error,
    and on an empty vector it reads outside the storage. [operator[]] out
    of range reads a slot that holds no element. *)
Theorem at_out_of_range_returns_first_element (vec : @vector T D) xs i :
  stores vec xs -> 0 <= i ->
  at_ vec i = match xs !! Z.to_nat i with
              | Some x => Done x
              | None => match xs with
                        | x0 :: _ => Done x0
                        | [] => Fault
                        end
              end /\
  index vec i = match xs !! Z.to_nat i with
                | Some x => Done x
                | None => Fault
                end.
Proof.
  intros Hst Hi. pose proof Hst as (Hsize & _).
  split; [|apply element_at_stores; assumption].
  unfold at_. rewrite !(element_at_stores vec xs) by assumption.
  destruct (_size vec <=? i) eqn:Hout.
  - apply Z.leb_le in Hout.
    rewrite (proj2 (lookup_ge_None xs (Z.to_nat i))) by lia.
    destruct xs; reflexivity.
  - apply Z.leb_gt in Hout.
    destruct (lookup_lt_is_Some_2 xs (Z.to_nat i)) as [x ->]; [lia|reflexivity].
Qed.

Lemma resize_spec (vec : @vector T D) xs new_size val :
  stores vec xs -> 0 <= new_size < 2 ^ 64 ->
  exists vec' events,
    resize vec new_size val = Done (vec', events) /\
    stores vec' (take (Z.to_nat new_size) xs
                 ++ replicate (Z.to_nat new_size - length xs) val) /\
    _space vec' = Z.max (_space vec) new_size /\
    _deleter vec' = _deleter vec /\
    events = (if new_size <=? _size vec
              then Destroyed <$> rev (drop (Z.to_nat new_size) xs)
              else replicate (if _space vec <? new_size then length xs else 0)
                             DestroyedMoved).
Proof.
  intros Hst Hnew. pose proof Hst as (Hsize & Hspace & Hel).
  unfold resize. destruct (new_size <=? _size vec) eqn:Hle.
  - apply Z.leb_le in Hle.
    pose proof (take_drop (Z.to_nat new_size) xs) as Hsplit.
    rewrite <- Hsplit in Hst.
    destruct (shrink_loop_spec (drop (Z.to_nat new_size) xs) vec
                (take (Z.to_nat new_size) xs) Hst)
      as (vec' & Hrun & Hst' & Hsp & Hd).
    rewrite length_drop in Hrun.
    replace (Z.to_nat (_size vec - new_size)) with (length xs - Z.to_nat new_size)%nat
      by lia.
    exists vec', (Destroyed <$> rev (drop (Z.to_nat new_size) xs)).
    split; [exact Hrun|].
    replace (Z.to_nat new_size - length xs)%nat with 0%nat by lia.
    cbn [replicate]. rewrite app_nil_r.
    split; [exact Hst'|]. split; [lia|]. split; [exact Hd|reflexivity].
  - apply Z.leb_gt in Hle.
    assert (Hgrown : exists vec1,
      (if _space vec <? new_size then reserve vec new_size else Done (vec, []))
      = Done (vec1, replicate (if _space vec <? new_size then length xs else 0)
                              DestroyedMoved) /\
      stores vec1 xs /\ _space vec1 = Z.max (_space vec) new_size /\
      _deleter vec1 = _deleter vec).
    { destruct (_space vec <? new_size) eqn:Hsmall.
      - apply Z.ltb_lt in Hsmall.
        destruct (reserve_spec vec xs new_size Hst ltac:(lia))
          as (vec1 & Hrun & Hst1 & Hsp & Hd).
        replace (new_size <=? _space vec) with false in Hrun
          by (symmetry; apply Z.leb_gt; lia).
        exists vec1. auto.
      - apply Z.ltb_ge in Hsmall. exists vec.
        split; [reflexivity|]. split; [assumption|]. split; [lia|reflexivity]. }
    destruct Hgrown as (vec1 & -> & Hst1 & Hsp1 & Hd1). cbn [bind].
    pose proof Hst1 as (Hsize1 & _).
    destruct (fill_loop_spec val (Z.to_nat (new_size - _size vec1)) vec1 xs Hst1)
      as (vec' & Hrun & Hst' & Hsp & Hd); [lia|].
    rewrite Hrun. cbn [bind]. eexists _, _. split; [reflexivity|].
    rewrite take_ge by lia.
    replace (Z.to_nat new_size - length xs)%nat
      with (Z.to_nat (new_size - _size vec1)) by lia.
    split; [exact Hst'|]. split; [lia|]. split; [congruence|reflexivity].
Qed.

(** X18. [resize(n, val)] leaves the first [n] elements when the vector
    holds more, and appends copies of [val] up to [n] elements when it
    holds fewer; the capacity grows to [n] exactly when it was smaller and
    never shrinks. *)
Theorem resize_elements (vec : @vector T D) xs new_size val :
  stores vec xs -> 0 <= new_size < 2 ^ 64 ->
  exists vec' events,
    resize vec new_size val = Done (vec', events) /\
    stores vec' (take (Z.to_nat new_size) xs
                 ++ replicate (Z.to_nat new_size - length xs) val) /\
    size vec' = new_size /\
    capacity vec' = Z.max (capacity vec) new_size.
Proof.
  intros Hst Hnew.
  destruct (resize_spec vec xs new_size val Hst Hnew)
    as (vec' & events & Hrun & Hst' & Hsp & _ & _).
  exists vec', events. split; [exact Hrun|]. split; [exact Hst'|].
  split; [|exact Hsp].
  unfold size. rewrite (stores_length vec' _ Hst').
  rewrite length_app, length_take, length_replicate. lia.
Qed.

(** X19. [resize] to fewer elements destroys the elements it removes, last
    one first, by their destructor: the custom deleter is not called for
    them, also when the vector has one. *)
Theorem resize_shrink_bypasses_deleter (vec : @vector T D) xs new_size val :
  stores vec xs -> 0 <= new_size <= size vec ->
  exists vec',
    resize vec new_size val
    = Done (vec', Destroyed <$> rev (drop (Z.to_nat new_size) xs)) /\
    _deleter vec' = _deleter vec.
Proof.
  intros Hst Hnew. pose proof Hst as (Hsize & Hspace & _). unfold size in Hnew.
  destruct (resize_spec vec xs new_size val Hst ltac:(lia))
    as (vec' & events & Hrun & _ & _ & Hd & Hev).
  replace (new_size <=? _size vec) with true in Hev
    by (symmetry; apply Z.leb_le; lia).
  subst events. exists vec'. split; assumption.
Qed.

(** X20. [reserve(n)] keeps the elements and [size()]; the capacity is [n]
    afterwards if it was smaller, and as it was otherwise. *)
Theorem reserve_keeps_elements (vec : @vector T D) xs new_alloc :
  stores vec xs -> new_alloc < 2 ^ 64 ->
  exists vec' events,
    reserve vec new_alloc = Done (vec', events) /\
    stores vec' xs /\
    size vec' = size vec /\
    capacity vec' = Z.max (capacity vec) new_alloc /\
    Forall (fun ev => ev = DestroyedMoved) events.
Proof.
  intros Hst Hfit.
  destruct (reserve_spec vec xs new_alloc Hst Hfit)
    as (vec' & Hrun & Hst' & Hsp & _).
  eexists vec', _. split; [exact Hrun|]. split; [exact Hst'|].
  split; [|split; [exact Hsp|apply Forall_replicate; reflexivity]].
  unfold size. rewrite (stores_length _ _ Hst), (stores_length _ _ Hst').
  reflexivity.
Qed.

Lemma clean_up_spec (vec : @vector T D) xs :
  stores vec xs ->
  clean_up vec
  = Done (vector_new (_deleter vec),
          (fun x => match _deleter vec with
                    | Some d => Deleted d x
                    | None => Destroyed x
                    end) <$> xs).
Proof.
  intros Hst. pose proof Hst as (Hsize & Hspace & Hel). unfold clean_up.
  rewrite Hel. unfold storage. destruct (_space vec =? 0) eqn:Hzero.
  - apply Z.eqb_eq in Hzero. destruct xs; [reflexivity|].
    cbn [length] in Hsize. lia.
  - rewrite Hsize, Nat2Z.id. change 0 with (Z.of_nat (length (@nil T))).
    rewrite (clean_up_loop_spec vec xs xs []); [reflexivity|assumption|reflexivity].
Qed.

(** X21. [clear()] passes every element to the custom deleter, once and in
    index order, or destroys it when the vector has no deleter; it also
    gives the storage back, so that the capacity is 0 afterwards. *)
Theorem clear_hands_elements_over (vec : @vector T D) xs :
  stores vec xs ->
  exists vec',
    clear vec
    = Done (vec', (fun x => match _deleter vec with
                            | Some d => Deleted d x
                            | None => Destroyed x
                            end) <$> xs) /\
    stores vec' [] /\ size vec' = 0 /\ capacity vec' = 0 /\
    _deleter vec' = _deleter vec.
Proof.
  intros Hst. exists (vector_new (_deleter vec)).
  split; [apply clean_up_spec; assumption|].
  split; [apply stores_new|]. auto.
Qed.

(** X22. The copy constructor builds a vector with the same elements and
    the same deleter, whose capacity is the number of elements, not the
    capacity of the source. *)
Theorem copy_construct_copies_elements (other : @vector T D) xs :
  stores other xs ->
  exists vec',
    copy_construct other = Done vec' /\
    stores vec' xs /\
    capacity vec' = size other /\
    _deleter vec' = _deleter other.
Proof.
  intros Hst. pose proof Hst as (Hsize & Hspace & Hel).
  unfold copy_construct. destruct (0 <? _size other) eqn:Hpos.
  - apply Z.ltb_lt in Hpos.
    rewrite Hsize, Nat2Z.id, allocate_storage by lia.
    change 0 with (Z.of_nat (length (@nil T))) at 1.
    rewrite (copy_loop_spec other xs (Z.of_nat (length xs)) xs []);
      [|assumption|reflexivity|lia|lia].
    cbn [bind]. eexists. split; [reflexivity|].
    split; [|split; [unfold capacity, size; cbn [_space]; lia|reflexivity]].
    split; [reflexivity|]. cbn [_size _space _elements].
    split; [lia|reflexivity].
  - apply Z.ltb_ge in Hpos. assert (xs = []) as -> by (destruct xs; [reflexivity|cbn [length] in Hsize; lia]).
    exists (vector_new (_deleter other)). split; [reflexivity|].
    split; [apply stores_new|]. split; [unfold capacity, size; cbn; lia|reflexivity].
Qed.

(** X23. Move assignment: the target hands its own elements to its own
    deleter and takes over the elements, the capacity and the deleter of
    the source; the source holds nothing and has capacity 0, and
    [push_back] works on it again. *)
Theorem move_assign_transfers_storage (this other : @vector T D) xs ys val :
  stores this xs -> stores other ys ->
  exists this' other' other'' events,
    move_assign this other
    = Done (this', other',
            (fun x => match _deleter this with
                      | Some d => Deleted d x
                      | None => Destroyed x
                      end) <$> xs) /\
    stores this' ys /\ capacity this' = capacity other /\
    _deleter this' = _deleter other /\
    stores other' [] /\ capacity other' = 0 /\
    push_back other' val = Done (other'', events) /\
    stores other'' [val] /\ capacity other'' = 8.
Proof.
  intros Hst Hst'. unfold move_assign.
  rewrite (clean_up_spec this xs Hst). cbn [bind].
  destruct (push_back_spec (vector_new (_deleter other)) [] val (stores_new _))
    as (other'' & events & Hrun & Hst'' & Hsp & _); [cbn; lia|].
  eexists _, _, other'', events. split; [reflexivity|].
  split; [exact Hst'|]. split; [reflexivity|]. split; [reflexivity|].
  split; [apply stores_new|]. split; [reflexivity|].
  split; [exact Hrun|]. split; [exact Hst''|exact Hsp].
Qed.

Lemma push_back_all_spec (vals : list T) : forall (vec : @vector T D) xs,
  stores vec xs ->
  2 * Z.max 8 (Z.max (_space vec) (2 * Z.of_nat (length xs + length vals)))
  < 2 ^ 64 ->
  exists vec' events,
    push_back_all vals vec = Done (vec', events) /\
    stores vec' (xs ++ vals) /\
    _deleter vec' = _deleter vec /\
    (Z.of_nat (length xs + length vals) <= _space vec ->
     _space vec' = _space vec /\ events = []) /\
    Forall (fun ev => ev = DestroyedMoved) events /\
    _space vec'
    <= Z.max 8 (Z.max (_space vec) (2 * Z.of_nat (length xs + length vals))).
Proof.
  induction vals as [|val vals IH]; intros vec xs Hst Hfit.
  - exists vec, []. rewrite app_nil_r. split; [reflexivity|].
    split; [assumption|]. split; [reflexivity|]. split; [auto|].
    split; [constructor|]. lia.
  - cbn [length] in Hfit. pose proof Hst as (Hsize & Hspace & _).
    destruct (push_back_spec vec xs val Hst ltac:(lia))
      as (vec1 & events1 & Hrun1 & Hst1 & Hsp1 & Hd1 & Hev1).
    assert (Hsp1' : (_space vec1 = 8 /\ _space vec = 0) \/
                    (_space vec1 = 2 * _space vec /\ _size vec = _space vec) \/
                    (_space vec1 = _space vec /\ _space vec <> 0 /\
                     _size vec <> _space vec)).
    { rewrite Hsp1. destruct (_space vec =? 0) eqn:Hzero.
      - apply Z.eqb_eq in Hzero. auto.
      - apply Z.eqb_neq in Hzero. destruct (_size vec =? _space vec) eqn:Hfull.
        + apply Z.eqb_eq in Hfull. auto.
        + apply Z.eqb_neq in Hfull. auto. }
    destruct (IH vec1 (xs ++ [val]) Hst1)
      as (vec' & events2 & Hrun2 & Hst' & Hd' & Hsame & Hmoved & Hbound).
    { rewrite length_app. cbn [length]. lia. }
    cbn [push_back_all]. rewrite Hrun1. cbn [bind]. rewrite Hrun2. cbn [bind].
    exists vec', (events1 ++ events2). split; [reflexivity|].
    rewrite <- app_assoc in Hst'. split; [exact Hst'|].
    split; [congruence|]. rewrite length_app in Hsame, Hbound.
    cbn [length] in *. split; [|split].
    + intros Hroom.
      assert (Hnz : (_space vec =? 0) = false) by (apply Z.eqb_neq; lia).
      assert (Hnf : (_size vec =? _space vec) = false) by (apply Z.eqb_neq; lia).
      rewrite Hnz, Hnf in Hsp1, Hev1.
      destruct Hsame as [-> ->]; [lia|]. subst events1.
      split; [assumption|reflexivity].
    + apply Forall_app. split; [|assumption].
      rewrite Hev1. apply Forall_replicate. reflexivity.
    + lia.
Qed.

(** X24. The constructor from an initializer list allocates once: the
    vector holds the elements of the list in order, its capacity is their
    number, and no element is moved or destroyed on the way. The sized
    constructor builds [s] default elements in a storage of [s] slots. *)
Theorem list_and_sized_constructors_allocate_exactly (init : list T) (s : Z)
        (d : option D) :
  Z.of_nat (length init) < 2 ^ 61 -> 0 <= s < 2 ^ 64 ->
  (exists vec,
      vector_of_list init d = Done (vec, []) /\
      stores vec init /\ capacity vec = Z.of_nat (length init) /\
      _deleter vec = d) /\
  (exists vec,
      vector_sized s d = Done vec /\
      stores vec (replicate (Z.to_nat s) value_default) /\
      capacity vec = s /\ _deleter vec = d).
Proof.
  intros Hfit Hs. split.
  - unfold vector_of_list.
    destruct (reserve_spec (vector_new d) [] (Z.of_nat (length init)) (stores_new d))
      as (vec1 & Hrun1 & Hst1 & Hsp1 & Hd1); [lia|].
    rewrite Hrun1. cbn [bind]. cbn [_space vector_new] in Hsp1.
    destruct (push_back_all_spec init vec1 [] Hst1)
      as (vec' & events & Hrun & Hst' & Hd' & Hsame & _); [cbn [length]; lia|].
    destruct Hsame as [Hsp' ->]; [cbn [length]; lia|].
    cbn [app] in Hst'. rewrite Hrun. cbn [bind length _space vector_new].
    destruct (Z.of_nat (length init) <=? 0); cbn [app replicate];
      (exists vec'; split; [reflexivity|]; split; [exact Hst'|];
       split; [unfold capacity; lia|rewrite Hd', Hd1; reflexivity]).
  - unfold vector_sized. destruct (0 <? s) eqn:Hpos.
    + apply Z.ltb_lt in Hpos. rewrite allocate_storage by lia.
      change 0 with (Z.of_nat (length (@nil T))) at 1.
      rewrite (default_loop_spec s (Z.to_nat s) []) by (cbn [length]; lia).
      cbn [bind app]. eexists. split; [reflexivity|].
      split; [|split; reflexivity].
      split; [cbn [_size]; rewrite length_replicate; lia|].
      cbn [_size _space _elements]. split; [lia|reflexivity].
    + apply Z.ltb_ge in Hpos. replace s with 0 by lia.
      exists (vector_new d). split; [reflexivity|].
      split; [apply stores_new|]. split; reflexivity.
Qed.

End VectorClaims.

(** ** Growth, copies and iteration of the vector *)

Section VectorGrowth.
Import vector.
Context {T D : Type} `{ValueType T}.

Lemma push_back_all_snoc (l : list T) x :
  forall vec : @vector T D,
  push_back_all (l ++ [x]) vec
  = let* '(vec1, events1) := push_back_all l vec in
    let* '(vec2, events2) := push_back vec1 x in
    Done (vec2, events1 ++ events2).
Proof.
  induction l as [|y l IH]; intros vec.
  - cbn [app push_back_all bind].
    destruct (push_back vec x) as [[vec2 events2]| |]; cbn [bind]; [|reflexivity..].
    rewrite app_nil_r. reflexivity.
  - cbn [app push_back_all].
    destruct (push_back vec y) as [[vec1 events1]| |]; cbn [bind]; [|reflexivity..].
    rewrite IH.
    destruct (push_back_all l vec1) as [[vec2 events2]| |]; cbn [bind]; [|reflexivity..].
    destruct (push_back vec2 x) as [[vec3 events3]| |]; cbn [bind]; [|reflexivity..].
    rewrite app_assoc. reflexivity.
Qed.

(** The vector that [push_back] builds from an empty one, element by
    element, with the number of elements moved to a new storage on the
    way. *)
Lemma push_back_all_from_empty (d : option D) (vals : list T) :
  Z.of_nat (length vals) < 2 ^ 62 ->
  exists (vec : @vector T D) events,
    push_back_all vals (vector_new d) = Done (vec, events) /\
    stores vec vals /\
    _deleter vec = d /\
    Forall (fun ev => ev = DestroyedMoved) events /\
    Z.of_nat (length events) = Z.max 0 (_space vec - 8) /\
    ((vals = [] /\ _space vec = 0) \/
     (vals <> [] /\ Z.of_nat (length vals) <= _space vec /\
      (exists c : nat, _space vec = 8 * 2 ^ Z.of_nat c) /\
      (_space vec = 8 \/ _space vec < 2 * Z.of_nat (length vals)))).
Proof.
  induction vals as [|val vals IH] using rev_ind; intros Hn.
  - exists (vector_new d), []. split; [reflexivity|].
    split; [apply stores_new|]. split; [reflexivity|]. split; [constructor|].
    split; [reflexivity|]. left. auto.
  - rewrite length_app in Hn. cbn [length] in Hn.
    destruct IH as (vec & events & Hrun & Hst & Hd & Hev & Hcount & Hcap); [lia|].
    rewrite push_back_all_snoc, Hrun. cbn [bind].
    pose proof Hst as (Hsize & Hspace & _).
    assert (Hbound : 2 * _space vec < 2 ^ 64).
    { destruct Hcap as [[_ ->]|(_ & _ & _ & [->|?])]; lia. }
    destruct (push_back_spec vec vals val Hst Hbound)
      as (vec' & events' & Hrun' & Hst' & Hsp & Hd' & Hev').
    rewrite Hrun'. cbn [bind]. exists vec', (events ++ events').
    split; [reflexivity|]. split; [exact Hst'|]. split; [congruence|]. split.
    { apply Forall_app. split; [assumption|].
      rewrite Hev'. apply Forall_replicate. reflexivity. }
    rewrite length_app, Hev', length_replicate, Hsp.
    rewrite length_app. cbn [length].
    destruct Hcap as [[-> Hzero]|(Hpos & Hroom & [c Hc] & Hused)].
    + rewrite Hzero in *. cbn [Z.eqb length] in *. split; [lia|].
      right. split; [discriminate|]. split; [lia|].
      split; [exists 0%nat; reflexivity|auto].
    + assert (8 <= _space vec)
        by (rewrite Hc; pose proof (Z.pow_pos_nonneg 2 (Z.of_nat c)); lia).
      replace (_space vec =? 0) with false by (symmetry; apply Z.eqb_neq; lia).
      destruct (_size vec =? _space vec) eqn:Hfull.
      * apply Z.eqb_eq in Hfull. split; [lia|]. right.
        split; [destruct vals; discriminate|]. split; [lia|]. split; [|right; lia].
        exists (S c). rewrite Hc, Nat2Z.inj_succ, Z.pow_succ_r by lia. lia.
      * apply Z.eqb_neq in Hfull. split; [lia|]. right.
        split; [destruct vals; discriminate|]. split; [lia|].
        split; [exists c; exact Hc|].
        destruct Hused; [left; assumption|right; lia].
Qed.

(** X27. [push_back] is amortized constant, as the header says: while [n]
    elements are pushed onto an empty vector, elements are moved to a new
    storage [capacity - 8] times in all, which is fewer than [2 * n]
    times. *)
Theorem push_back_is_amortized_constant (d : option D) (vals : list T) :
  Z.of_nat (length vals) < 2 ^ 62 ->
  exists (vec : @vector T D) events,
    push_back_all vals (vector_new d) = Done (vec, events) /\
    stores vec vals /\
    Forall (fun ev => ev = DestroyedMoved) events /\
    Z.of_nat (length events) = Z.max 0 (capacity vec - 8) /\
    Z.of_nat (length events) <= 2 * Z.of_nat (length vals).
Proof.
  intros Hn.
  destruct (push_back_all_from_empty d vals Hn)
    as (vec & events & Hrun & Hst & _ & Hev & Hcount & Hcap).
  exists vec, events. split; [exact Hrun|]. split; [exact Hst|].
  split; [exact Hev|]. split; [exact Hcount|].
  destruct Hcap as [[_ Hzero]|(_ & _ & _ & [Height|Hless])]; lia.
Qed.

(** X25. Copy assignment hands the elements of the target to the deleter
    the target had, then copies the elements of the source in order and
    takes its deleter; the capacity is the number of elements copied. *)
Theorem copy_assign_replaces_elements (this other : @vector T D) xs ys :
  stores this xs -> stores other ys ->
  exists this',
    copy_assign this other
    = Done (this', (fun x => match _deleter this with
                             | Some d => Deleted d x
                             | None => Destroyed x
                             end) <$> xs) /\
    stores this' ys /\
    capacity this' = size other /\
    _deleter this' = _deleter other.
Proof.
  intros Hst Hst'. pose proof Hst' as (Hsize & Hspace & Hel).
  unfold copy_assign. rewrite (clean_up_spec this xs Hst). cbn [bind].
  destruct (0 <? _size other) eqn:Hpos.
  - apply Z.ltb_lt in Hpos.
    rewrite Hsize, Nat2Z.id, allocate_storage by lia.
    change 0 with (Z.of_nat (length (@nil T))) at 1.
    rewrite (copy_loop_spec other ys (Z.of_nat (length ys)) ys []);
      [|assumption|reflexivity|lia|lia].
    cbn [bind _size _elements _space]. eexists. split; [reflexivity|].
    split; [|split; [unfold capacity, size; cbn [_space]; lia|reflexivity]].
    split; [reflexivity|]. cbn [_size _space _elements].
    split; [lia|reflexivity].
  - apply Z.ltb_ge in Hpos.
    assert (ys = []) as ->
        by (destruct ys; [reflexivity|cbn [length] in Hsize; lia]).
    cbn [bind]. eexists. split; [reflexivity|].
    split; [|split; [unfold capacity, size; cbn; lia|reflexivity]].
    split; [reflexivity|]. cbn. split; [lia|reflexivity].
Qed.

Lemma vector_visit_loop_spec (vec : @vector T D) xs : forall todo done fuel,
  stores vec xs -> xs = done ++ todo -> (length todo < fuel)%nat ->
  vector.visit_loop fuel vec (Z.of_nat (length done)) (Z.of_nat (length xs))
  = Done todo.
Proof.
  induction todo as [|x todo IH]; intros done fuel Hst Hxs Hfuel;
    (destruct fuel as [|fuel]; [simpl in Hfuel; lia|]);
    cbn [vector.visit_loop]; unfold neq;
    pose proof (f_equal length Hxs) as Hlen;
    rewrite length_app in Hlen; cbn [length] in Hlen.
  - replace (Z.of_nat (length done) =? Z.of_nat (length xs)) with true
      by (symmetry; apply Z.eqb_eq; lia).
    reflexivity.
  - replace (Z.of_nat (length done) =? Z.of_nat (length xs))
      with false by (symmetry; apply Z.eqb_neq; lia).
    cbn [negb]. unfold deref.
    rewrite (element_at_stores vec xs) by assumption.
    rewrite Hxs at 1. rewrite lookup_middle_app. cbn [bind]. unfold increment.
    replace (Z.of_nat (length done) + 1) with (Z.of_nat (length (done ++ [x])))
      by (rewrite length_app; cbn [length]; lia).
    rewrite (IH (done ++ [x]) fuel Hst); [reflexivity| |cbn [length] in Hfuel; lia].
    rewrite <- app_assoc. exact Hxs.
Qed.

(** X28. Iterating a vector from [begin()] to [end()] reads its elements in
    order; on an empty vector, also one without storage, the two
    iterators are equal and nothing is read. *)
Theorem vector_iteration_reads_the_elements (vec : @vector T D) xs fuel :
  stores vec xs -> (length xs < fuel)%nat ->
  vector.visited fuel vec = Done xs /\
  (xs = [] -> neq (begin vec) (end_ vec) = false).
Proof.
  intros Hst Hfuel. split.
  - unfold vector.visited, begin, end_. rewrite (stores_length vec xs Hst).
    change 0 with (Z.of_nat (length (@nil T))) at 1.
    apply (vector_visit_loop_spec vec xs xs []); [assumption|reflexivity|assumption].
  - intros ->. destruct Hst as (Hsize & _). unfold neq, begin, end_.
    rewrite Hsize. reflexivity.
Qed.

End VectorGrowth.

(** ** The vector benchmarks *)

Section VectorBenchmarks.
Import ints.
Import vector.
Context {D : Type}.

(** Up to [INT_MAX] the counter of the loops does not overflow, and the
    push loop is [push_back] of the numbers from [i] to [n - 1]. *)
Lemma push_back_loop_spec (fuel : nat) n : forall i (vec : @vector Z D),
  0 <= i -> n <= benchy.INT_MAX -> (Z.to_nat (n - i) < fuel)%nat ->
  benchy.push_back_loop fuel n i vec = push_back_all (seqZ i (n - i)) vec.
Proof.
  induction fuel as [|fuel IH]; intros i vec Hi Hn Hfuel; [lia|].
  cbn [benchy.push_back_loop].
  destruct (Z.ltb_spec i n) as [Hlt|Hge].
  - rewrite (seqZ_cons i (n - i)) by lia. cbn [push_back_all].
    destruct (push_back vec i) as [[vec1 events1]| |]; cbn [bind]; try reflexivity.
    unfold benchy.int_increment.
    destruct (Z.ltb_spec i benchy.INT_MAX) as [_|Hmax]; [|lia].
    cbn [bind]. rewrite (IH (i + 1) vec1) by lia.
    replace (Z.succ i) with (i + 1) by lia.
    replace (Z.pred (n - i)) with (n - (i + 1)) by lia. reflexivity.
  - rewrite seqZ_nil by lia. reflexivity.
Qed.

Lemma access_loop_spec (fuel : nat) n (vec : @vector Z D) :
  stores vec (seqZ 0 n) -> n <= benchy.INT_MAX ->
  forall i, 0 <= i -> (Z.to_nat (n - i) < fuel)%nat ->
  benchy.access_loop fuel n i vec = Done (seqZ i (n - i)).
Proof.
  intros Hst Hn. induction fuel as [|fuel IH]; intros i Hi Hfuel; [lia|].
  cbn [benchy.access_loop].
  destruct (Z.ltb_spec i n) as [Hlt|Hge].
  - unfold index. rewrite (element_at_stores vec (seqZ 0 n)) by assumption.
    rewrite lookup_seqZ_lt by lia. cbn [bind].
    unfold benchy.int_increment.
    destruct (Z.ltb_spec i benchy.INT_MAX) as [_|Hmax]; [|lia].
    cbn [bind]. rewrite (IH (i + 1)) by lia. cbn [bind].
    rewrite (seqZ_cons i (n - i)) by lia.
    replace (Z.succ i) with (i + 1) by lia.
    replace (Z.pred (n - i)) with (n - (i + 1)) by lia.
    f_equal. f_equal. lia.
  - rewrite seqZ_nil by lia. reflexivity.
Qed.

(** X16. The vector benchmarks for [n] elements, [n] at most [INT_MAX] so
    that the [int] counter of the loops does not overflow: after
    [v.push_back(i)] for [i] from 0 to [n - 1] the vector holds
    0, ..., [n - 1] in order, all of them values of an [int], its capacity
    is 0 when [n] is 0 and otherwise the smallest [8 * 2^c] that is at
    least [n], no element was passed to a deleter or destroyed while in the
    vector, and each [v[i]] of the access loop reads [i]. *)
Theorem vector_benchmarks_push_and_read (fuel : nat) n :
  0 <= n <= 2 ^ 31 - 1 -> (Z.to_nat n < fuel)%nat ->
  exists (vec : @vector Z D) events,
    benchy.BM_CustomVectorPushBack fuel n = Done (vec, events) /\
    stores vec (seqZ 0 n) /\
    Forall (fun x => 0 <= x <= benchy.INT_MAX) (seqZ 0 n) /\
    size vec = n /\
    Forall (fun ev => ev = DestroyedMoved) events /\
    ((n = 0 /\ capacity vec = 0) \/
     (0 < n <= capacity vec /\
      (exists c : nat, capacity vec = 8 * 2 ^ Z.of_nat c) /\
      (capacity vec = 8 \/ capacity vec < 2 * n))) /\
    benchy.BM_CustomVectorAccess (D := D) fuel n = Done (seqZ 0 n).
Proof.
  intros Hn Hfuel.
  assert (Hmax : n <= benchy.INT_MAX) by (unfold benchy.INT_MAX; lia).
  unfold benchy.BM_CustomVectorAccess, benchy.BM_CustomVectorPushBack.
  rewrite push_back_loop_spec by (rewrite ?Z.sub_0_r; lia).
  rewrite Z.sub_0_r.
  destruct (push_back_all_from_empty (T := Z) (D := D) None (seqZ 0 n))
    as (vec & events & Hrun & Hst & _ & Hev & _ & Hcap);
    [rewrite length_seqZ; lia|].
  rewrite length_seqZ, Z2Nat.id in Hcap by lia.
  exists vec, events. split; [exact Hrun|]. split; [exact Hst|].
  split; [|split; [|split; [exact Hev|split]]].
  - apply Forall_forall. intros x Hx. apply list_elem_of_In, elem_of_seqZ in Hx. lia.
  - unfold size. rewrite (stores_length vec _ Hst), length_seqZ. lia.
  - unfold capacity.
    destruct Hcap as [[Hz ?]|(Hnz & ? & ? & ?)].
    + left. split; [|assumption].
      destruct (Z.eq_dec n 0) as [|Hne]; [assumption|].
      rewrite seqZ_cons in Hz by lia. discriminate.
    + right. split; [|split; assumption].
      destruct (Z.eq_dec n 0) as [->|Hne]; [|lia].
      exfalso. apply Hnz. reflexivity.
  - rewrite Hrun. cbn [bind].
    rewrite (access_loop_spec fuel n vec Hst Hmax 0) by (rewrite ?Z.sub_0_r; lia).
    rewrite Z.sub_0_r. reflexivity.
Qed.

End VectorBenchmarks.

(** ** Instances on [map<int, int>] *)

Section MapInstances.
Import ints.

(** The map after [m[5] = 50] on a fresh [map<int, int, 8>] is
    reachable. *)
Ltac reach_five :=
  eapply (reachable_assign 3 [] (map_new (2 ^ 3)) 20 5 50);
  [lia|apply reach_new|intros _; vm_compute; reflexivity
  |vm_compute; reflexivity].


Lemma probe_sequence_witness :
  probe_indices 9 (2 ^ 3) 5 0
  = (fun t => (5 + t * (t - 1) / 2) mod 2 ^ 3) <$> seqZ 0 (Z.of_nat 9).
Proof. apply (probe_sequence_closed_form 3 5 9); [lia|lia|vm_compute; reflexivity]. Defined.

Lemma stored_keys_witness :
  exists m : int_map,
    assign 20 (map_new (2 ^ 3)) 5 50 = Done m /\
    (forall p q e1 e2,
        entries m !! p = Some e1 -> entries m !! q = Some e2 ->
        state e1 = 1 -> state e2 = 1 -> first (data e1) = first (data e2) ->
        p = q) /\
    (forall p e, entries m !! p = Some e -> state e = 1 -> first (data e) ∈ [5]).
Proof.
  eexists. split; [vm_compute; reflexivity|].
  apply (stored_keys_are_unique_and_were_indexed 3 [5]); [lia|reach_five].
Defined.




Lemma capacity_well_used_witness :
  exists m : int_map,
    assign 20 (map_new (2 ^ 3)) 5 50 = Done m /\
    (capacity m = 2 ^ 3 \/ 3 * capacity m < 8 * (size m + 1)).
Proof.
  eexists. split; [vm_compute; reflexivity|].
  apply (capacity_is_initial_or_well_used 3 [5]); [lia|reach_five].
Defined.

Lemma index_at_largest_capacity_witness :
  index_or_insert 3
    ({| entries := []; capacity := 2 ^ 31; m_size := 2 ^ 31 - 1 |} : int_map) 7
  = Fault.
Proof.
  apply (index_at_largest_capacity_faults
           ({| entries := []; capacity := 2 ^ 31; m_size := 2 ^ 31 - 1 |} : int_map)
           7 0); vm_compute; reflexivity.
Defined.

Lemma iteration_witness :
  exists m : int_map,
    assign 20 (map_new (2 ^ 3)) 5 50 = Done m /\
    exists ps,
      iterator.visited 9 m = Done ps /\
      ps = data <$> List.filter (fun e => state e =? 1) (entries m) /\
      Z.of_nat (length ps) = size m /\
      NoDup (first <$> ps) /\
      (forall key value,
          {| first := key; second := value |} ∈ ps <->
          lookup 9 m key = Done (Some value)).
Proof.
  eexists. split; [vm_compute; reflexivity|].
  apply (iteration_reads_the_stored_pairs 3 [5]); [lia|reach_five|vm_compute; lia].
Defined.

Lemma increment_witness :
  let occupied (key : Z) : @Entry Z Z :=
    {| state := 1; data := {| first := key; second := key |} |} in
  let it := {| iterator.it_entries := [occupied 4; Entry_new; Entry_new; occupied 7];
               iterator.it_capacity := 4; iterator.it_index := 0 |} in
  exists it',
    iterator.increment 4 it = Done it' /\
    iterator.it_entries it' = iterator.it_entries it /\
    iterator.it_capacity it' = iterator.it_capacity it /\
    iterator.it_index it < iterator.it_index it' <= iterator.it_capacity it /\
    iterator.settled it' /\
    forall p e, iterator.it_index it < Z.of_nat p < iterator.it_index it' ->
                iterator.it_entries it !! p = Some e -> state e <> 1.
Proof.
  intros occupied it.
  apply (increment_moves_to_next_occupied_slot it 4);
    [reflexivity|vm_compute; reflexivity|vm_compute; split; [discriminate|reflexivity]
    |vm_compute; lia].
Defined.

Lemma no_slot_deleted_witness :
  exists m : int_map,
    assign 20 (map_new (2 ^ 3)) 5 50 = Done m /\
    forall p e, entries m !! p = Some e -> state e = 0 \/ state e = 1.
Proof.
  eexists. split; [vm_compute; reflexivity|].
  apply (no_slot_is_ever_deleted (2 ^ 3) [5]). reach_five.
Defined.

Lemma map_benchmarks_witness :
  exists m : int_map,
    benchy.BM_CustomMapInsertion 100 10 = Done m /\
    size m = 10 /\
    (exists c : nat, capacity m = 8 * 2 ^ Z.of_nat c) /\
    4 * 10 <= 3 * capacity m /\
    (capacity m = 8 \/ 3 * capacity m < 8 * 10) /\
    benchy.BM_CustomMapLookup 100 10 = Done (Some <$> seqZ 0 10).
Proof.
  apply (map_benchmarks_insert_and_find 10 100); [lia|vm_compute; lia].
Defined.

End MapInstances.

(** ** Instances on [vector<int>] *)

Section VectorInstances.
Import ints.
Import vector.

(** A vector of [int] with a custom deleter that holds 7 and 8 in a storage
    of 4 slots, and one without deleter that is full. *)
Lemma stores_two :
  stores ({| _size := 2; _elements := Some [Some 7; Some 8; None; None];
             _space := 4; _deleter := Some tt |} : @vector Z unit) [7; 8].
Proof. split; [reflexivity|]. split; [cbn; lia|reflexivity]. Qed.

Lemma push_back_witness :
  let vec : @vector Z unit :=
    {| _size := 2; _elements := Some [Some 7; Some 8; None; None];
       _space := 4; _deleter := Some tt |} in
  exists vec' events,
    push_back vec 9 = Done (vec', events) /\
    stores vec' ([7; 8] ++ [9]) /\
    size vec' = size vec + 1 /\
    capacity vec' = (if capacity vec =? 0 then 8
                     else if size vec =? capacity vec then 2 * capacity vec
                          else capacity vec) /\
    Forall (fun ev => ev = DestroyedMoved) events /\
    back vec' = Done 9.
Proof.
  intros vec.
  apply (push_back_appends vec [7; 8] 9); [apply stores_two|vm_compute; reflexivity].
Defined.

Lemma vector_benchmarks_witness :
  exists (vec : @vector Z unit) events,
    benchy.BM_CustomVectorPushBack 11 10 = Done (vec, events) /\
    stores vec (seqZ 0 10) /\
    Forall (fun x => 0 <= x <= benchy.INT_MAX) (seqZ 0 10) /\
    size vec = 10 /\
    Forall (fun ev => ev = DestroyedMoved) events /\
    ((10 = 0 /\ capacity vec = 0) \/
     (0 < 10 <= capacity vec /\
      (exists c : nat, capacity vec = 8 * 2 ^ Z.of_nat c) /\
      (capacity vec = 8 \/ capacity vec < 2 * 10))) /\
    benchy.BM_CustomVectorAccess (D := unit) 11 10 = Done (seqZ 0 10).
Proof. apply (vector_benchmarks_push_and_read 11 10); simpl; lia. Defined.

Lemma at_out_of_range_witness :
  let vec : @vector Z unit :=
    {| _size := 2; _elements := Some [Some 7; Some 8; None; None];
       _space := 4; _deleter := Some tt |} in
  at_ vec 5 = Done 7 /\ index vec 5 = Fault.
Proof.
  intros vec.
  apply (at_out_of_range_returns_first_element vec [7; 8] 5);
    [apply stores_two|lia].
Defined.

Lemma resize_elements_witness :
  let vec : @vector Z unit :=
    {| _size := 2; _elements := Some [Some 7; Some 8; None; None];
       _space := 4; _deleter := Some tt |} in
  exists vec' events,
    resize vec 6 1 = Done (vec', events) /\
    stores vec' (take (Z.to_nat 6) [7; 8]
                 ++ replicate (Z.to_nat 6 - length [7; 8]) 1) /\
    size vec' = 6 /\
    capacity vec' = Z.max (capacity vec) 6.
Proof.
  intros vec.
  apply (resize_elements vec [7; 8] 6 1); [apply stores_two|lia].
Defined.

Lemma resize_shrink_witness :
  let vec : @vector Z unit :=
    {| _size := 2; _elements := Some [Some 7; Some 8; None; None];
       _space := 4; _deleter := Some tt |} in
  exists vec',
    resize vec 0 1 = Done (vec', Destroyed <$> rev (drop (Z.to_nat 0) [7; 8])) /\
    _deleter vec' = _deleter vec.
Proof.
  intros vec.
  apply (resize_shrink_bypasses_deleter vec [7; 8] 0 1);
    [apply stores_two|vm_compute; split; discriminate].
Defined.

Lemma reserve_witness :
  let vec : @vector Z unit :=
    {| _size := 2; _elements := Some [Some 7; Some 8; None; None];
       _space := 4; _deleter := Some tt |} in
  exists vec' events,
    reserve vec 16 = Done (vec', events) /\
    stores vec' [7; 8] /\
    size vec' = size vec /\
    capacity vec' = Z.max (capacity vec) 16 /\
    Forall (fun ev => ev = DestroyedMoved) events.
Proof.
  intros vec.
  apply (reserve_keeps_elements vec [7; 8] 16); [apply stores_two|lia].
Defined.

Lemma clear_witness :
  let vec : @vector Z unit :=
    {| _size := 2; _elements := Some [Some 7; Some 8; None; None];
       _space := 4; _deleter := Some tt |} in
  exists vec',
    clear vec
    = Done (vec', (fun x => match _deleter vec with
                            | Some d => Deleted d x
                            | None => Destroyed x
                            end) <$> [7; 8]) /\
    stores vec' [] /\ size vec' = 0 /\ capacity vec' = 0 /\
    _deleter vec' = _deleter vec.
Proof.
  intros vec. apply (clear_hands_elements_over vec [7; 8]). apply stores_two.
Defined.

Lemma copy_construct_witness :
  let other : @vector Z unit :=
    {| _size := 2; _elements := Some [Some 7; Some 8; None; None];
       _space := 4; _deleter := Some tt |} in
  exists vec',
    copy_construct other = Done vec' /\
    stores vec' [7; 8] /\
    capacity vec' = size other /\
    _deleter vec' = _deleter other.
Proof.
  intros other. apply (copy_construct_copies_elements other [7; 8]). apply stores_two.
Defined.

Lemma move_assign_witness :
  let this : @vector Z unit :=
    {| _size := 2; _elements := Some [Some 7; Some 8; None; None];
       _space := 4; _deleter := Some tt |} in
  let other : @vector Z unit := vector_new None in
  exists this' other' other'' events,
    move_assign this other
    = Done (this', other',
            (fun x => match _deleter this with
                      | Some d => Deleted d x
                      | None => Destroyed x
                      end) <$> [7; 8]) /\
    stores this' [] /\ capacity this' = capacity other /\
    _deleter this' = _deleter other /\
    stores other' [] /\ capacity other' = 0 /\
    push_back other' 3 = Done (other'', events) /\
    stores other'' [3] /\ capacity other'' = 8.
Proof.
  intros this other.
  apply (move_assign_transfers_storage this other [7; 8] [] 3);
    [apply stores_two|apply stores_new].
Defined.

Lemma constructors_witness :
  (exists vec : @vector Z unit,
      vector_of_list [1; 2; 3] None = Done (vec, []) /\
      stores vec [1; 2; 3] /\ capacity vec = Z.of_nat (length [1; 2; 3]) /\
      _deleter vec = None) /\
  (exists vec : @vector Z unit,
      vector_sized 5 None = Done vec /\
      stores vec (replicate (Z.to_nat 5) value_default) /\
      capacity vec = 5 /\ _deleter vec = None).
Proof.
  apply (list_and_sized_constructors_allocate_exactly [1; 2; 3] 5 None);
    [vm_compute; reflexivity|lia].
Defined.

Lemma amortized_witness :
  exists (vec : @vector Z unit) events,
    push_back_all [1; 2; 3] (vector_new None) = Done (vec, events) /\
    stores vec [1; 2; 3] /\
    Forall (fun ev => ev = DestroyedMoved) events /\
    Z.of_nat (length events) = Z.max 0 (capacity vec - 8) /\
    Z.of_nat (length events) <= 2 * Z.of_nat (length [1; 2; 3]).
Proof.
  apply (push_back_is_amortized_constant None [1; 2; 3]). vm_compute. reflexivity.
Defined.

Lemma copy_assign_witness :
  let this : @vector Z unit :=
    {| _size := 2; _elements := Some [Some 7; Some 8; None; None];
       _space := 4; _deleter := Some tt |} in
  let other : @vector Z unit := vector_new None in
  exists this',
    copy_assign this other
    = Done (this', (fun x => match _deleter this with
                             | Some d => Deleted d x
                             | None => Destroyed x
                             end) <$> [7; 8]) /\
    stores this' [] /\
    capacity this' = size other /\
    _deleter this' = _deleter other.
Proof.
  intros this other.
  apply (copy_assign_replaces_elements this other [7; 8] []);
    [apply stores_two|apply stores_new].
Defined.

Lemma vector_iteration_witness :
  let vec : @vector Z unit :=
    {| _size := 2; _elements := Some [Some 7; Some 8; None; None];
       _space := 4; _deleter := Some tt |} in
  vector.visited 3 vec = Done [7; 8] /\
  ([7; 8] = [] -> neq (begin vec) (end_ vec) = false).
Proof.
  intros vec.
  apply (vector_iteration_reads_the_elements vec [7; 8] 3);
    [apply stores_two|vm_compute; lia].
Defined.

End VectorInstances.

End shared.
